(** * Periodic structures of twisted bilayer graphene: a shallow embedding

    This development embeds [periodic_structures.py] (lattice builders,
    multilayer extension, hopping re-keying, Bloch Hamiltonian assembly and
    the per-k diagonalisation loop) and proves properties of it.

    Conventions.
    - Python ints are [Z]; Python/NumPy floats are idealised as the real
      numbers [R] of the Standard Library; complex numbers are pairs of reals.
      The one value whose statements depend on the last digits of a double,
      the stored twist angle, is computed through an interface of
      double-precision arithmetic instead (rounding, [np.arccos], [np.pi]).
    - A NumPy array of floats is a list of rows ([list (list R)]).
    - A Python dict is a [gmap]; the list of per-site dicts is a list of maps.
    - An instance of one of the three classes is a record of optional
      attributes ([None]: the attribute has not been created yet).
    - Methods run in a state-and-exception monad over that record: a [raise]
      stops the method and leaves the instance as it was at that point.
    - What the file imports and calls is a parameter: the crystal-structure
      library through an interface with the three facts the builders use,
      the eigensolver, the projection routine, the hopping calculator and
      [frac2cart] as functions. *)

From Stdlib Require Import Reals Lra Lia ZArith List String.
From stdpp Require Import base option list gmap strings pretty.

Local Open Scope Z_scope.
Local Open Scope R_scope.

(** ** Complex numbers *)

Module Cplx.

Record C : Type := mkC { Re : R; Im : R }.

Definition C0 : C := mkC 0 0.
Definition RtoC (x : R) : C := mkC x 0.
Definition Cadd (u v : C) : C := mkC (Re u + Re v) (Im u + Im v).
Definition Cmul (u v : C) : C :=
  mkC (Re u * Re v - Im u * Im v) (Re u * Im v + Im u * Re v).
Definition Cconj (u : C) : C := mkC (Re u) (- Im u).

(** [np.exp(1j*x)] for a real [x]. *)
Definition Cexp_i (x : R) : C := mkC (cos x) (sin x).


End Cplx.
Import Cplx.

(** ** Python and NumPy primitives *)

(** A two-dimensional float array, as a list of rows. *)
Abbreviation Mat := (list (list R)).

(** Exceptions that the embedded code can raise.  [ValueError] carries its
    message, the only payload the source ever attaches to an error. *)
Inductive exn : Type :=
| ValueError (msg : string)
| IndexError
| TypeError
| AttributeError (attr : string)
| ZeroDivisionError
| UnboundLocalError (name : string).

(** [l[i]] for a Python int [i]: negative indices count from the end. *)
Definition py_index {A} (l : list A) (i : Z) : option A :=
  let len := Z.of_nat (length l) in
  if (0 <=? i)%Z then l !! Z.to_nat i
  else if (- len <=? i)%Z then l !! Z.to_nat (len + i)
  else None.

(** Clamping of a slice bound. *)
Definition slice_bound (len : nat) (i : Z) : nat :=
  if (i <? 0)%Z then Z.to_nat (Z.of_nat len + i)
  else Nat.min (Z.to_nat i) len.

(** [l[start:stop]]. *)
Definition py_slice {A} (l : list A) (start stop : Z) : list A :=
  let s := slice_bound (length l) start in
  let e := slice_bound (length l) stop in
  drop s (take e l).

(** [sum(l)] on ints. *)
Definition py_sum (l : list Z) : Z := foldr Z.add 0%Z l.

(** [[x]*n]: an empty list when [n <= 0]. *)
Definition py_repeat {A} (x : A) (n : Z) : list A := replicate (Z.to_nat n) x.

(** [range(n)]. *)
Definition py_range (n : Z) : list nat := seq 0 (Z.to_nat n).

(** [M[0:2,0:2]] (also [M[0:2][:,0:2]]). *)
Definition sub22 (M : Mat) : Mat := map (take 2) (take 2 M).

Definition vec_add (u v : list R) : list R := zip_with Rplus u v.
Definition vec_scale (c : R) (u : list R) : list R := map (Rmult c) u.
Definition vec_dot (u v : list R) : R := foldr Rplus 0 (zip_with Rmult u v).
Definition vec_norm (u : list R) : R := sqrt (vec_dot u u).
Definition mat_scale (c : R) (M : Mat) : Mat := map (vec_scale c) M.

(** Column [j] of a matrix whose rows have at least [j+1] entries. *)
Definition mat_col (M : Mat) (j : nat) : list R := map (fun r => nth j r 0) M.

(** Transpose of a matrix with [n] columns. *)
Definition mat_T (n : nat) (M : Mat) : Mat := map (mat_col M) (seq 0 n).

(** [np.matmul(A, B)] where [B] has [n] columns. *)
Definition mat_mul (n : nat) (A B : Mat) : Mat :=
  map (fun r => map (fun c => vec_dot r c) (mat_T n B)) A.

(** Python's [round] on a float: nearest integer, ties to the even one. *)
Definition py_round (x : R) : Z :=
  let f := (up x - 1)%Z in
  if Rlt_dec (x - IZR f) (1/2) then f
  else if Rlt_dec (1/2) (x - IZR f) then (f + 1)%Z
  else if Z.even f then f else (f + 1)%Z.

(** ** Instances

    One record serves the three classes [CommensuStruct], [TBG30Approximant]
    and [Graphene]: its fields are the attributes that their constructors and
    methods create.  [a] and [h] exist from construction on. *)

Definition key3 : Type := Z * Z * Z.
Definition key4 : Type := Z * Z * Z * Z.

Record Inst : Type := mkInst {
  a : R;
  h : R;
  rotate_cent : option string;
  latt_vec_bott : option Mat;
  latt_vec_top : option Mat;
  layer_nsites : option (list Z);
  layer_nsites_sublatt : option (list (Z * Z));
  latt_vec : option Mat;
  coords : option Mat;
  layer_latt_vecs : option (list Mat);
  nsite : option Z;
  twist_angle : option R;
  hoppings : option (list (gmap key3 C))
}.

Definition set_latt_vec_bott v (s : Inst) : Inst :=
  mkInst (a s) (h s) (rotate_cent s) (Some v) (latt_vec_top s) (layer_nsites s)
    (layer_nsites_sublatt s) (latt_vec s) (coords s) (layer_latt_vecs s)
    (nsite s) (twist_angle s) (hoppings s).
Definition set_latt_vec_top v (s : Inst) : Inst :=
  mkInst (a s) (h s) (rotate_cent s) (latt_vec_bott s) (Some v) (layer_nsites s)
    (layer_nsites_sublatt s) (latt_vec s) (coords s) (layer_latt_vecs s)
    (nsite s) (twist_angle s) (hoppings s).
Definition set_layer_nsites v (s : Inst) : Inst :=
  mkInst (a s) (h s) (rotate_cent s) (latt_vec_bott s) (latt_vec_top s) (Some v)
    (layer_nsites_sublatt s) (latt_vec s) (coords s) (layer_latt_vecs s)
    (nsite s) (twist_angle s) (hoppings s).
Definition set_layer_nsites_sublatt v (s : Inst) : Inst :=
  mkInst (a s) (h s) (rotate_cent s) (latt_vec_bott s) (latt_vec_top s)
    (layer_nsites s) (Some v) (latt_vec s) (coords s) (layer_latt_vecs s)
    (nsite s) (twist_angle s) (hoppings s).
Definition set_latt_vec v (s : Inst) : Inst :=
  mkInst (a s) (h s) (rotate_cent s) (latt_vec_bott s) (latt_vec_top s)
    (layer_nsites s) (layer_nsites_sublatt s) (Some v) (coords s)
    (layer_latt_vecs s) (nsite s) (twist_angle s) (hoppings s).
Definition set_coords v (s : Inst) : Inst :=
  mkInst (a s) (h s) (rotate_cent s) (latt_vec_bott s) (latt_vec_top s)
    (layer_nsites s) (layer_nsites_sublatt s) (latt_vec s) (Some v)
    (layer_latt_vecs s) (nsite s) (twist_angle s) (hoppings s).
Definition set_layer_latt_vecs v (s : Inst) : Inst :=
  mkInst (a s) (h s) (rotate_cent s) (latt_vec_bott s) (latt_vec_top s)
    (layer_nsites s) (layer_nsites_sublatt s) (latt_vec s) (coords s)
    (Some v) (nsite s) (twist_angle s) (hoppings s).
Definition set_nsite v (s : Inst) : Inst :=
  mkInst (a s) (h s) (rotate_cent s) (latt_vec_bott s) (latt_vec_top s)
    (layer_nsites s) (layer_nsites_sublatt s) (latt_vec s) (coords s)
    (layer_latt_vecs s) (Some v) (twist_angle s) (hoppings s).
Definition set_twist_angle v (s : Inst) : Inst :=
  mkInst (a s) (h s) (rotate_cent s) (latt_vec_bott s) (latt_vec_top s)
    (layer_nsites s) (layer_nsites_sublatt s) (latt_vec s) (coords s)
    (layer_latt_vecs s) (nsite s) (Some v) (hoppings s).
Definition set_hoppings v (s : Inst) : Inst :=
  mkInst (a s) (h s) (rotate_cent s) (latt_vec_bott s) (latt_vec_top s)
    (layer_nsites s) (layer_nsites_sublatt s) (latt_vec s) (coords s)
    (layer_latt_vecs s) (nsite s) (twist_angle s) (Some v).

(** ** The method monad: state of the instance, plus exceptions *)

Definition M (A : Type) : Type := Inst -> (exn + A) * Inst.

Definition ret {A} (x : A) : M A := fun s => (inr x, s).
Definition raise {A} (e : exn) : M A := fun s => (inl e, s).
Definition bind {A B} (m : M A) (f : A -> M B) : M B :=
  fun s => match m s with
           | (inl e, s') => (inl e, s')
           | (inr x, s') => f x s'
           end.

#[global] Instance M_ret : MRet M := @ret.
#[global] Instance M_bind : MBind M := fun A B f m => bind m f.

(** Reading an attribute: [AttributeError] when it does not exist. *)
Definition attr {A} (name : string) (proj : Inst -> option A) : M A :=
  fun s => match proj s with
           | Some x => (inr x, s)
           | None => (inl (AttributeError name), s)
           end.
Definition assign (upd : Inst -> Inst) : M unit := fun s => (inr tt, upd s).

(** Lifting a partial operation, with the exception raised when it fails. *)
Definition orraise {A} (e : exn) (o : option A) : M A :=
  match o with Some x => ret x | None => raise e end.

(** Iterating a method body over a list ([for x in l: body]). *)
Fixpoint for_each {A} (l : list A) (body : A -> M unit) : M unit :=
  match l with
  | [] => ret tt
  | x :: l' => body x ;; for_each l' body
  end.

Definition read {A} (proj : Inst -> A) : M A := fun s => (inr (proj s), s).

(** Methods that only read the instance: exceptions without state. *)
Definition E (A : Type) : Type := (exn + A)%type.

#[global] Instance E_ret : MRet E := fun A x => inr x.
#[global] Instance E_bind : MBind E := fun A B f m =>
  match m with inl e => inl e | inr x => f x end.
#[global] Instance E_fmap : FMap E := fun A B f m =>
  match m with inl e => inl e | inr x => inr (f x) end.

Definition eattr {A} (name : string) (o : option A) : E A :=
  match o with Some x => inr x | None => inl (AttributeError name) end.
Definition eorraise {A} (e : exn) (o : option A) : E A :=
  match o with Some x => inr x | None => inl e end.

(** Running a read-only method inside a mutating one. *)
Definition lift {A} (f : Inst -> E A) : M A := fun s => (f s, s).

(** ** The crystal-structure service

    [pymatgen.core.structure.Structure] is an external library.  The code
    uses five of its operations; the builders rely on three facts about
    them, which the library guarantees: a structure has one site per
    coordinate row it was given, a supercell transform with scaling matrix
    [S] multiplies the number of sites by [|det S|], and [cart_coords] has
    one row per site. *)

Definition IMat3 : Type := (Z * Z * Z) * (Z * Z * Z) * (Z * Z * Z).

Definition det3 (S : IMat3) : Z :=
  let '((s00, s01, s02), (s10, s11, s12), (s20, s21, s22)) := S in
  (s00 * (s11 * s22 - s12 * s21)
   - s01 * (s10 * s22 - s12 * s20)
   + s02 * (s10 * s21 - s11 * s20))%Z.

Class StructureService : Type := {
  pmg : Type;
  (** [Structure(lattice, species, coords, coords_are_cartesian)] *)
  pmg_struct : Mat -> list string -> Mat -> bool -> pmg;
  (** [st.make_supercell(S)], which replaces [st] *)
  make_supercell : pmg -> IMat3 -> pmg;
  num_sites : pmg -> nat;
  cart_coords : pmg -> Mat;
  lattice_matrix : pmg -> Mat;
  num_sites_pmg_struct : forall L sp cs b,
    num_sites (pmg_struct L sp cs b) = length cs;
  num_sites_make_supercell : forall st S,
    det3 S <> 0%Z ->
    num_sites (make_supercell st S) = (Z.abs_nat (det3 S) * num_sites st)%nat;
  length_cart_coords : forall st, length (cart_coords st) = num_sites st
}.

(** A small instance of the service, showing that its three facts can be
    met together.  A structure is its lattice and its cartesian rows; the
    images of a site in a supercell are laid out along the first lattice
    vector (the crystal library spreads them over the whole supercell, which
    no property below depends on). *)
Module RefService.

Definition to_rows (S : IMat3) : Mat :=
  let '((s00, s01, s02), (s10, s11, s12), (s20, s21, s22)) := S in
  [[IZR s00; IZR s01; IZR s02]; [IZR s10; IZR s11; IZR s12];
   [IZR s20; IZR s21; IZR s22]].

Definition images (L : Mat) (n : nat) (c : list R) : Mat :=
  map (fun k => vec_add c (vec_scale (INR k) (nth 0%nat L []))) (seq 0 n).

Definition supercell (st : Mat * Mat) (S : IMat3) : Mat * Mat :=
  (mat_mul 3 (to_rows S) (fst st),
   flat_map (images (fst st) (Z.abs_nat (det3 S))) (snd st)).

Definition build (L : Mat) (sp : list string) (cs : Mat) (cart : bool)
  : Mat * Mat :=
  (L, if cart then cs else mat_mul 3 cs L).

#[refine] Instance service : StructureService := {|
  pmg := Mat * Mat;
  pmg_struct := build;
  make_supercell := supercell;
  num_sites := fun st => length (snd st);
  cart_coords := snd;
  lattice_matrix := fst
|}.
Proof.
  - intros L sp cs [|]; simpl; [reflexivity|].
    unfold mat_mul. now rewrite length_map.
  - intros st S _. simpl.
    generalize (Z.abs_nat (det3 S)) as n. intros n.
    induction (snd st) as [|c cs IH]; simpl; [lia|].
    rewrite length_app, IH. unfold images. rewrite length_map, length_seq. lia.
  - reflexivity.
Defined.

End RefService.

(** ** Double-precision arithmetic

    Floats are idealised as real numbers throughout, with one exception:
    the twist angle that [CommensuStruct.make_structure] stores, since what
    can be said of it depends on the last digits of a double (for
    [(m,n) = (1,0)] the value stored is [60.00000000000001], not [60]).
    That value is computed through the three operations of the interface
    below, which says of them what IEEE 754 binary64 and NumPy guarantee:
    rounding to nearest is monotone, leaves a double as it is, and is off
    by at most [2^-53] of the result (plus [2^-1075] where the result is
    subnormal); [np.arccos] is within four units in the last place, which
    covers the C library's [acos] (within one) and NumPy's vectorised
    loops; and [np.pi] is the double nearest to π. *)

(** The unit roundoff of binary64, half its smallest positive number, and a
    magnitude below which no rounding overflows. *)
Definition fl_eps : R := / 2 ^ 53.
Definition fl_eta : R := / 2 ^ 1075.
Definition fl_max : R := 2 ^ 1023.

Class FloatService : Type := {
  (** the double nearest to a real result *)
  fl_round : R -> R;
  (** [np.arccos] *)
  np_arccos : R -> R;
  (** [np.pi] *)
  np_pi : R;
  fl_round_mono : forall x y, x <= y -> fl_round x <= fl_round y;
  fl_round_double : forall k e : Z,
    (Z.abs k < 2 ^ 53)%Z -> (-1074 <= e <= 971)%Z ->
    fl_round (IZR k * powerRZ 2 e) = IZR k * powerRZ 2 e;
  fl_round_error : forall x,
    Rabs x <= fl_max -> Rabs (fl_round x - x) <= fl_eps * Rabs x + fl_eta;
  np_arccos_error : forall x,
    -1 <= x <= 1 -> Rabs (np_arccos x - acos x) <= 8 * fl_eps * acos x;
  np_pi_error : Rabs (np_pi - PI) <= fl_eps * PI
}.

(** Two instances of the interface, showing that its laws can be met
    together and that they do not fix the last digit: exact arithmetic, and
    exact arithmetic with an [np.pi] that lies below π by [π·2^-54], less
    than half a unit in the last place. *)
Module RefFloat.

#[refine] Instance service : FloatService := {|
  fl_round := fun x => x;
  np_arccos := acos;
  np_pi := PI
|}.
Proof.
  - intros x y Hxy. exact Hxy.
  - reflexivity.
  - intros x _. unfold Rminus. rewrite Rplus_opp_r, Rabs_R0.
    pose proof (Rabs_pos x). unfold fl_eps, fl_eta. nra.
  - intros x _. unfold Rminus. rewrite Rplus_opp_r, Rabs_R0.
    pose proof (acos_bound x). unfold fl_eps. nra.
  - unfold Rminus. rewrite Rplus_opp_r, Rabs_R0.
    pose proof PI_RGT_0. unfold fl_eps. nra.
Defined.

#[refine] Instance low_pi : FloatService := {|
  fl_round := fun x => x;
  np_arccos := acos;
  np_pi := PI * (1 - fl_eps / 2)
|}.
Proof.
  - intros x y Hxy. exact Hxy.
  - reflexivity.
  - intros x _. unfold Rminus. rewrite Rplus_opp_r, Rabs_R0.
    pose proof (Rabs_pos x). unfold fl_eps, fl_eta. nra.
  - intros x _. unfold Rminus. rewrite Rplus_opp_r, Rabs_R0.
    pose proof (acos_bound x). unfold fl_eps. nra.
  - replace (PI * (1 - fl_eps / 2) - PI) with (- (PI * (fl_eps / 2))) by ring.
    rewrite Rabs_Ropp. pose proof PI_RGT_0 as HPI.
    assert (Hu : 0 < fl_eps) by (unfold fl_eps; lra).
    rewrite Rabs_pos_eq by nra. nra.
Defined.

End RefFloat.

(** ** The lattice builders *)

Definition init_inst (a0 h0 : R) (rc : option string) : Inst :=
  mkInst a0 h0 rc None None None None None None None None None None.

(** Python float division [x / y]. *)
Definition py_fdiv (x y : R) : E R :=
  if Req_dec_T y 0 then inl ZeroDivisionError else inr (x / y).

(** The hexagonal lattice vectors of the bottom layer, shared by
    [CommensuStruct] and [TBG30Approximant]. *)
Definition hex_bott (a0 : R) : E Mat :=
  c ← py_fdiv 100 a0;
  mret (mat_scale a0 [[sqrt 3 / 2; - (1 / 2); 0]; [sqrt 3 / 2; 1 / 2; 0]; [0; 0; c]]).

(** The two fractional sites of a layer at height [z], by rotation centre;
    [None] when [rotate_cent] is neither ['atom'] nor ['hole'], in which case
    the source leaves [sites_bott] unbound. *)
Definition sublatt_sites (rc : string) (z : R) : option (list R * list R) :=
  if String.eqb rc "atom" then Some ([0; 0; z], [1/3; 1/3; z])
  else if String.eqb rc "hole" then Some ([1/3; 1/3; z], [2/3; 2/3; z])
  else None.

Definition supercell_bott_mn (m n : Z) : IMat3 :=
  (((m + n)%Z, (- n)%Z, 0%Z), (n, m, 0%Z), (0%Z, 0%Z, 1%Z)).
Definition supercell_top_mn (m n : Z) : IMat3 :=
  (((m + n)%Z, (- m)%Z, 0%Z), (m, n, 0%Z), (0%Z, 0%Z, 1%Z)).

(** The argument of [np.arccos] in [make_structure],
    [0.5*(m**2+4*m*n+n**2)/(n**2+m*n+m**2)], before it is rounded.  The two
    integers and the product with [0.5] are exact as doubles (up to [2^53],
    far beyond any structure that can be built), so that one rounding, of
    the quotient, gives the double that [np.arccos] receives. *)
Definition twist_arg (m n : Z) : R :=
  0.5 * IZR (m^2 + 4*m*n + n^2) / IZR (n^2 + m*n + m^2).

(** [np.arccos(0.5*(m**2+4*m*n+n**2)/(n**2+m*n+m**2))*180/np.pi] as doubles
    compute it: the quotient is rounded, [np.arccos] is applied, the
    product with [180] is rounded, and so is the quotient by [np.pi]. *)
Definition twist_angle_mn `{FS : FloatService} (m n : Z) : R :=
  fl_round (fl_round (np_arccos (fl_round (twist_arg m n)) * 180) / np_pi).

(** [int(round(np.sqrt(3)*n_bottom))] *)
Definition n_top_of (n_bottom : Z) : Z := py_round (sqrt 3 * IZR n_bottom).

Definition supercell_bott_30 (n_bottom : Z) : IMat3 :=
  ((n_bottom, n_bottom, 0%Z), ((- n_bottom)%Z, (2 * n_bottom)%Z, 0%Z),
   (0%Z, 0%Z, 1%Z)).
Definition supercell_top_30 (n_top : Z) : IMat3 :=
  ((n_top, 0%Z, 0%Z), (0%Z, n_top, 0%Z), (0%Z, 0%Z, 1%Z)).

(** [np.append(A, B, axis=1)]: the rows of [B] appended to those of [A]. *)
Definition np_append_cols (A B : Mat) : E Mat :=
  if Nat.eqb (length A) (length B) then inr (zip_with app A B)
  else inl (ValueError "all the input array dimensions except for the concatenation axis must match exactly").

Section Builders.

Context `{SS : StructureService} `{FS : FloatService}.

(** [tBG.utils.frac2cart], which is not part of the file: fractional rows
    and lattice vectors to cartesian rows. *)
Variable frac2cart : Mat -> Mat -> Mat.

(** *** CommensuStruct *)

Definition CommensuStruct_init (a0 h0 : R) (rc : string) : Inst :=
  init_inst a0 h0 (Some rc).

Definition rotate_mat_mn (m n : Z) : E Mat :=
  let d := (2 * (n^2 + m^2 + m*n))%Z in
  if (d =? 0)%Z then inl ZeroDivisionError
  else
    let c := IZR (n^2 + m^2 + 4*m*n) / IZR d in
    let s := sqrt 3 * IZR (m^2 - n^2) / IZR d in
    inr [[c; - s; 0]; [s; c; 0]; [0; 0; 1]].

Definition CommensuStruct_pmg_sublatts_prim (m n : Z)
  : M (pmg * pmg * pmg * pmg) :=
  a0 ← read a;
  h0 ← read h;
  lvb ← lift (fun _ => hex_bott a0);
  rot ← lift (fun _ => rotate_mat_mn m n);
  let lvt := mat_T 3 (mat_mul 3 rot (mat_T 3 lvb)) in
  rc ← attr "rotate_cent" rotate_cent;
  sb ← orraise (UnboundLocalError "sites_bott") (sublatt_sites rc 0);
  st ← orraise (UnboundLocalError "sites_top") (sublatt_sites rc (h0 / 100));
  let latt_bott_0 := pmg_struct lvb ["C"] [fst sb] false in
  let latt_bott_1 := pmg_struct lvb ["C"] [snd sb] false in
  let latt_top_0 := pmg_struct lvt ["C"] [fst st] false in
  let latt_top_1 := pmg_struct lvt ["C"] [snd st] false in
  assign (set_latt_vec_bott lvb);;
  assign (set_latt_vec_top lvt);;
  mret (latt_bott_0, latt_bott_1, latt_top_0, latt_top_1).

(** The part of [make_structure] that the two moiré builders share: from
    the four supercells to the attributes of the instance. *)
Definition merge_sublatts (b0 b1 t0 t1 : pmg) : M unit :=
  let nb0 := Z.of_nat (num_sites b0) in
  let nb1 := Z.of_nat (num_sites b1) in
  let nt0 := Z.of_nat (num_sites t0) in
  let nt1 := Z.of_nat (num_sites t1) in
  assign (set_layer_nsites [(nb0 + nb1)%Z; (nt0 + nt1)%Z]);;
  assign (set_layer_nsites_sublatt [(nb0, nb1); (nt0, nt1)]);;
  assign (set_latt_vec (lattice_matrix b0));;
  assign (set_coords
            (cart_coords b0 ++ cart_coords b1 ++ cart_coords t0 ++ cart_coords t1));;
  lvb ← attr "latt_vec_bott" latt_vec_bott;
  lvt ← attr "latt_vec_top" latt_vec_top;
  assign (set_layer_latt_vecs [sub22 lvb; sub22 lvt]);;
  cs ← attr "coords" coords;
  assign (set_nsite (Z.of_nat (length cs))).

Definition CommensuStruct_make_structure (m n : Z) : M unit :=
  '(b0, b1, t0, t1) ← CommensuStruct_pmg_sublatts_prim m n;
  let b0 := make_supercell b0 (supercell_bott_mn m n) in
  let b1 := make_supercell b1 (supercell_bott_mn m n) in
  let t0 := make_supercell t0 (supercell_top_mn m n) in
  let t1 := make_supercell t1 (supercell_top_mn m n) in
  merge_sublatts b0 b1 t0 t1;;
  assign (set_twist_angle (twist_angle_mn m n)).

(** *** TBG30Approximant *)

(** The two errors of the admissibility checks. *)
Definition common_divisor_error : exn :=
  ValueError "n_bottom and n_top share common dividor!".
Definition times_of_3_error : exn := ValueError "n_top is times of 3!".

Definition TBG30Approximant_init (a0 h0 : R) (rc : string) : Inst :=
  init_inst a0 h0 (Some rc).

Definition TBG30Approximant_pmg_sublatts_prim (a_top : R)
  : M (pmg * pmg * pmg * pmg) :=
  a0 ← read a;
  lvb ← lift (fun _ => hex_bott a0);
  assign (set_latt_vec_bott lvb);;
  let lvt := mat_scale a_top
               [[1; 0; 0]; [1 / 2; sqrt 3 / 2; 0]; [0; 0; 100 / a_top]] in
  assign (set_latt_vec_top lvt);;
  rc ← attr "rotate_cent" rotate_cent;
  h0 ← read h;
  sb ← orraise (UnboundLocalError "sites_bott") (sublatt_sites rc 0);
  st ← orraise (UnboundLocalError "sites_top") (sublatt_sites rc (h0 / 100));
  mret (pmg_struct lvb ["C"] [fst sb] false,
        pmg_struct lvb ["C"] [snd sb] false,
        pmg_struct lvt ["C"] [fst st] false,
        pmg_struct lvt ["C"] [snd st] false).

Definition TBG30Approximant_make_structure (n_bottom : Z) : M unit :=
  a0 ← read a;
  let b := a0 / sqrt 3 in
  let n_top := n_top_of n_bottom in
  let a_top := 3 * b * IZR n_bottom / IZR n_top in
  if negb (Z.gcd n_bottom n_top =? 1)%Z then raise common_divisor_error
  else if (n_top mod 3 =? 0)%Z then raise times_of_3_error
  else
    '(b0, b1, t0, t1) ← TBG30Approximant_pmg_sublatts_prim a_top;
    let b0 := make_supercell b0 (supercell_bott_30 n_bottom) in
    let b1 := make_supercell b1 (supercell_bott_30 n_bottom) in
    let t0 := make_supercell t0 (supercell_top_30 n_top) in
    let t1 := make_supercell t1 (supercell_top_30 n_top) in
    merge_sublatts b0 b1 t0 t1.

(** *** Graphene *)

Definition Graphene_init_body : M unit :=
  a0 ← read a;
  c ← lift (fun _ => py_fdiv 100 a0);
  let lv := mat_scale a0 [[1; 0; 0]; [cos (PI / 3); sin (PI / 3); 0]; [0; 0; c]] in
  assign (set_latt_vec lv);;
  assign (set_latt_vec_bott (mat_scale a0 [[1; 0]; [cos (PI / 3); sin (PI / 3)]]));;
  let coords_frac := [[1/3; 1/3]; [2/3; 2/3]] in
  let coords_cart := frac2cart coords_frac (sub22 lv) in
  cs ← lift (fun _ => np_append_cols coords_cart [[0]; [0]]);
  assign (set_coords cs);;
  assign (set_layer_nsites [2%Z]);;
  assign (set_layer_nsites_sublatt [(1%Z, 1%Z)]);;
  assign (set_layer_latt_vecs [lv]);;
  assign (set_nsite 2%Z).

(** [Graphene(a, h)]: the constructor run on a fresh object. *)
Definition Graphene_init (a0 h0 : R) : (exn + unit) * Inst :=
  Graphene_init_body (init_inst a0 h0 None).

End Builders.

(** ** Layer bookkeeping ([_LayeredStructMethods]) *)

(** [layer in ['A','B']] and [layer in ['Atld','Btld']] *)
Definition is_bott_tag (layer : string) : bool :=
  String.eqb layer "A" || String.eqb layer "B".
Definition is_top_tag (layer : string) : bool :=
  String.eqb layer "Atld" || String.eqb layer "Btld".

(** [xy + 1/3*(latt[0]+latt[1])], the shift broadcast over the rows *)
Definition shift_rows (xy : Mat) (latt : Mat) : E Mat :=
  r0 ← eorraise IndexError (latt !! 0%nat);
  r1 ← eorraise IndexError (latt !! 1%nat);
  mret (map (fun r => vec_add r (vec_scale (1 / 3) (vec_add r0 r1))) xy).

(** The inner [_coords_xy]: [inr None] is Python's [None], returned when the
    tag is none of the four. *)
Definition coords_xy (layer : string) (s : Inst) : E (option Mat) :=
  if is_bott_tag layer then
    lns ← eattr "layer_nsites" (layer_nsites s);
    nsite_bott ← eorraise IndexError (py_index lns 0);
    lvb ← eattr "latt_vec_bott" (latt_vec_bott s);
    cs ← eattr "coords" (coords s);
    let xy := map (take 2) (py_slice cs 0 nsite_bott) in
    if String.eqb layer "A" then mret (Some xy)
    else Some <$> shift_rows xy (sub22 lvb)
  else if is_top_tag layer then
    lns ← eattr "layer_nsites" (layer_nsites s);
    nsite_bott ← eorraise IndexError (py_index lns 0);
    nsite_top ← eorraise IndexError (py_index lns 1);
    lvt ← eattr "latt_vec_top" (latt_vec_top s);
    cs ← eattr "coords" (coords s);
    let xy := map (take 2) (py_slice cs nsite_bott (nsite_bott + nsite_top)) in
    if String.eqb layer "Atld" then mret (Some xy)
    else Some <$> shift_rows xy (sub22 lvt)
  else mret None.

(** The inner [nsites_sublatt] and [latt_vec]. *)
Definition nsites_sublatt (layer : string) (s : Inst) : E (option (Z * Z)) :=
  if is_bott_tag layer then
    l ← eattr "layer_nsites_sublatt" (layer_nsites_sublatt s);
    Some <$> eorraise IndexError (py_index l 0)
  else if is_top_tag layer then
    l ← eattr "layer_nsites_sublatt" (layer_nsites_sublatt s);
    Some <$> eorraise IndexError (py_index l 1)
  else mret None.

Definition layer_latt_vec (layer : string) (s : Inst) : E (option Mat) :=
  if is_bott_tag layer then
    l ← eattr "layer_latt_vecs" (layer_latt_vecs s);
    Some <$> eorraise IndexError (py_index l 0)
  else if is_top_tag layer then
    l ← eattr "layer_latt_vecs" (layer_latt_vecs s);
    Some <$> eorraise IndexError (py_index l 1)
  else mret None.

(** One pass of the inner loop: a copy of [coord_xy] at height [h*i]. *)
Definition append_one (layer : string) (coord_xy : Mat) (i : Z) : M unit :=
  h0 ← read h;
  let z := h0 * IZR i in
  let nsite := length coord_xy in
  (** [np.concatenate((coord_xy, [[z]]*nsite), axis=1)]: with no rows the
      second operand is a one-dimensional empty array, which is refused. *)
  (if Nat.eqb nsite 0
   then raise (ValueError "all the input arrays must have same number of dimensions")
   else mret tt);;
  let coord := map (fun r => r ++ [z]) coord_xy in
  cs ← attr "coords" coords;
  assign (set_coords (cs ++ coord));;
  lns ← attr "layer_nsites" layer_nsites;
  assign (set_layer_nsites (lns ++ [Z.of_nat nsite]));;
  sub ← lift (nsites_sublatt layer);
  sub ← orraise TypeError sub;
  subl ← attr "layer_nsites_sublatt" layer_nsites_sublatt;
  assign (set_layer_nsites_sublatt (subl ++ [sub]));;
  lv ← lift (layer_latt_vec layer);
  lv ← orraise TypeError lv;
  llv ← attr "layer_latt_vecs" layer_latt_vecs;
  assign (set_layer_latt_vecs (llv ++ [lv])).

(** The body of the outer loop: one tag with its list of heights.
    [len(coord_xy)] is a [TypeError] when [_coords_xy] returned [None]. *)
Definition append_tag (item : string * list Z) : M unit :=
  let '(layer, heights) := item in
  coord_xy ← lift (coords_xy layer);
  coord_xy ← orraise TypeError coord_xy;
  for_each heights (append_one layer coord_xy).

(** [append_layers(layers)]; the dict [layers] is given by its items, in
    insertion order. *)
Definition append_layers (layers : list (string * list Z)) : M unit :=
  for_each layers append_tag;;
  cs ← attr "coords" coords;
  assign (set_nsite (Z.of_nat (length cs))).

(** [_layer_inds]: first and last site index of every layer. *)
Definition layer_inds (s : Inst) : E (list (Z * Z)) :=
  lns ← eattr "layer_nsites" (layer_nsites s);
  mret (imap (fun i n =>
                let ind0 := py_sum (take i lns) in
                (ind0, (ind0 + n - 1)%Z)) lns).

(** [np.sum(M, axis=0)] *)
Definition sum_axis0 (M : Mat) : list R :=
  match M with
  | [] => []
  | r :: rs => foldl vec_add r rs
  end.

(** [get_vecs_to_NNs]: per layer, the vector to a nearest neighbour and its
    opposite. *)
Definition get_vecs_to_NNs (s : Inst) : E (list Mat) :=
  lns ← eattr "layer_nsites" (layer_nsites s);
  llv ← eattr "layer_latt_vecs" (layer_latt_vecs s);
  vecs ← eorraise IndexError
           (mapM (fun i => (fun lv => vec_scale (/ 3) (sum_axis0 lv)) <$> llv !! i)
                 (seq 0 (length lns)));
  mret (map (fun v => [v; vec_scale (-1) v]) vecs).

(** [species]: 1 for the first sublattice of a layer, 2 for the second. *)
Definition species (s : Inst) : E (list Z) :=
  subl ← eattr "layer_nsites_sublatt" (layer_nsites_sublatt s);
  match subl with
  | [] => inl (ValueError "need at least one array to concatenate")
  | _ => mret (flat_map (fun '(n_s0, n_s1) =>
                           py_repeat 1%Z n_s0 ++ py_repeat 2%Z n_s1) subl)
  end.

(** [pymatgen_struct] *)
Definition pymatgen_struct `{SS : StructureService} (s : Inst) : E pmg :=
  lv ← eattr "latt_vec" (latt_vec s);
  cs ← eattr "coords" (coords s);
  mret (pmg_struct lv (replicate (length cs) "C") cs true).

(** [_layer_inds_sublatt]: for every layer, the index range of its first
    sublattice and the one of its second sublattice. *)
Definition layer_inds_sublatt (s : Inst) : E (list ((Z * Z) * (Z * Z))) :=
  linds ← layer_inds s;
  subl ← eattr "layer_nsites_sublatt" (layer_nsites_sublatt s);
  eorraise IndexError
    (mapM (fun i =>
             li ← linds !! i;
             p ← subl !! i;
             Some ((fst li, (fst li + fst p - 1)%Z),
                   ((fst li + fst p)%Z, snd li)))
          (seq 0 (length linds))).

(** ** Hoppings and the Bloch Hamiltonian ([_MoirePatternMethods]) *)

(** A dense complex matrix, as a list of rows. *)
Abbreviation CMat := (list (list C)).

(** [Hk[i,j]] and [Hk[i,j] = v] for indices in range. *)
Definition mget (Hk : CMat) (i j : nat) : option C := Hk !! i ≫= (.!! j).
Definition mset (Hk : CMat) (i j : nat) (v : C) : CMat :=
  alter (fun row => <[j := v]> row) i Hk.

(** A NumPy index into an axis of length [n]: negative values count from the
    end, and anything outside [-n, n) is an [IndexError]. *)
Definition np_index (n : nat) (j : Z) : E nat :=
  if (0 <=? j)%Z && (j <? Z.of_nat n)%Z then inr (Z.to_nat j)
  else if (j <? 0)%Z && (- Z.of_nat n <=? j)%Z then inr (Z.to_nat (Z.of_nat n + j))
  else inl IndexError.

(** [np.zeros((n, n), dtype=complex)] *)
Definition zeros (n : nat) : CMat := replicate n (replicate n C0).

(** [np.fill_diagonal(Hk, vals)] for a non-empty array of values, which is
    repeated when it is shorter than the diagonal. *)
Definition fill_diagonal (Hk : CMat) (vals : list R) : CMat :=
  imap (fun i row =>
          match vals !! (i mod length vals)%nat with
          | Some v => <[i := RtoC v]> row
          | None => row
          end) Hk.

(** [coords[:,-1]*elec_field] *)
Definition field_diagonal (cs : Mat) (elec_field : R) : E (list R) :=
  eorraise IndexError
    (mapM (fun row => (fun z => z * elec_field) <$> last row) cs).

(** [np.exp(1j*np.dot(k, R))] for [R = m*a1 + n*a2]. *)
Definition bloch_phase (a1 a2 k : list R) (m n : Z) : C :=
  let Rv := vec_add (vec_scale (IZR m) a1) (vec_scale (IZR n) a2) in
  Cexp_i (vec_dot k Rv).

(** One hopping entry [(m,n,j) ↦ t] of home site [i] added to [Hk]. *)
Definition add_hop (lv : Mat) (k : list R) (i : nat) (Hk : CMat)
    (entry : key3 * C) : E CMat :=
  let '((m, n, j), t) := entry in
  a1 ← eorraise IndexError (lv !! 0%nat);
  a2 ← eorraise IndexError (lv !! 1%nat);
  let phase := bloch_phase a1 a2 k m n in
  j ← np_index (length Hk) j;
  hij ← eorraise IndexError (mget Hk i j);
  let Hk := mset Hk i j (Cadd hij (Cmul t phase)) in
  hji ← eorraise IndexError (mget Hk j i);
  mret (mset Hk j i (Cadd hji (Cmul t (Cconj phase)))).

(** Folding a fallible step over a list, left to right. *)
Fixpoint efold {A B} (f : B -> A -> E B) (acc : B) (l : list A) : E B :=
  match l with
  | [] => inr acc
  | x :: l' => acc' ← f acc x; efold f acc' l'
  end.

(** [hamilt_cell_diff(k, elec_field)].  The entries of a site's dict are
    visited in the order of [map_to_list]; in exact arithmetic the sum does
    not depend on that order. *)
Definition hamilt_cell_diff (s : Inst) (k : list R) (elec_field : R) : E CMat :=
  nsite ← eattr "nsite" (nsite s);
  (if (nsite <? 0)%Z then inl (ValueError "negative dimensions are not allowed")
   else mret tt);;
  let N := Z.to_nat nsite in
  let Hk := zeros N in
  Hk ← (if Req_dec_T elec_field 0 then mret Hk
        else
          cs ← eattr "coords" (coords s);
          vals ← field_diagonal cs elec_field;
          match vals, N with
          | [], S _ => inl (ValueError "cannot copy sequence with size 0 to array axis")
          | _, _ => mret (fill_diagonal Hk vals)
          end);
  lv ← eattr "latt_vec" (latt_vec s);
  let lv := sub22 lv in
  efold (fun Hk i =>
           hop ← eattr "hoppings" (hoppings s);
           hi ← eorraise IndexError (hop !! i);
           efold (add_hop lv k i) Hk (map_to_list hi))
        Hk (py_range nsite).

(** [hoppings_2to3]: every key [(m,n,j)] becomes [(m,n,0,j)]. *)
Definition rekey (j : key3) : key4 :=
  let '(m, n, t) := j in (m, n, 0%Z, t).

Definition hoppings_2to3 (s : Inst) : E (list (gmap key4 C)) :=
  nsite ← eattr "nsite" (nsite s);
  efold (fun acc i =>
           hop ← eattr "hoppings" (hoppings s);
           hi ← eorraise IndexError (hop !! i);
           mret (acc ++ [kmap rekey hi]))
        [] (py_range nsite).

Section Solvers.

Context `{SS : StructureService}.

(** [tBG.hopping.calc_hopping_wannier_PBC], which is not part of the file:
    structure, layer index ranges, nearest-neighbour vectors, largest
    lattice constant, [max_dist], [P], [ts] and [a]. *)
Variable calc_hopping_wannier_PBC :
  pmg -> list (Z * Z) -> list Mat -> R -> R -> Z -> list R -> R ->
  E (list (gmap key3 C)).

(** LAPACK's [zheev]: eigenvalues, eigenvectors and status of a matrix;
    the second argument says whether eigenvectors are wanted. *)
Variable zheev : CMat -> Z -> list R * CMat * Z.

(** [tBG.fortran.spec_func.get_pk]: the spectral weights. *)
Variable get_pk :
  list R -> list R -> list Z -> Z -> Z -> CMat -> Mat -> list Z -> list R.

Definition capability_error : exn :=
  ValueError "Current version can not be used for nlayer>2".

(** [max(np.linalg.norm(latt_vec_bott, axis=1)[0:2])] *)
Definition latt_cont_max (lvb : Mat) : E R :=
  match take 2 (map vec_norm lvb) with
  | [] => inl (ValueError "max() arg is an empty sequence")
  | x :: l => mret (foldl Rmax x l)
  end.

(** What [add_hopping_wannier] does once the number of layers is accepted. *)
Definition wannier_assemble (max_dist : R) (P : Z) (ts : list R) : M unit :=
  pmg_st ← lift pymatgen_struct;
  linds ← lift layer_inds;
  layer_vec_to_NN ← lift get_vecs_to_NNs;
  lvb ← attr "latt_vec_bott" latt_vec_bott;
  lcm ← lift (fun _ => latt_cont_max lvb);
  a0 ← read a;
  hop ← lift (fun _ => calc_hopping_wannier_PBC pmg_st linds layer_vec_to_NN
                          lcm max_dist P ts a0);
  assign (set_hoppings hop).

Definition add_hopping_wannier (max_dist : R) (P : Z) (ts : list R) : M unit :=
  lns ← attr "layer_nsites" layer_nsites;
  if (2 <? length lns)%nat then raise capability_error
  else wannier_assemble max_dist P ts.

(** [vec_calc]: eigenvectors are computed when [vec] or [pmk] asks. *)
Definition vec_calc_of (vec pmk : bool) : Z := if vec || pmk then 1%Z else 0%Z.

(** What [diag_kpts] does that its caller can observe besides its result. *)
Inductive event : Type :=
| Printed (line : string)
| ZheevCalled (Hk : CMat) (vec_calc : Z).

(** ['%s/%s k' % (i, len(kpts))] *)
Definition progress_line (i : Z) (n : nat) : string :=
  pretty i +:+ "/" +:+ pretty n +:+ " k".

Definition zheev_error : exn := ValueError "zheev failed".

Record diag_acc : Type := mkAcc {
  val_out : list (list R);
  vec_out : list CMat;
  pmk_out : list (list R);
  counter : Z;
  trace : list event
}.

(** The body of the loop over [kpts].  It returns the accumulator also when
    it raises, so that what was printed up to the error is kept. *)
Definition diag_step (s : Inst) (nk : nat) (vec pmk : bool) (elec_field : R)
    (acc : diag_acc) (k : list R) : (exn + unit) * diag_acc :=
  let vec_calc := vec_calc_of vec pmk in
  let tr := trace acc ++ [Printed (progress_line (counter acc) nk)] in
  let acc := mkAcc (val_out acc) (vec_out acc) (pmk_out acc) (counter acc) tr in
  match hamilt_cell_diff s k elec_field with
  | inl e => (inl e, acc)
  | inr Hk =>
    let '(vals, vecs, info) := zheev Hk vec_calc in
    let acc := mkAcc (val_out acc) (vec_out acc) (pmk_out acc) (counter acc)
                 (tr ++ [ZheevCalled Hk vec_calc]) in
    if negb (info =? 0)%Z then (inl zheev_error, acc)
    else
      let pk :=
        if pmk then
          lns ← eattr "layer_nsites" (layer_nsites s);
          cs ← eattr "coords" (coords s);
          sp ← species s;
          mret (Some (get_pk k (map (fun n => IZR n / 2) lns) [1%Z; 1%Z]
                        2%Z 2%Z vecs cs sp))
        else mret None in
      match pk with
      | inl e => (inl e, acc)
      | inr pk =>
        (inr tt,
         mkAcc (val_out acc ++ [vals])
               (if vec then vec_out acc ++ [vecs] else vec_out acc)
               (match pk with Some p => pmk_out acc ++ [p] | None => pmk_out acc end)
               (counter acc + 1)%Z
               (trace acc))
      end
  end.

Fixpoint diag_loop (s : Inst) (nk : nat) (vec pmk : bool) (elec_field : R)
    (acc : diag_acc) (kpts : list (list R)) : (exn + unit) * diag_acc :=
  match kpts with
  | [] => (inr tt, acc)
  | k :: kpts' =>
    match diag_step s nk vec pmk elec_field acc k with
    | (inl e, acc') => (inl e, acc')
    | (inr _, acc') => diag_loop s nk vec pmk elec_field acc' kpts'
    end
  end.

(** [diag_kpts(kpts, vec, pmk, elec_field)]: the result (or the exception)
    and the events in the order they happened. *)
Definition diag_kpts (s : Inst) (kpts : list (list R)) (vec pmk : bool)
    (elec_field : R)
  : E (list (list R) * list CMat * list (list R)) * list event :=
  match diag_loop s (length kpts) vec pmk elec_field (mkAcc [] [] [] 1%Z []) kpts with
  | (inl e, acc) => (inl e, trace acc)
  | (inr _, acc) => (inr (val_out acc, vec_out acc, pmk_out acc), trace acc)
  end.

End Solvers.

Section PzModel.

Context `{SS : StructureService}.

(** [tBG.hopping.calc_hopping_pz_PBC], which is not part of the file:
    structure, [Rcut_intra], [Rcut_inter], [g0], [a0], [g1], [h0], [rc],
    [lc], [q_dist_scale] and the layer index ranges. *)
Variable calc_hopping_pz_PBC :
  pmg -> R -> R -> R -> R -> R -> R -> R -> R -> R -> list (Z * Z) ->
  E (list (gmap key3 C)).

(** [add_hopping_pz]: the bond length [a0 = a/√3] and the interlayer
    distance [h0 = h] go to the calculator with the layer index ranges. *)
Definition add_hopping_pz (Rcut_intra Rcut_inter g0 g1 rc lc q_dist_scale : R)
  : M unit :=
  pmg_st ← lift pymatgen_struct;
  a ← read a;
  let a0 := a / sqrt 3 in
  h0 ← read h;
  linds ← lift layer_inds;
  hop ← lift (fun _ => calc_hopping_pz_PBC pmg_st Rcut_intra Rcut_inter g0 a0
                          g1 h0 rc lc q_dist_scale linds);
  assign (set_hoppings hop).

End PzModel.

(** ** The tipsi sample ([siteset], [lattice], [pbc_func]) *)

(** Python's [x % y] on ints: the result has the sign of [y]. *)
Definition py_mod (x y : Z) : E Z :=
  if (y =? 0)%Z then inl ZeroDivisionError else inr (x mod y)%Z.

(** A site of a [tipsi.SiteSet]: unit cell coordinates and orbital index. *)
Definition site : Type := (Z * Z * Z) * Z.

(** [siteset(nsite, size)]: the [add_site] calls, in the order they are
    made. *)
Definition siteset (nsite : Z) (size : list Z) : E (list site) :=
  efold (fun acc k =>
           size0 ← eorraise IndexError (py_index size 0);
           efold (fun acc i =>
                    size1 ← eorraise IndexError (py_index size 1);
                    efold (fun acc j =>
                             mret (acc ++ [((Z.of_nat i, Z.of_nat j, 0%Z),
                                            Z.of_nat k)]))
                          acc (py_range size1))
                 acc (py_range size0))
        [] (py_range nsite).

(** [lattice(struct)]: the arguments handed to [tipsi.Lattice], lattice
    vectors first, both converted from ångström to nanometre. *)
Definition lattice (s : Inst) : E (Mat * Mat) :=
  cs ← eattr "coords" (coords s);
  let sites := map (map (fun x => x * 0.1)) cs in
  lv ← eattr "latt_vec" (latt_vec s);
  let lat_vecs := map (map (fun x => x * 0.1)) lv in
  mret (lat_vecs, sites).

(** The [pbc_func] that [sample] hands to tipsi: a unit cell outside the
    sample is brought back into it. *)
Definition pbc_func (size : list Z) (unit_cell_coords : Z * Z * Z)
    (orbital_ind : Z) : E site :=
  let '(x, y, z) := unit_cell_coords in
  size0 ← eorraise IndexError (py_index size 0);
  x' ← py_mod x size0;
  size1 ← eorraise IndexError (py_index size 1);
  y' ← py_mod y size1;
  mret ((x', y', z), orbital_ind).

(** ** Predicates of the statements *)

(** The twist angle of the specification,
    [arccos(½(m²+4mn+n²)/(n²+mn+m²))] in degrees, in exact arithmetic. *)
Definition twist_angle_exact (m n : Z) : R := acos (twist_arg m n) * 180 / PI.

(** The bookkeeping invariant: the per-layer counts sum to [nsite], which is
    the number of coordinate rows, and the two sublattice counts of a layer
    sum to the count of that layer. *)
Definition counts_inv (s : Inst) : Prop :=
  exists lns subl cs n,
    layer_nsites s = Some lns /\
    layer_nsites_sublatt s = Some subl /\
    coords s = Some cs /\
    nsite s = Some n /\
    py_sum lns = n /\
    n = Z.of_nat (length cs) /\
    Forall2 (fun c p => (fst p + snd p)%Z = c) lns subl.

(** The part of the bookkeeping invariant that holds between two statements
    of [append_layers], with the layer counts known to be non-negative
    (they are lengths). *)
Definition counts_ok (s : Inst) : Prop :=
  exists lns subl cs,
    layer_nsites s = Some lns /\
    layer_nsites_sublatt s = Some subl /\
    coords s = Some cs /\
    py_sum lns = Z.of_nat (length cs) /\
    Forall2 (fun c p => (fst p + snd p)%Z = c) lns subl /\
    Forall (fun c => (0 <= c)%Z) lns.

(** The invariant of the inner loop of [append_layers], for the tag and the
    in-plane rows that the outer loop fixed: the sublattice pair that
    [nsites_sublatt] finds for the tag sums to the number of rows. *)
Definition inner_inv (layer : string) (xy : Mat) (s : Inst) : Prop :=
  counts_ok s /\
  exists p, nsites_sublatt layer s = inr (Some p) /\
            (fst p + snd p)%Z = Z.of_nat (length xy).

(** Statements that leave [nsite] alone, however they end. *)
Definition keeps_nsite {A} (m : M A) : Prop :=
  forall s r s', m s = (r, s') -> nsite s' = nsite s.

Definition is_ValueError (e : exn) : Prop := exists msg, e = ValueError msg.

(** The admissibility test of [make_structure], on its own. *)
Definition inadmissible (n_bottom : Z) : Prop :=
  Z.gcd n_bottom (n_top_of n_bottom) <> 1%Z \/ (n_top_of n_bottom mod 3 = 0)%Z.

Section BuiltStructures.

Context `{SS : StructureService} `{FS : FloatService}.
Variable frac2cart : Mat -> Mat -> Mat.

(** The structures that the builders and [append_layers] produce: a
    structure is produced by a call that returns. *)
Inductive built : Inst -> Prop :=
| built_commensu s m n s' :
    CommensuStruct_make_structure m n s = (inr tt, s') -> built s'
| built_approximant s n_bottom s' :
    TBG30Approximant_make_structure n_bottom s = (inr tt, s') -> built s'
| built_graphene a0 h0 g :
    Graphene_init frac2cart a0 h0 = (inr tt, g) -> built g
| built_append s layers s' :
    built s -> append_layers layers s = (inr tt, s') -> built s'.

End BuiltStructures.






Definition is_zheev_call (e : event) : bool :=
  match e with ZheevCalled _ _ => true | Printed _ => false end.

(** How many times the eigensolver was called in a run. *)
Definition zheev_calls (tr : list event) : nat :=
  length (List.filter is_zheev_call tr).

(** The k-point goes through: the matrix is assembled, the eigensolver
    reports 0, and what [get_pk] needs is there when it is asked for. *)
Definition step_passes (zheev : CMat -> Z -> list R * CMat * Z) (s : Inst)
    (vec pmk : bool) (elec_field : R) (k : list R) : Prop :=
  exists Hk vals vecs,
    hamilt_cell_diff s k elec_field = inr Hk /\
    zheev Hk (vec_calc_of vec pmk) = (vals, vecs, 0%Z) /\
    (pmk = true ->
     is_Some (layer_nsites s) /\ is_Some (coords s) /\
     exists sp, species s = inr sp).

(** The eigensolver reports a nonzero status on the matrix of [k]. *)
Definition zheev_fails_on (zheev : CMat -> Z -> list R * CMat * Z) (s : Inst)
    (vec pmk : bool) (elec_field : R) (k : list R) (Hk : CMat) : Prop :=
  hamilt_cell_diff s k elec_field = inr Hk /\
  snd (zheev Hk (vec_calc_of vec pmk)) <> 0%Z.

(** What the builders and [append_layers] maintain besides the counts: one
    sublattice pair and one pair of lattice vectors per layer, at least one
    layer, no negative sublattice count, and the lattice vectors in place. *)
Definition layers_ok (s : Inst) : Prop :=
  exists lns subl llv,
    layer_nsites s = Some lns /\
    layer_nsites_sublatt s = Some subl /\
    layer_latt_vecs s = Some llv /\
    lns <> [] /\ length subl = length lns /\ length llv = length lns /\
    Forall (fun p => (0 <= fst p)%Z /\ (0 <= snd p)%Z) subl /\
    is_Some (latt_vec s) /\ is_Some (latt_vec_bott s).

(** The integer [k] lies in the closed range [r]. *)
Definition in_range (r : Z * Z) (k : Z) : Prop := (fst r <= k <= snd r)%Z.

(** [s'] is [s] with the rows [new] appended to [coords] and one entry per
    new layer appended to the three per-layer lists ([more] holds the new
    layer counts); every other attribute, [nsite] apart, is as in [s]. *)
Definition extends_by (s s' : Inst) (new : Mat) (more : list Z) : Prop :=
  coords s' = (fun cs => cs ++ new) <$> coords s /\
  layer_nsites s' = (fun l => l ++ more) <$> layer_nsites s /\
  (exists ms, layer_nsites_sublatt s' = (fun l => l ++ ms) <$> layer_nsites_sublatt s /\
              length ms = length more) /\
  (exists mv, layer_latt_vecs s' = (fun l => l ++ mv) <$> layer_latt_vecs s /\
              length mv = length more) /\
  a s' = a s /\ h s' = h s /\ rotate_cent s' = rotate_cent s /\
  latt_vec_bott s' = latt_vec_bott s /\ latt_vec_top s' = latt_vec_top s /\
  latt_vec s' = latt_vec s /\ twist_angle s' = twist_angle s /\
  hoppings s' = hoppings s.

(** The rows that [append_layers] adds for one tag: a copy of [xy] at every
    height [h0·i]. *)
Definition stacked_rows (h0 : R) (xy : Mat) (heights : list Z) : Mat :=
  flat_map (fun i => map (fun r => r ++ [h0 * IZR i]) xy) heights.

(** Statements whose run does not depend on [nsite] and does not write it. *)
Definition nsite_blind {A} (m : M A) : Prop :=
  forall v s, m (set_nsite v s) = (fst (m s), set_nsite v (snd (m s))).

(** What [diag_kpts] collects at a k-point that goes through: the
    eigenvalues and eigenvectors that the eigensolver returns for the matrix
    of [k], and the spectral weights of [get_pk] when [pmk] asks for them. *)
Definition solved_at (zheev : CMat -> Z -> list R * CMat * Z)
    (get_pk : list R -> list R -> list Z -> Z -> Z -> CMat -> Mat -> list Z -> list R)
    (s : Inst) (vec pmk : bool) (elec_field : R) (k : list R)
    (out : list R * CMat * list R) : Prop :=
  exists Hk vals vecs,
    hamilt_cell_diff s k elec_field = inr Hk /\
    zheev Hk (vec_calc_of vec pmk) = (vals, vecs, 0%Z) /\
    fst (fst out) = vals /\ snd (fst out) = vecs /\
    (pmk = true ->
     exists lns cs sp,
       layer_nsites s = Some lns /\ coords s = Some cs /\ species s = inr sp /\
       snd out = get_pk k (map (fun n => IZR n / 2) lns) [1%Z; 1%Z] 2%Z 2%Z
                   vecs cs sp).

(** ** Concrete inputs for the examples *)

(** A concrete [CommensuStruct] and a concrete [TBG30Approximant], with the
    default arguments of their constructors, for the examples below. *)
Definition commensu_default : Inst := CommensuStruct_init 2.46 3.35 "atom".
Definition tbg30_default : Inst := TBG30Approximant_init 2.46 3.349 "hole".

(** [frac2cart] as the product of fractional rows and lattice vectors. *)
Definition frac2cart_ref (f L : Mat) : Mat := mat_mul 2 f L.

(** The default coefficients of [add_hopping_wannier]. *)
Definition ts_default : list R :=
  [-2.8922; 0.2425; -0.2656; 0.0235; 0.0524; -0.0209; -0.0148; -0.0211].

(** A stand-in for the hopping calculator: no hopping at all, on two sites. *)
Definition calc_no_hopping :
  Mat * Mat -> list (Z * Z) -> list Mat -> R -> R -> Z -> list R -> R ->
  E (list (gmap key3 C)) :=
  fun _ _ _ _ _ _ _ _ => inr [∅; ∅].

(** A two-site table with one hopping, for the examples. *)
Definition two_site_table : list (gmap key3 C) :=
  [{[ (0%Z, 0%Z, 1%Z) := RtoC 1 ]}; ∅].

Definition two_site_inst : Inst :=
  mkInst 2.46 3.35 None None None (Some [2%Z]) (Some [(1%Z, 1%Z)])
    (Some [[1; 0; 0]; [0; 1; 0]; [0; 0; 1]])
    (Some [[0; 0; 0]; [1; 0; 0]]) None (Some 2%Z) None (Some two_site_table).


(** A one-site structure whose site hops onto its own image in the next
    cell, so that its 1×1 Bloch matrix is [2·cos(k·a1)]. *)
Definition one_site_inst : Inst :=
  mkInst 2.46 3.35 None None None (Some [1%Z]) (Some [(1%Z, 0%Z)])
    (Some [[1; 0; 0]; [0; 1; 0]; [0; 0; 1]])
    (Some [[0; 0; 0]]) None (Some 1%Z) None
    (Some [{[ (1%Z, 0%Z, 0%Z) := RtoC 1 ]}]).

(** An eigensolver that gives up on a matrix whose first entry has a
    negative real part, and a projection routine that returns nothing. *)
Definition zheev_sign (Hk : CMat) (vec_calc : Z) : list R * CMat * Z :=
  ([], [],
   match Hk with
   | (c :: _) :: _ => if Rlt_dec (Re c) 0 then 1%Z else 0%Z
   | _ => 0%Z
   end).

Definition get_pk_none (k nsites : list R) (w : list Z) (p q : Z) (vecs : CMat)
    (cs : Mat) (sp : list Z) : list R := [].

Definition one_site_entry (k : list R) : C :=
  Cadd (Cadd C0 (Cmul (RtoC 1) (bloch_phase [1; 0] [0; 1] k 1 0)))
       (Cmul (RtoC 1) (Cconj (bloch_phase [1; 0] [0; 1] k 1 0))).

(** A stand-in for the pz hopping calculator: no hopping at all, on six
    sites. *)
Definition calc_pz_no_hopping :
  Mat * Mat -> R -> R -> R -> R -> R -> R -> R -> R -> R -> list (Z * Z) ->
  E (list (gmap key3 C)) :=
  fun _ _ _ _ _ _ _ _ _ _ _ => inr (replicate 6 ∅).

(** A one-site structure on which no hopping model has been run. *)
Definition one_site_no_table : Inst :=
  mkInst 2.46 3.35 None None None (Some [1%Z]) (Some [(1%Z, 0%Z)])
    (Some [[1; 0; 0]; [0; 1; 0]; [0; 0; 1]])
    (Some [[0; 0; 0]]) None (Some 1%Z) None None.

(** * Properties *)

(** ** Complex conjugation *)









(** ** Running methods: inversion and evaluation *)

Lemma bind_inr {A B} (m : M A) (f : A -> M B) s y s' :
  (m ≫= f) s = (inr y, s') ->
  exists x s1, m s = (inr x, s1) /\ f x s1 = (inr y, s').
Proof.
  unfold mbind, M_bind, bind. destruct (m s) as [[e|x] s1]; [discriminate|].
  intros Hf. exists x, s1. split; [reflexivity | exact Hf].
Qed.

Lemma bind_run {A B} (m : M A) (f : A -> M B) s x s1 :
  m s = (inr x, s1) -> (m ≫= f) s = f x s1.
Proof. unfold mbind, M_bind, bind. intros ->. reflexivity. Qed.

Lemma bind_inl {A B} (m : M A) (f : A -> M B) s e s' :
  (m ≫= f) s = (inl e, s') ->
  m s = (inl e, s') \/ exists x s1, m s = (inr x, s1) /\ f x s1 = (inl e, s').
Proof.
  unfold mbind, M_bind, bind. destruct (m s) as [[e1|x] s1].
  - intros [= -> ->]. left; reflexivity.
  - intros Hf. right. exists x, s1. split; [reflexivity | exact Hf].
Qed.

Lemma attr_inr {A} name (proj : Inst -> option A) s x s' :
  attr name proj s = (inr x, s') -> proj s = Some x /\ s' = s.
Proof. unfold attr. destruct (proj s); intros [= <- <-]; auto. Qed.

Lemma orraise_inr {A} e (o : option A) s x s' :
  orraise e o s = (inr x, s') -> o = Some x /\ s' = s.
Proof. destruct o; intros [= <- <-]; auto. Qed.

Lemma lift_inr {A} (f : Inst -> E A) s x s' :
  lift f s = (inr x, s') -> f s = inr x /\ s' = s.
Proof. unfold lift. intros [= -> <-]; auto. Qed.


(** ** The twist angle *)

Section TwistAngle.

Context `{FS : FloatService}.

Lemma acos_half : acos (1 / 2) = PI / 3.
Proof.
  rewrite <- cos_PI3. apply acos_cos.
  pose proof PI_RGT_0. lra.
Qed.

(** The argument of [arccos], as a quotient of integers. *)
Lemma twist_arg_bounds (m n : Z) :
  (0 <= m)%Z -> (0 <= n)%Z -> (m, n) <> (0%Z, 0%Z) ->
  1 / 2 <= twist_arg m n <= 1.
Proof.
  intros Hm Hn Hne. unfold twist_arg.
  assert (HD : (0 < n^2 + m*n + m^2)%Z).
  { destruct (Z.eq_dec m 0%Z) as [->|Hm0].
    - assert (n <> 0%Z) by congruence. nia.
    - nia. }
  assert (HA1 : (n^2 + m*n + m^2 <= m^2 + 4*m*n + n^2)%Z) by nia.
  assert (HA2 : (m^2 + 4*m*n + n^2 <= 2 * (n^2 + m*n + m^2))%Z)
    by (pose proof (Z.square_nonneg (m - n)); nia).
  apply IZR_lt in HD. apply IZR_le in HA1, HA2.
  rewrite mult_IZR in HA2.
  set (A := IZR (m^2 + 4*m*n + n^2)) in *.
  set (D := IZR (n^2 + m*n + m^2)) in *.
  assert (Hq : 0.5 * A / D * D = 0.5 * A) by (field; lra).
  split; apply Rmult_le_reg_r with D; lra.
Qed.

Lemma twist_arg_sym (m n : Z) : twist_arg n m = twist_arg m n.
Proof.
  unfold twist_arg.
  replace (n^2 + 4*n*m + m^2)%Z with (m^2 + 4*m*n + n^2)%Z by ring.
  replace (m^2 + n*m + n^2)%Z with (n^2 + m*n + m^2)%Z by ring.
  reflexivity.
Qed.

Lemma acos_decr (x y : R) : -1 <= x -> x <= y -> y <= 1 -> acos y <= acos x.
Proof.
  intros Hx Hxy Hy.
  pose proof (acos_bound x) as [? ?]. pose proof (acos_bound y) as [? ?].
  apply cos_decr_0; try assumption.
  rewrite !cos_acos by lra. exact Hxy.
Qed.

Lemma acos_le_PI3 x : 1 / 2 <= x <= 1 -> 0 <= acos x <= PI / 3.
Proof.
  intros Hx. split; [apply acos_bound|].
  rewrite <- acos_half. apply acos_decr; lra.
Qed.

(** The specification's formula, in exact arithmetic. *)
Lemma twist_angle_exact_range (m n : Z) :
  (0 <= m)%Z -> (0 <= n)%Z -> (m, n) <> (0%Z, 0%Z) ->
  0 <= twist_angle_exact m n <= 60.
Proof.
  intros Hm Hn Hne. unfold twist_angle_exact.
  pose proof (acos_le_PI3 _ (twist_arg_bounds m n Hm Hn Hne)) as [H0 H1].
  pose proof PI_RGT_0 as HPI.
  set (t := acos _) in *.
  assert (Hq : t * 180 / PI * PI = t * 180) by (field; lra).
  split; apply Rmult_le_reg_r with PI; lra.
Qed.

(** *** What the laws of double-precision arithmetic give *)

Lemma fl_round_0 : fl_round 0 = 0.
Proof.
  pose proof (fl_round_double 0 0) as H. simpl in H.
  rewrite Rmult_0_l in H. apply H; lia.
Qed.

Lemma fl_round_1 : fl_round 1 = 1.
Proof.
  pose proof (fl_round_double 1 0) as H. simpl in H.
  rewrite Rmult_1_l in H. apply H; lia.
Qed.

Lemma fl_round_m1 : fl_round (-1) = -1.
Proof.
  pose proof (fl_round_double (-1) 0) as H. simpl in H.
  rewrite Rmult_1_r in H. apply H; lia.
Qed.

Lemma fl_round_half : fl_round (1 / 2) = 1 / 2.
Proof.
  pose proof (fl_round_double 1 (-1)) as H. simpl in H.
  replace (1 * / (2 * 1)) with (1 / 2) in H by lra.
  apply H; lia.
Qed.

Lemma Rabs_le_bounds (x y : R) : Rabs x <= y -> - y <= x <= y.
Proof. unfold Rabs. destruct (Rcase_abs x); lra. Qed.

Lemma fl_max_large : 2000 <= fl_max.
Proof. unfold fl_max. lra. Qed.

Lemma fl_eps_small : 0 < fl_eps <= 1.2e-16.
Proof. unfold fl_eps. lra. Qed.

Lemma fl_eta_small : 0 < fl_eta <= 1e-300.
Proof. unfold fl_eta. lra. Qed.

Lemma fl_round_nonneg x : 0 <= x -> 0 <= fl_round x.
Proof. intros Hx. rewrite <- fl_round_0. now apply fl_round_mono. Qed.

(** Rounding a result between 0 and 2000. *)
Lemma fl_round_near x :
  0 <= x <= 2000 ->
  x * (1 - fl_eps) - fl_eta <= fl_round x <= x * (1 + fl_eps) + fl_eta.
Proof.
  intros Hx. pose proof fl_max_large.
  pose proof (fl_round_error x) as He.
  rewrite (Rabs_pos_eq x) in He by lra.
  specialize (He ltac:(lra)).
  apply Rabs_le_bounds in He. lra.
Qed.

Lemma np_arccos_near x :
  -1 <= x <= 1 ->
  acos x * (1 - 8 * fl_eps) <= np_arccos x <= acos x * (1 + 8 * fl_eps).
Proof.
  intros Hx. pose proof (np_arccos_error x Hx) as He.
  apply Rabs_le_bounds in He. lra.
Qed.

Lemma np_arccos_nonneg x : -1 <= x <= 1 -> 0 <= np_arccos x.
Proof.
  intros Hx. pose proof (np_arccos_near x Hx) as [H _].
  pose proof (acos_bound x) as [Ha _]. pose proof fl_eps_small as Hu.
  assert (0 <= acos x * (1 - 8 * fl_eps)) by (apply Rmult_le_pos; lra).
  lra.
Qed.

Lemma np_pi_near : PI * (1 - fl_eps) <= np_pi <= PI * (1 + fl_eps).
Proof. pose proof np_pi_error as He. apply Rabs_le_bounds in He. lra. Qed.

Lemma PI_gt_3 : 3 < PI.
Proof. pose proof PI2_3_2. lra. Qed.

Lemma np_pi_pos : 0 < np_pi.
Proof.
  pose proof np_pi_near. pose proof PI_gt_3. pose proof fl_eps_small. nra.
Qed.

(** The double that [np.arccos] receives lies where the exact quotient
    lies. *)
Lemma fl_round_twist_arg (m n : Z) :
  (0 <= m)%Z -> (0 <= n)%Z -> (m, n) <> (0%Z, 0%Z) ->
  1 / 2 <= fl_round (twist_arg m n) <= 1.
Proof.
  intros Hm Hn Hne.
  destruct (twist_arg_bounds m n Hm Hn Hne) as [H1 H2].
  split.
  - rewrite <- fl_round_half. now apply fl_round_mono.
  - rewrite <- fl_round_1. now apply fl_round_mono.
Qed.

(** Two roundings and a division by [np.pi], as arithmetic. *)
Lemma degrees_upper_alg (u e pi p t T B Q S : R) :
  0 < u <= 1 / 1000 -> 0 < e <= 1 / 1000 -> 3 < pi <= 4 ->
  pi * (1 - u) <= p ->
  0 <= t <= T * pi -> 0 <= T ->
  0 <= B <= t * 180 * (1 + u) + e ->
  Q * p = B -> 0 <= Q ->
  S <= Q * (1 + u) + e ->
  S <= T * 180 * (1 + 4 * u) + 3 * e.
Proof.
  intros Hu He Hpi Hp Ht HT HB HQB HQ0 HS.
  assert (Hk1 : 0 <= (pi - 3) * (1 - u)) by (apply Rmult_le_pos; lra).
  assert (HK : 0 < pi * (1 - u)) by lra.
  assert (H1 : Q * (pi * (1 - u)) <= B).
  { rewrite <- HQB. apply Rmult_le_compat_l; assumption. }
  assert (HTpi : 0 <= T * pi) by (apply Rmult_le_pos; lra).
  assert (Htu : t * (1 + u) <= T * pi * (1 + u))
    by (apply Rmult_le_compat_r; lra).
  assert (Huu : 0 <= u * (1 / 2 - 5 / 2 * u)) by (apply Rmult_le_pos; lra).
  assert (HQ : Q <= T * 180 * (1 + 5 / 2 * u) + e).
  { apply Rmult_le_reg_r with (pi * (1 - u)); [exact HK|].
    apply Rle_trans with (1 := H1).
    assert (Ha : 0 <= T * pi * (u * (1 / 2 - 5 / 2 * u)))
      by (apply Rmult_le_pos; assumption).
    assert (Hb : 0 <= e * (pi * (1 - u) - 1)) by (apply Rmult_le_pos; lra).
    lra. }
  assert (Hc : Q * (1 + u) <= (T * 180 * (1 + 5 / 2 * u) + e) * (1 + u))
    by (apply Rmult_le_compat_r; lra).
  assert (Hd : 0 <= T * (u * (1 / 2 - 5 / 2 * u))) by (apply Rmult_le_pos; lra).
  assert (Hf : 0 <= e * (1 - u)) by (apply Rmult_le_pos; lra).
  lra.
Qed.

Lemma degrees_lower_alg (u e pi p t T B Q S : R) :
  0 < u <= 1 / 1000 -> 0 < e <= 1 / 1000 -> 3 < pi <= 4 ->
  0 < p <= pi * (1 + u) ->
  T * pi <= t -> 0 <= T ->
  t * 180 * (1 - u) - e <= B ->
  Q * p = B -> 0 <= Q ->
  Q * (1 - u) - e <= S ->
  T * 180 * (1 - 4 * u) - 3 * e <= S.
Proof.
  intros Hu He Hpi Hp Ht HT HB HQB HQ0 HS.
  assert (Hk1 : 0 <= (pi - 3) * (1 + u)) by (apply Rmult_le_pos; lra).
  assert (HK : 0 < pi * (1 + u)) by lra.
  assert (H1 : B <= Q * (pi * (1 + u))).
  { rewrite <- HQB. apply Rmult_le_compat_l; lra. }
  assert (HTpi : 0 <= T * pi) by (apply Rmult_le_pos; lra).
  assert (Htu : T * pi * (1 - u) <= t * (1 - u))
    by (apply Rmult_le_compat_r; lra).
  assert (Huu : 0 <= u * (1 / 2 + 5 / 2 * u)) by (apply Rmult_le_pos; lra).
  assert (HQ : T * 180 * (1 - 5 / 2 * u) - e <= Q).
  { apply Rmult_le_reg_r with (pi * (1 + u)); [exact HK|].
    apply Rle_trans with (2 := H1).
    assert (Ha : 0 <= T * pi * (u * (1 / 2 + 5 / 2 * u)))
      by (apply Rmult_le_pos; assumption).
    assert (Hb : 0 <= e * (pi * (1 + u) - 1)) by (apply Rmult_le_pos; lra).
    lra. }
  assert (Hc : (T * 180 * (1 - 5 / 2 * u) - e) * (1 - u) <= Q * (1 - u))
    by (apply Rmult_le_compat_r; lra).
  assert (Hd : 0 <= T * (u * (1 / 2 + 5 / 2 * u))) by (apply Rmult_le_pos; lra).
  assert (Hf : 0 <= e * u) by (apply Rmult_le_pos; lra).
  lra.
Qed.

(** The two roundings on the way from radians to degrees stay in range. *)
Lemma degrees_steps (t : R) :
  0 <= t <= 2 * PI ->
  let B := fl_round (t * 180) in
  let Q := B / np_pi in
  0 <= t * 180 <= 2000 /\ 0 <= B /\ Q * np_pi = B /\ 0 <= Q <= 2000.
Proof.
  intros Ht B Q.
  pose proof PI_gt_3 as HPI. pose proof PI_4 as HPI4.
  pose proof np_pi_near as [Hp1 Hp2]. pose proof np_pi_pos as Hp0.
  pose proof fl_eps_small as Hu0. pose proof fl_eta_small as He0.
  assert (Ht180 : 0 <= t * 180 <= 1500) by lra.
  pose proof (fl_round_near (t * 180) ltac:(lra)) as [_ HB].
  pose proof (fl_round_nonneg _ (proj1 Ht180)) as HB0.
  fold B in HB, HB0.
  assert (HBu : B <= 2000).
  { assert (0 <= (1500 - t * 180) * fl_eps) by (apply Rmult_le_pos; lra).
    lra. }
  assert (HQB : Q * np_pi = B) by (unfold Q; field; lra).
  assert (HQ0 : 0 <= Q).
  { unfold Q. apply Rmult_le_pos; [exact HB0|].
    left. now apply Rinv_0_lt_compat. }
  split; [lra|]. split; [exact HB0|]. split; [exact HQB|].
  split; [exact HQ0|].
  apply Rmult_le_reg_r with np_pi; [exact Hp0|]. rewrite HQB.
  assert (Hk : 0 <= (PI - 3) * (1 - fl_eps)) by (apply Rmult_le_pos; lra).
  lra.
Qed.

(** From a bound on [np.arccos] to a bound on the stored degrees. *)
Lemma degrees_upper (t T : R) :
  0 <= t <= T * PI -> 0 <= T <= 2 ->
  fl_round (fl_round (t * 180) / np_pi)
  <= T * 180 * (1 + 4 * fl_eps) + 3 * fl_eta.
Proof.
  intros Ht HT.
  pose proof PI_gt_3 as HPI. pose proof PI_4 as HPI4.
  pose proof np_pi_near as [Hp1 Hp2].
  pose proof fl_eps_small as Hu0. pose proof fl_eta_small as He0.
  assert (HTP : T * PI <= 2 * PI) by (apply Rmult_le_compat_r; lra).
  destruct (degrees_steps t ltac:(lra)) as (Ht180 & HB0 & HQB & HQ).
  pose proof (fl_round_near _ Ht180) as [_ HB].
  pose proof (fl_round_near _ HQ) as [_ HS].
  set (B := fl_round (t * 180)) in *.
  set (Q := B / np_pi) in *.
  apply (degrees_upper_alg fl_eps fl_eta PI np_pi t T B Q); try lra.
Qed.

Lemma degrees_lower (t T : R) :
  T * PI <= t <= 2 * PI -> 0 <= T ->
  T * 180 * (1 - 4 * fl_eps) - 3 * fl_eta
  <= fl_round (fl_round (t * 180) / np_pi).
Proof.
  intros Ht HT.
  pose proof PI_gt_3 as HPI. pose proof PI_4 as HPI4.
  pose proof np_pi_near as [Hp1 Hp2]. pose proof np_pi_pos as Hp0.
  pose proof fl_eps_small as Hu0. pose proof fl_eta_small as He0.
  assert (HTP : 0 <= T * PI) by (apply Rmult_le_pos; lra).
  destruct (degrees_steps t ltac:(lra)) as (Ht180 & HB0 & HQB & HQ).
  pose proof (fl_round_near _ Ht180) as [HB _].
  pose proof (fl_round_near _ HQ) as [HS _].
  set (B := fl_round (t * 180)) in *.
  set (Q := B / np_pi) in *.
  apply (degrees_lower_alg fl_eps fl_eta PI np_pi t T B Q); try lra.
Qed.

(** The stored twist angle lies in [0, 60] up to rounding. *)
Lemma twist_angle_mn_range (m n : Z) :
  (0 <= m)%Z -> (0 <= n)%Z -> (m, n) <> (0%Z, 0%Z) ->
  0 <= twist_angle_mn m n <= 60 + 1e-13.
Proof.
  intros Hm Hn Hne. unfold twist_angle_mn.
  pose proof (fl_round_twist_arg m n Hm Hn Hne) as Hq.
  set (q := fl_round (twist_arg m n)) in *.
  pose proof (acos_le_PI3 q Hq) as [Ha0 Ha1].
  pose proof (np_arccos_near q ltac:(lra)) as [Hn0 Hn1].
  pose proof fl_eps_small as Hu. pose proof fl_eta_small as He.
  pose proof PI_gt_3 as HPI.
  assert (Hau : 0 <= acos q * fl_eps) by (apply Rmult_le_pos; lra).
  assert (Hau' : acos q * fl_eps <= PI / 3 * fl_eps)
    by (apply Rmult_le_compat_r; lra).
  assert (Hpu : 0 <= PI * fl_eps) by (apply Rmult_le_pos; lra).
  assert (Hpu' : PI * fl_eps <= PI * 1.2e-16)
    by (apply Rmult_le_compat_l; lra).
  assert (Ht0 : 0 <= np_arccos q) by (apply np_arccos_nonneg; lra).
  pose proof PI_4.
  split.
  - apply fl_round_nonneg.
    apply Rmult_le_pos; [|left; apply Rinv_0_lt_compat, np_pi_pos].
    apply fl_round_nonneg. lra.
  - apply Rle_trans
      with (1 / 3 * (1 + 8 * fl_eps) * 180 * (1 + 4 * fl_eps) + 3 * fl_eta).
    + apply degrees_upper; [|lra].
      split; [exact Ht0|]. lra.
    + assert (Huu : 0 <= fl_eps * fl_eps <= fl_eps * 1.2e-16)
        by (split; [apply Rmult_le_pos; lra | apply Rmult_le_compat_l; lra]).
      lra.
Qed.

Lemma twist_angle_mn_sym (m n : Z) : twist_angle_mn n m = twist_angle_mn m n.
Proof. unfold twist_angle_mn. now rewrite twist_arg_sym. Qed.

(** For [(1,0)] the stored angle is 60 degrees up to rounding. *)
Lemma twist_angle_1_0 : 60 - 1e-13 <= twist_angle_mn 1 0 <= 60 + 1e-13.
Proof.
  split; [|apply twist_angle_mn_range; [lia | lia | discriminate]].
  unfold twist_angle_mn.
  change (twist_arg 1 0) with (0.5 * 1 / 1).
  replace (0.5 * 1 / 1) with (1 / 2) by lra.
  rewrite fl_round_half.
  pose proof (np_arccos_near (1 / 2) ltac:(lra)) as [Hn0 Hn1].
  rewrite acos_half in Hn0, Hn1.
  pose proof fl_eps_small as Hu. pose proof fl_eta_small as He.
  pose proof PI_gt_3 as HPI. pose proof PI_4.
  assert (Hpu : 0 <= PI * fl_eps) by (apply Rmult_le_pos; lra).
  assert (Hpu' : PI * fl_eps <= PI * 1.2e-16)
    by (apply Rmult_le_compat_l; lra).
  apply Rle_trans
    with (1 / 3 * (1 - 8 * fl_eps) * 180 * (1 - 4 * fl_eps) - 3 * fl_eta).
  - assert (Huu : 0 <= fl_eps * fl_eps)
      by (apply Rmult_le_pos; lra).
    lra.
  - apply degrees_lower; lra.
Qed.

(** The untwisted case is [m = n]: for [(1,1)] the stored angle is 0. *)
Lemma twist_angle_1_1 : twist_angle_mn 1 1 = 0.
Proof.
  unfold twist_angle_mn.
  change (twist_arg 1 1) with (0.5 * 6 / 3).
  replace (0.5 * 6 / 3) with 1 by lra.
  rewrite fl_round_1.
  pose proof (np_arccos_near 1 ltac:(lra)) as Hn.
  rewrite acos_1 in Hn.
  replace (np_arccos 1) with 0 by lra.
  rewrite Rmult_0_l, fl_round_0. unfold Rdiv. rewrite Rmult_0_l.
  apply fl_round_0.
Qed.

Lemma acos_9_10 : acos (9 / 10) <= 99 / 100 * (PI / 6).
Proof.
  pose proof (acos_bound (9 / 10)) as [Hg0 Hg1].
  pose proof PI_gt_3 as HPI. pose proof PI_4 as HPI4.
  destruct (Rle_or_lt (acos (9 / 10)) (99 / 100 * (PI / 6))) as [H|H];
    [exact H|exfalso].
  apply cos_decreasing_1 in H; try lra.
  rewrite cos_acos in H by lra.
  replace (99 / 100 * (PI / 6)) with (PI / 6 - PI / 600) in H by lra.
  rewrite cos_minus, cos_PI6, sin_PI6 in H.
  pose proof (COS_bound (PI / 600)) as [_ Hc].
  pose proof (sin_lt_x (PI / 600) ltac:(lra)) as Hs.
  assert (H3 : sqrt 3 * sqrt 3 = 3) by (apply sqrt_sqrt; lra).
  pose proof (sqrt_pos 3) as H30.
  assert (Hr : sqrt 3 <= 1734 / 1000).
  { destruct (Rle_or_lt (sqrt 3) (1734 / 1000)) as [Hle|Hlt]; [exact Hle|].
    assert (1734 / 1000 * (1734 / 1000) < sqrt 3 * sqrt 3)
      by (apply Rmult_le_0_lt_compat; lra).
    lra. }
  assert (Hp1 : sqrt 3 / 2 * cos (PI / 600) <= sqrt 3 / 2 * 1)
    by (apply Rmult_le_compat_l; lra).
  lra.
Qed.

(** For [(2,1)] the stored angle is below 30 degrees. *)
Lemma twist_angle_2_1 : twist_angle_mn 2 1 < 30.
Proof.
  unfold twist_angle_mn.
  change (twist_arg 2 1) with (0.5 * 13 / 7).
  replace (0.5 * 13 / 7) with (13 / 14) by lra.
  pose proof fl_eps_small as Hu. pose proof fl_eta_small as He.
  pose proof PI_gt_3 as HPI. pose proof PI_4.
  pose proof (fl_round_near (13 / 14) ltac:(lra)) as [Hq0 _].
  assert (Hq1 : fl_round (13 / 14) <= 1).
  { rewrite <- fl_round_1. apply fl_round_mono. lra. }
  set (q := fl_round (13 / 14)) in *.
  assert (Hq : 9 / 10 <= q) by lra.
  pose proof (np_arccos_near q ltac:(lra)) as [Hn0 Hn1].
  pose proof (acos_bound q) as [Ha0 _].
  assert (Ha1 : acos q <= 99 / 100 * (PI / 6)).
  { apply Rle_trans with (2 := acos_9_10). apply acos_decr; lra. }
  assert (Hau : 0 <= acos q * fl_eps) by (apply Rmult_le_pos; lra).
  assert (Hau' : acos q * fl_eps <= 99 / 100 * (PI / 6) * fl_eps)
    by (apply Rmult_le_compat_r; lra).
  assert (Hpu : 0 <= PI * fl_eps) by (apply Rmult_le_pos; lra).
  pose proof (np_arccos_nonneg q ltac:(lra)) as Ht0.
  apply Rle_lt_trans
    with (33 / 200 * (1 + 8 * fl_eps) * 180 * (1 + 4 * fl_eps) + 3 * fl_eta).
  - apply degrees_upper; lra.
  - assert (Huu : 0 <= fl_eps * fl_eps <= fl_eps * 1.2e-16)
      by (split; [apply Rmult_le_pos; lra | apply Rmult_le_compat_l; lra]).
    lra.
Qed.

(** *** The stored angle and the exact angle *)

Lemma twist_arg_range (m n : Z) :
  (m, n) <> (0%Z, 0%Z) -> -1 <= twist_arg m n <= 1.
Proof.
  intros Hne. unfold twist_arg.
  assert (HD : (0 < n^2 + m*n + m^2)%Z).
  { assert (m <> 0%Z \/ n <> 0%Z) as [H|H]
      by (destruct (Z.eq_dec m 0%Z) as [->|]; [right; congruence | now left]);
      nia. }
  assert (HA1 : (- (2 * (n^2 + m*n + m^2)) <= m^2 + 4*m*n + n^2)%Z)
    by (pose proof (Z.square_nonneg (m + n)); nia).
  assert (HA2 : (m^2 + 4*m*n + n^2 <= 2 * (n^2 + m*n + m^2))%Z)
    by (pose proof (Z.square_nonneg (m - n)); nia).
  apply IZR_lt in HD. apply IZR_le in HA1, HA2.
  rewrite opp_IZR, mult_IZR in HA1. rewrite mult_IZR in HA2.
  set (A := IZR (m^2 + 4*m*n + n^2)) in *.
  set (D := IZR (n^2 + m*n + m^2)) in *.
  assert (Hq : 0.5 * A / D * D = 0.5 * A) by (field; lra).
  split; apply Rmult_le_reg_r with D; lra.
Qed.

Lemma sin_ge_third (h : R) : 0 <= h <= PI / 2 -> h / 3 <= sin h.
Proof.
  intros Hh. pose proof PI_4 as HPI4.
  pose proof (sin_bound h 0 ltac:(lra) ltac:(lra)) as [H _].
  unfold sin_approx, sin_term in H. simpl in H.
  assert (Hhh : 0 <= h * (2 - h)) by (apply Rmult_le_pos; lra).
  assert (Hh3 : 0 <= h * (h * (2 - h))) by (apply Rmult_le_pos; lra).
  assert (Hh4 : 0 <= h * (4 - h * h)).
  { apply Rmult_le_pos; [lra|]. lra. }
  lra.
Qed.

(** [arccos] is Hölder continuous with exponent one half. *)
Lemma cos_gap (a b : R) :
  0 <= a -> a <= b -> b <= PI -> (b - a) * (b - a) <= 18 * (cos a - cos b).
Proof.
  intros Ha Hab Hb. pose proof PI_RGT_0 as HPI.
  rewrite form2.
  replace ((a - b) / 2) with (- ((b - a) / 2)) by lra.
  rewrite sin_neg.
  set (h := (b - a) / 2). set (mid := (a + b) / 2).
  assert (Hh : 0 <= h <= PI / 2) by (unfold h; lra).
  pose proof (sin_ge_third h Hh) as Hsh.
  assert (Hmid : sin h <= sin mid).
  { destruct (Rle_or_lt mid (PI / 2)) as [Hm|Hm].
    - apply sin_incr_1; unfold h, mid in *; lra.
    - rewrite <- (sin_PI_x mid).
      apply sin_incr_1; unfold h, mid in *; lra. }
  assert (H1 : h / 3 * (h / 3) <= sin h * sin mid).
  { apply Rmult_le_compat; lra. }
  replace (b - a) with (2 * h) by (unfold h; lra).
  lra.
Qed.

Lemma acos_close (x y d : R) :
  -1 <= x <= 1 -> -1 <= y <= 1 -> 0 <= d ->
  18 * Rabs (x - y) <= d * d -> Rabs (acos x - acos y) <= d.
Proof.
  intros Hx Hy Hd Hxy.
  pose proof (acos_bound x) as [Hx0 Hx1]. pose proof (acos_bound y) as [Hy0 Hy1].
  assert (Hsq : forall a b, 0 <= a -> a <= b -> b <= PI ->
                  18 * Rabs (cos a - cos b) <= d * d -> b - a <= d).
  { intros a b Ha Hab Hb Hc.
    pose proof (cos_gap a b Ha Hab Hb) as Hg.
    pose proof (Rle_abs (cos a - cos b)) as Habs.
    destruct (Rle_or_lt (b - a) d) as [H|H]; [exact H|exfalso].
    assert (d * d < (b - a) * (b - a)).
    { apply Rle_lt_trans with (d * (b - a)).
      - apply Rmult_le_compat_l; lra.
      - apply Rmult_lt_compat_r; lra. }
    lra. }
  apply Rabs_le.
  destruct (Rle_or_lt (acos x) (acos y)) as [Hle|Hlt].
  - split; [|lra].
    assert (acos y - acos x <= d); [|lra].
    apply Hsq; try assumption. now rewrite !cos_acos.
  - split; [lra|].
    apply Hsq; try lra.
    rewrite !cos_acos by assumption. now rewrite Rabs_minus_sym.
Qed.

Lemma twist_angle_mn_nonneg (m n : Z) :
  (m, n) <> (0%Z, 0%Z) -> 0 <= twist_angle_mn m n.
Proof.
  intros Hne. unfold twist_angle_mn.
  destruct (twist_arg_range m n Hne) as [H1 H2].
  assert (Hq : -1 <= fl_round (twist_arg m n) <= 1).
  { split.
    - rewrite <- fl_round_m1. now apply fl_round_mono.
    - rewrite <- fl_round_1. now apply fl_round_mono. }
  pose proof (np_arccos_nonneg _ Hq) as Ht.
  apply fl_round_nonneg.
  apply Rmult_le_pos; [|left; apply Rinv_0_lt_compat, np_pi_pos].
  apply fl_round_nonneg. lra.
Qed.

(** The double that [make_structure] stores is within [1e-5] degrees of
    the exact angle, for every pair of integers: rounding the quotient
    moves it by at most [2^-53], which [arccos] turns into at most
    [5e-8] radians near its end points. *)
Lemma twist_angle_mn_close (m n : Z) :
  (m, n) <> (0%Z, 0%Z) ->
  Rabs (twist_angle_mn m n - twist_angle_exact m n) <= 1e-5.
Proof.
  intros Hne.
  pose proof (twist_angle_mn_nonneg m n Hne) as Hs0.
  unfold twist_angle_mn, twist_angle_exact in *.
  destruct (twist_arg_range m n Hne) as [Hq1 Hq2].
  set (q := twist_arg m n) in *.
  assert (Hq' : -1 <= fl_round q <= 1).
  { split.
    - rewrite <- fl_round_m1. now apply fl_round_mono.
    - rewrite <- fl_round_1. now apply fl_round_mono. }
  pose proof fl_eps_small as Hu. pose proof fl_eta_small as He.
  pose proof PI_gt_3 as HPI. pose proof PI_4 as HPI4.
  assert (Herr : Rabs (fl_round q - q) <= fl_eps + fl_eta).
  { pose proof fl_max_large.
    assert (Hqa : Rabs q <= 1) by (apply Rabs_le; lra).
    pose proof (fl_round_error q ltac:(lra)) as H1.
    assert (fl_eps * Rabs q <= fl_eps * 1) by (apply Rmult_le_compat_l; lra).
    lra. }
  set (d := 5e-8).
  assert (Hd : Rabs (acos (fl_round q) - acos q) <= d).
  { apply acos_close; try assumption; unfold d; lra. }
  apply Rabs_le_bounds in Hd.
  set (q' := fl_round q) in *.
  pose proof (acos_bound q) as [Ha0 Ha1].
  pose proof (acos_bound q') as [Hb0 Hb1].
  pose proof (np_arccos_near q' Hq') as [Hn0 Hn1].
  pose proof (np_arccos_nonneg q' Hq') as Ht0.
  set (al := acos q) in *. set (al' := acos q') in *.
  set (t := np_arccos q') in *.
  set (E := al * 180 / PI).
  set (Dl := d * 180 / PI).
  assert (HE : 0 <= E <= 180).
  { unfold E. split.
    - apply Rmult_le_pos; [lra|]. left. apply Rinv_0_lt_compat. lra.
    - apply Rmult_le_reg_r with PI; [lra|].
      replace (al * 180 / PI * PI) with (al * 180) by (field; lra). lra. }
  assert (HDl : 0 <= Dl <= 3e-6).
  { unfold Dl, d. split.
    - apply Rmult_le_pos; [lra|]. left. apply Rinv_0_lt_compat. lra.
    - apply Rmult_le_reg_r with PI; [lra|].
      replace (5e-8 * 180 / PI * PI) with (5e-8 * 180) by (field; lra). lra. }
  assert (Hu2 : 0 <= fl_eps * fl_eps <= fl_eps * 1.2e-16)
    by (split; [apply Rmult_le_pos; lra | apply Rmult_le_compat_l; lra]).
  assert (HEu : 0 <= E * fl_eps <= 180 * fl_eps)
    by (split; [apply Rmult_le_pos; lra | apply Rmult_le_compat_r; lra]).
  assert (HEuu : 0 <= E * (fl_eps * fl_eps) <= 180 * (fl_eps * fl_eps))
    by (split; [apply Rmult_le_pos; lra | apply Rmult_le_compat_r; lra]).
  assert (HDu : 0 <= Dl * fl_eps <= 3e-6 * fl_eps)
    by (split; [apply Rmult_le_pos; lra | apply Rmult_le_compat_r; lra]).
  assert (HDuu : 0 <= Dl * (fl_eps * fl_eps) <= 3e-6 * (fl_eps * fl_eps))
    by (split; [apply Rmult_le_pos; lra | apply Rmult_le_compat_r; lra]).
  assert (Hal'u : 0 <= al' * fl_eps <= PI * fl_eps)
    by (split; [apply Rmult_le_pos; lra | apply Rmult_le_compat_r; lra]).
  assert (Hpu : 0 <= PI * fl_eps <= 4 * fl_eps)
    by (split; [apply Rmult_le_pos; lra | apply Rmult_le_compat_r; lra]).
  assert (Hdu : 0 <= d * fl_eps <= d * 1.2e-16)
    by (unfold d; split; [apply Rmult_le_pos; lra | apply Rmult_le_compat_l; lra]).
  assert (Halu : 0 <= al * fl_eps <= PI * fl_eps)
    by (split; [apply Rmult_le_pos; lra | apply Rmult_le_compat_r; lra]).
  apply Rabs_le. split.
  - (* from below *)
    destruct (Rle_or_lt al d) as [Hsmall|Hbig].
    + assert (E <= Dl).
      { unfold E, Dl. apply Rmult_le_compat_r;
          [left; apply Rinv_0_lt_compat; lra | lra]. }
      lra.
    + set (T := (al - d) * (1 - 8 * fl_eps) / PI).
      assert (HTpi : T * PI = (al - d) * (1 - 8 * fl_eps))
        by (unfold T; field; lra).
      assert (HT180 : T * 180 = (E - Dl) * (1 - 8 * fl_eps))
        by (unfold T, E, Dl; field; lra).
      assert (HT0 : 0 <= T).
      { unfold T. apply Rmult_le_pos; [|left; apply Rinv_0_lt_compat; lra].
        apply Rmult_le_pos; unfold d in *; lra. }
      pose proof (degrees_lower t T) as Hlow.
      assert (Hr : T * PI <= t <= 2 * PI).
      { rewrite HTpi.
        assert ((al - d) * (1 - 8 * fl_eps) <= al' * (1 - 8 * fl_eps))
          by (apply Rmult_le_compat_r; lra).
        split; lra. }
      specialize (Hlow Hr HT0).
      assert (Hgoal : E - 1e-5 <= fl_round (fl_round (t * 180) / np_pi)).
      { apply Rle_trans with (2 := Hlow).
        replace (T * 180 * (1 - 4 * fl_eps))
          with (T * 180 - 4 * (T * 180 * fl_eps)) by ring.
        rewrite HT180.
        lra. }
      lra.
  - (* from above *)
    set (T := (al + d) * (1 + 8 * fl_eps) / PI).
    assert (HTpi : T * PI = (al + d) * (1 + 8 * fl_eps))
      by (unfold T; field; lra).
    assert (HT180 : T * 180 = (E + Dl) * (1 + 8 * fl_eps))
      by (unfold T, E, Dl; field; lra).
    assert (HT0 : 0 <= T <= 2).
    { split.
      - unfold T. apply Rmult_le_pos; [|left; apply Rinv_0_lt_compat; lra].
        apply Rmult_le_pos; unfold d in *; lra.
      - apply Rmult_le_reg_r with PI; [lra|]. rewrite HTpi. unfold d in *. lra. }
    pose proof (degrees_upper t T) as Hup.
    assert (Hr : 0 <= t <= T * PI).
    { rewrite HTpi.
      assert (al' * (1 + 8 * fl_eps) <= (al + d) * (1 + 8 * fl_eps))
        by (apply Rmult_le_compat_r; lra).
      split; lra. }
    specialize (Hup Hr HT0).
    assert (Hgoal : fl_round (fl_round (t * 180) / np_pi) <= E + 1e-5).
    { apply Rle_trans with (1 := Hup).
      replace (T * 180 * (1 + 4 * fl_eps)) with (T * 180 + 4 * (T * 180 * fl_eps))
        by ring.
      rewrite HT180.
      lra. }
    lra.
Qed.

End TwistAngle.

(** The laws leave the last digit open: under an [np.pi] that lies below π
    by less than half a unit in the last place, the angle stored for
    [(1,0)] exceeds 60 degrees, as it does with the doubles of the source
    ([60.00000000000001]). *)
Lemma twist_angle_1_0_above_60 :
  60 < twist_angle_mn (FS := RefFloat.low_pi) 1 0.
Proof.
  unfold twist_angle_mn. cbn [fl_round np_arccos np_pi RefFloat.low_pi].
  change (twist_arg 1 0) with (0.5 * 1 / 1).
  replace (0.5 * 1 / 1) with (1 / 2) by lra.
  rewrite acos_half.
  pose proof PI_RGT_0 as HPI. pose proof fl_eps_small as Hu.
  replace (PI / 3 * 180 / (PI * (1 - fl_eps / 2)))
    with (60 / (1 - fl_eps / 2)) by (field; lra).
  apply Rmult_lt_reg_r with (1 - fl_eps / 2); [lra|].
  replace (60 / (1 - fl_eps / 2) * (1 - fl_eps / 2)) with 60 by (field; lra).
  lra.
Qed.

(** ** Rounding and the approximant's [n_top] *)

Section Rounding.

(** A real strictly within a half of an integer rounds to that integer. *)
Lemma py_round_nearest (z : Z) (x : R) :
  IZR z - 1 / 2 < x < IZR z + 1 / 2 -> py_round x = z.
Proof.
  intros [Hlo Hhi]. unfold py_round.
  destruct (archimed x) as [Hup1 Hup2].
  set (f := (up x - 1)%Z).
  assert (Hf : IZR f = IZR (up x) - 1) by (unfold f; rewrite minus_IZR; reflexivity).
  assert (Hzf : forall u v : Z, IZR u < IZR v + 1 -> (u <= v)%Z).
  { intros u v Huv. apply Z.lt_succ_r. apply lt_IZR.
    unfold Z.succ. rewrite plus_IZR. exact Huv. }
  destruct (Rlt_dec (x - IZR f) (1 / 2)) as [Hlt|Hge].
  - apply Z.le_antisymm; apply Hzf; lra.
  - destruct (Rlt_dec (1 / 2) (x - IZR f)) as [Hgt|Hle].
    + assert (f + 1 <= z)%Z.
      { apply Z.le_succ_l. apply lt_IZR.
        assert (IZR f <= IZR z + 1 - 1) by lra.
        assert (f <= z)%Z by (apply Hzf; lra).
        destruct (Z.eq_dec f z) as [->|]; [lra|].
        apply IZR_lt. lia. }
      assert (z <= f + 1)%Z.
      { apply Hzf. rewrite plus_IZR. lra. }
      lia.
    + exfalso.
      assert (z <= f)%Z by (apply Hzf; lra).
      assert (f <= z - 1)%Z.
      { apply Hzf. rewrite minus_IZR. lra. }
      lia.
Qed.

Lemma sqrt3_sq : sqrt 3 * sqrt 3 = 3.
Proof. apply sqrt_sqrt; lra. Qed.

Lemma sqrt3_pos : 0 < sqrt 3.
Proof. apply sqrt_lt_R0; lra. Qed.

(** [round(√3·n)] computed on integers. *)
Lemma n_top_of_eq (n : Z) :
  (0 <= n)%Z -> n_top_of n = ((Z.sqrt (12 * n * n) + 1) / 2)%Z.
Proof.
  intros Hn. unfold n_top_of. apply py_round_nearest.
  set (s := Z.sqrt (12 * n * n)).
  set (N := ((s + 1) / 2)%Z).
  assert (Hs : (s * s <= 12 * n * n < (s + 1) * (s + 1))%Z).
  { unfold s. pose proof (Z.sqrt_spec (12 * n * n)) as Hsp.
    unfold Z.succ in Hsp. apply Hsp. nia. }
  assert (Hs0 : (0 <= s)%Z) by apply Z.sqrt_nonneg.
  assert (HN : (2 * N - 1 <= s <= 2 * N)%Z).
  { unfold N. pose proof (Z.div_mod (s + 1) 2 ltac:(lia)).
    pose proof (Z.mod_pos_bound (s + 1) 2 ltac:(lia)). lia. }
  pose proof sqrt3_sq as H3. pose proof sqrt3_pos as H3p.
  set (y := sqrt 3 * IZR n).
  assert (Hy0 : 0 <= y).
  { unfold y. apply Rmult_le_pos; [lra|]. now apply IZR_le. }
  assert (Hy2 : (2 * y) * (2 * y) = IZR (12 * n * n)).
  { unfold y. rewrite !mult_IZR.
    replace (2 * (sqrt 3 * IZR n) * (2 * (sqrt 3 * IZR n)))
      with (4 * (sqrt 3 * sqrt 3) * IZR n * IZR n) by ring.
    rewrite H3. ring. }
  assert (Hup : (12 * n * n < (2 * N + 1) * (2 * N + 1))%Z) by nia.
  assert (Hlo : (2 * N - 1 <= 0)%Z \/ ((2 * N - 1) * (2 * N - 1) < 12 * n * n)%Z).
  { destruct (Z_le_gt_dec (2 * N - 1) 0) as [Hle|Hgt]; [left; exact Hle|right].
    assert ((2 * N - 1) * (2 * N - 1) <= s * s)%Z by nia.
    assert ((2 * N - 1) * (2 * N - 1) <> 12 * n * n)%Z.
    { replace ((2 * N - 1) * (2 * N - 1))%Z with (2 * (2 * N * N - 2 * N) + 1)%Z by ring.
      replace (12 * n * n)%Z with (2 * (6 * n * n))%Z by ring. lia. }
    lia. }
  apply IZR_lt in Hup. rewrite <- Hy2 in Hup.
  rewrite !mult_IZR, !plus_IZR, !mult_IZR in Hup.
  assert (HN0 : 0 <= IZR N).
  { apply IZR_le. lia. }
  split.
  - destruct Hlo as [Hle|Hlt].
    + destruct (Z.eq_dec n 0%Z) as [->|Hn0].
      * assert (N = 0%Z) by (unfold N, s; reflexivity).
        unfold y. rewrite H. lra.
      * assert (N = 0%Z) by lia.
        assert (1 <= IZR n) by (apply IZR_le; lia).
        unfold y. rewrite H. nra.
    + apply IZR_lt in Hlt. rewrite <- Hy2 in Hlt.
      rewrite !mult_IZR, !minus_IZR, !mult_IZR in Hlt.
      nra.
  - nra.
Qed.

Lemma n_top_of_6 : n_top_of 6 = 10%Z.
Proof. rewrite n_top_of_eq by lia. reflexivity. Qed.

Lemma n_top_of_3 : n_top_of 3 = 5%Z.
Proof. rewrite n_top_of_eq by lia. reflexivity. Qed.

Example n_top_of_1 : n_top_of 1 = 2%Z.
Proof. rewrite n_top_of_eq by lia. reflexivity. Qed.

Example n_top_of_4 : n_top_of 4 = 7%Z.
Proof. rewrite n_top_of_eq by lia. reflexivity. Qed.

(** [n_bottom = 7] gives [n_top = 12], a multiple of 3 coprime to 7: the
    second check is the one that rejects it. *)
Example n_top_of_7 : n_top_of 7 = 12%Z.
Proof. rewrite n_top_of_eq by lia. reflexivity. Qed.

End Rounding.

(** ** The builders: what a run leaves in the instance *)

Ltac unfold_m :=
  unfold mbind, M_bind, bind, mret, M_ret, ret, read, lift, attr, assign,
    orraise, raise in *.

Ltac unfold_e :=
  cbn [mbind E_bind eattr eorraise fmap E_fmap mret E_ret lookup list_lookup] in *.

Section BuilderFacts.

Context `{SS : StructureService}.

Lemma merge_sublatts_inr b0 b1 t0 t1 s s' :
  merge_sublatts b0 b1 t0 t1 s = (inr tt, s') ->
  let nb0 := Z.of_nat (num_sites b0) in
  let nb1 := Z.of_nat (num_sites b1) in
  let nt0 := Z.of_nat (num_sites t0) in
  let nt1 := Z.of_nat (num_sites t1) in
  layer_nsites s' = Some [(nb0 + nb1)%Z; (nt0 + nt1)%Z] /\
  layer_nsites_sublatt s' = Some [(nb0, nb1); (nt0, nt1)] /\
  coords s' =
    Some (cart_coords b0 ++ cart_coords b1 ++ cart_coords t0 ++ cart_coords t1) /\
  nsite s' = Some (nb0 + nb1 + nt0 + nt1)%Z /\
  twist_angle s' = twist_angle s /\ hoppings s' = hoppings s /\
  a s' = a s /\ h s' = h s /\ rotate_cent s' = rotate_cent s.
Proof.
  unfold merge_sublatts. unfold_m. cbn.
  destruct (latt_vec_bott s) as [lvb|]; cbn; [|discriminate].
  destruct (latt_vec_top s) as [lvt|]; cbn; [|discriminate].
  intros [= <-]. cbn.
  repeat split; try reflexivity.
  rewrite !length_app, !length_cart_coords. f_equal. lia.
Qed.

Lemma merge_sublatts_ok b0 b1 t0 t1 s :
  is_Some (latt_vec_bott s) -> is_Some (latt_vec_top s) ->
  exists s', merge_sublatts b0 b1 t0 t1 s = (inr tt, s').
Proof.
  intros [lvb Hb] [lvt Ht]. unfold merge_sublatts. unfold_m. cbn.
  rewrite Hb. cbn. rewrite Ht. cbn. eexists. reflexivity.
Qed.

Lemma merge_sublatts_counts_inv b0 b1 t0 t1 s s' :
  merge_sublatts b0 b1 t0 t1 s = (inr tt, s') -> counts_inv s'.
Proof.
  intros Hrun. apply merge_sublatts_inr in Hrun.
  cbn zeta in Hrun. destruct Hrun as (H1 & H2 & H3 & H4 & _).
  eexists _, _, _, _.
  split; [exact H1|]. split; [exact H2|]. split; [exact H3|].
  split; [exact H4|]. split; [|split].
  - unfold py_sum. cbn [foldr]. lia.
  - rewrite !length_app, !length_cart_coords. lia.
  - repeat constructor.
Qed.

End BuilderFacts.

Section CommensuFacts.

Context `{SS : StructureService} `{FS : FloatService}.

(** Both supercell transforms have the same determinant. *)
Lemma det3_supercell_bott_mn m n :
  det3 (supercell_bott_mn m n) = (m^2 + n^2 + m*n)%Z.
Proof. unfold det3, supercell_bott_mn. ring. Qed.

Lemma det3_supercell_top_mn m n :
  det3 (supercell_top_mn m n) = (m^2 + n^2 + m*n)%Z.
Proof. unfold det3, supercell_top_mn. ring. Qed.

Lemma mn_form_pos m n : (m, n) <> (0%Z, 0%Z) -> (0 < m^2 + n^2 + m*n)%Z.
Proof.
  intros Hne.
  assert (m <> 0%Z \/ n <> 0%Z) as [Hm|Hn].
  { destruct (Z.eq_dec m 0%Z) as [->|]; [right|left; assumption].
    intros ->. apply Hne. reflexivity. }
  - pose proof (Z.square_nonneg (m + 2 * n)). nia.
  - pose proof (Z.square_nonneg (2 * m + n)). nia.
Qed.

Lemma mn_form_zero m n : (2 * (n^2 + m^2 + m*n) =? 0)%Z = true <-> (m, n) = (0%Z, 0%Z).
Proof.
  rewrite Z.eqb_eq. split.
  - intros H0. destruct (decide ((m, n) = (0%Z, 0%Z))) as [|Hne]; [assumption|].
    apply mn_form_pos in Hne. lia.
  - intros [= -> ->]. reflexivity.
Qed.

Lemma sublatt_sites_Some rc z :
  is_Some (sublatt_sites rc z) <-> rc = "atom"%string \/ rc = "hole"%string.
Proof.
  unfold sublatt_sites. split.
  - destruct (String.eqb_spec rc "atom"); [auto|].
    destruct (String.eqb_spec rc "hole"); [auto|].
    intros [? [=]].
  - intros [-> | ->]; cbn; eauto.
Qed.

Lemma hex_bott_inr a0 : a0 <> 0 -> exists lvb, hex_bott a0 = inr lvb.
Proof.
  intros Ha. unfold hex_bott, py_fdiv.
  destruct (Req_dec_T a0 0); [contradiction|]. cbn. eauto.
Qed.

Lemma hex_bott_inv a0 lvb : hex_bott a0 = inr lvb -> a0 <> 0.
Proof.
  unfold hex_bott, py_fdiv.
  destruct (Req_dec_T a0 0); [discriminate|]. auto.
Qed.

(** What a successful [_pmg_sublatts_prim] says about its arguments and
    leaves behind. *)
Lemma CommensuStruct_prim_inr m n s b0 b1 t0 t1 s' :
  CommensuStruct_pmg_sublatts_prim m n s = (inr (b0, b1, t0, t1), s') ->
  (m, n) <> (0%Z, 0%Z) /\
  num_sites b0 = 1%nat /\ num_sites b1 = 1%nat /\
  num_sites t0 = 1%nat /\ num_sites t1 = 1%nat /\
  is_Some (latt_vec_bott s') /\ is_Some (latt_vec_top s').
Proof.
  unfold CommensuStruct_pmg_sublatts_prim. unfold_m. cbn.
  destruct (hex_bott (a s)) as [e|lvb]; cbn; [discriminate|].
  unfold rotate_mat_mn.
  destruct (2 * (n^2 + m^2 + m*n) =? 0)%Z eqn:Hd; cbn; [discriminate|].
  destruct (rotate_cent s) as [rc|]; cbn; [|discriminate].
  destruct (sublatt_sites rc 0) as [sb|]; cbn; [|discriminate].
  destruct (sublatt_sites rc (h s / 100)) as [st|]; cbn; [|discriminate].
  intros [= <- <- <- <- <-]. cbn.
  rewrite !num_sites_pmg_struct. cbn.
  repeat split; eauto.
  intros Hmn. apply mn_form_zero in Hmn. congruence.
Qed.

Lemma CommensuStruct_prim_ok m n s :
  (m, n) <> (0%Z, 0%Z) -> a s <> 0 ->
  rotate_cent s = Some "atom"%string \/ rotate_cent s = Some "hole"%string ->
  exists r s', CommensuStruct_pmg_sublatts_prim m n s = (inr r, s').
Proof.
  intros Hmn Ha Hrc.
  unfold CommensuStruct_pmg_sublatts_prim. unfold_m. cbn.
  destruct (hex_bott_inr _ Ha) as [lvb ->]. cbn.
  unfold rotate_mat_mn.
  destruct (2 * (n^2 + m^2 + m*n) =? 0)%Z eqn:Hd.
  { apply mn_form_zero in Hd. contradiction. }
  cbn.
  assert (exists rc, rotate_cent s = Some rc /\
                     (rc = "atom"%string \/ rc = "hole"%string)) as (rc & -> & Hv).
  { destruct Hrc as [-> | ->]; eauto. }
  cbn.
  destruct (proj2 (sublatt_sites_Some rc 0) Hv) as [sb ->].
  destruct (proj2 (sublatt_sites_Some rc (h s / 100)) Hv) as [st ->].
  cbn. eauto.
Qed.

Lemma CommensuStruct_make_structure_inr m n s s' :
  CommensuStruct_make_structure m n s = (inr tt, s') ->
  (m, n) <> (0%Z, 0%Z) /\
  nsite s' = Some (4 * (m^2 + n^2 + m*n))%Z /\
  (exists cs, coords s' = Some cs /\
              Z.of_nat (length cs) = (4 * (m^2 + n^2 + m*n))%Z) /\
  twist_angle s' = Some (twist_angle_mn m n) /\
  counts_inv s'.
Proof.
  unfold CommensuStruct_make_structure. intros Hrun.
  apply bind_inr in Hrun as ([[[b0 b1] t0] t1] & s1 & Hprim & Hrun).
  apply bind_inr in Hrun as ([] & s2 & Hmerge & Hrun).
  injection Hrun as <-.
  apply CommensuStruct_prim_inr in Hprim as (Hmn & Hb0 & Hb1 & Ht0 & Ht1 & _).
  pose proof (mn_form_pos m n Hmn) as HD.
  pose proof (merge_sublatts_counts_inv _ _ _ _ _ _ Hmerge) as Hinv.
  apply merge_sublatts_inr in Hmerge. cbn zeta in Hmerge.
  destruct Hmerge as (H1 & H2 & H3 & H4 & _).
  rewrite !num_sites_make_supercell in H4
    by (rewrite ?det3_supercell_bott_mn, ?det3_supercell_top_mn; lia).
  rewrite !det3_supercell_bott_mn, !det3_supercell_top_mn, Hb0, Hb1, Ht0, Ht1 in H4.
  assert (Hc : Z.of_nat (Z.abs_nat (m^2 + n^2 + m*n) * 1) = (m^2 + n^2 + m*n)%Z) by lia.
  rewrite Hc in H4.
  split; [exact Hmn|]. split; [|split; [|split]].
  - cbn. rewrite H4. f_equal. lia.
  - exists (cart_coords (make_supercell b0 (supercell_bott_mn m n)) ++
            cart_coords (make_supercell b1 (supercell_bott_mn m n)) ++
            cart_coords (make_supercell t0 (supercell_top_mn m n)) ++
            cart_coords (make_supercell t1 (supercell_top_mn m n))).
    split; [exact H3|].
    rewrite !length_app, !length_cart_coords.
    rewrite !num_sites_make_supercell
      by (rewrite ?det3_supercell_bott_mn, ?det3_supercell_top_mn; lia).
    rewrite !det3_supercell_bott_mn, !det3_supercell_top_mn, Hb0, Hb1, Ht0, Ht1.
    lia.
  - reflexivity.
  - destruct Hinv as (lns & subl & cs & k & I1 & I2 & I3 & I4 & I5 & I6 & I7).
    exists lns, subl, cs, k. cbn. auto 10.
Qed.

Lemma CommensuStruct_make_structure_ok m n s :
  (m, n) <> (0%Z, 0%Z) -> a s <> 0 ->
  rotate_cent s = Some "atom"%string \/ rotate_cent s = Some "hole"%string ->
  exists s', CommensuStruct_make_structure m n s = (inr tt, s').
Proof.
  intros Hmn Ha Hrc.
  destruct (CommensuStruct_prim_ok m n s Hmn Ha Hrc) as ([[[b0 b1] t0] t1] & s1 & Hprim).
  pose proof (CommensuStruct_prim_inr _ _ _ _ _ _ _ _ Hprim) as (_ & _ & _ & _ & _ & Hb & Ht).
  unfold CommensuStruct_make_structure.
  rewrite (bind_run _ _ _ _ _ Hprim).
  destruct (merge_sublatts_ok (make_supercell b0 (supercell_bott_mn m n))
              (make_supercell b1 (supercell_bott_mn m n))
              (make_supercell t0 (supercell_top_mn m n))
              (make_supercell t1 (supercell_top_mn m n)) s1 Hb Ht) as [s2 Hmerge].
  rewrite (bind_run _ _ _ _ _ Hmerge).
  eexists. reflexivity.
Qed.

End CommensuFacts.

Section ApproximantFacts.

Context `{SS : StructureService}.

(** [_pmg_sublatts_prim] of the approximant never raises a [ValueError]. *)
Lemma TBG30Approximant_prim_inl a_top s e s' :
  TBG30Approximant_pmg_sublatts_prim a_top s = (inl e, s') -> ~ is_ValueError e.
Proof.
  unfold TBG30Approximant_pmg_sublatts_prim. unfold_m. cbn.
  unfold hex_bott, py_fdiv.
  destruct (Req_dec_T (a s) 0); cbn.
  { intros [= <- _] [msg [=]]. }
  destruct (rotate_cent s) as [rc|]; cbn.
  2:{ intros [= <- _] [msg [=]]. }
  destruct (sublatt_sites rc 0) as [sb|]; cbn.
  2:{ intros [= <- _] [msg [=]]. }
  destruct (sublatt_sites rc (h s / 100)) as [st|]; cbn.
  2:{ intros [= <- _] [msg [=]]. }
  discriminate.
Qed.

Lemma TBG30Approximant_prim_inr a_top s b0 b1 t0 t1 s' :
  TBG30Approximant_pmg_sublatts_prim a_top s = (inr (b0, b1, t0, t1), s') ->
  is_Some (latt_vec_bott s') /\ is_Some (latt_vec_top s').
Proof.
  unfold TBG30Approximant_pmg_sublatts_prim. unfold_m. cbn.
  destruct (hex_bott (a s)) as [e|lvb]; cbn; [discriminate|].
  destruct (rotate_cent s) as [rc|]; cbn; [|discriminate].
  destruct (sublatt_sites rc 0) as [sb|]; cbn; [|discriminate].
  destruct (sublatt_sites rc (h s / 100)) as [st|]; cbn; [|discriminate].
  intros [= _ _ _ _ <-]. cbn. eauto.
Qed.

Lemma TBG30Approximant_prim_ok a_top s :
  a s <> 0 ->
  rotate_cent s = Some "hole"%string \/ rotate_cent s = Some "atom"%string ->
  exists r s', TBG30Approximant_pmg_sublatts_prim a_top s = (inr r, s').
Proof.
  intros Ha Hrc.
  unfold TBG30Approximant_pmg_sublatts_prim. unfold_m. cbn.
  destruct (hex_bott_inr _ Ha) as [lvb ->]. cbn.
  assert (exists rc, rotate_cent s = Some rc /\
                     (rc = "atom"%string \/ rc = "hole"%string)) as (rc & -> & Hv).
  { destruct Hrc as [-> | ->]; eauto. }
  cbn.
  destruct (proj2 (sublatt_sites_Some rc 0) Hv) as [sb ->].
  destruct (proj2 (sublatt_sites_Some rc (h s / 100)) Hv) as [st ->].
  cbn. eauto.
Qed.

Lemma merge_sublatts_inl b0 b1 t0 t1 s e s' :
  merge_sublatts b0 b1 t0 t1 s = (inl e, s') -> ~ is_ValueError e.
Proof.
  unfold merge_sublatts. unfold_m. cbn.
  destruct (latt_vec_bott s); cbn.
  2:{ intros [= <- _] [msg [=]]. }
  destruct (latt_vec_top s); cbn.
  2:{ intros [= <- _] [msg [=]]. }
  discriminate.
Qed.

(** An inadmissible [n_bottom] raises one of the two errors and leaves the
    instance as it was. *)
Lemma TBG30Approximant_rejects n_bottom s :
  inadmissible n_bottom ->
  TBG30Approximant_make_structure n_bottom s = (inl common_divisor_error, s) \/
  TBG30Approximant_make_structure n_bottom s = (inl times_of_3_error, s).
Proof.
  intros Hbad. unfold TBG30Approximant_make_structure. unfold_m. cbn.
  destruct (Z.eqb_spec (Z.gcd n_bottom (n_top_of n_bottom)) 1) as [Hg|Hg]; cbn.
  - destruct (Z.eqb_spec (n_top_of n_bottom mod 3) 0) as [Hm|Hm]; cbn.
    + right; reflexivity.
    + destruct Hbad; contradiction.
  - left; reflexivity.
Qed.

(** An admissible [n_bottom] runs the construction, which raises no
    [ValueError] and, when it returns, leaves a well-counted structure. *)
Lemma TBG30Approximant_accepts n_bottom s :
  ~ inadmissible n_bottom ->
  (forall e s', TBG30Approximant_make_structure n_bottom s = (inl e, s') ->
                ~ is_ValueError e) /\
  (forall s', TBG30Approximant_make_structure n_bottom s = (inr tt, s') ->
              counts_inv s') /\
  (a s <> 0 ->
   rotate_cent s = Some "hole"%string \/ rotate_cent s = Some "atom"%string ->
   exists s', TBG30Approximant_make_structure n_bottom s = (inr tt, s')).
Proof.
  intros Hgood. unfold inadmissible in Hgood.
  assert (Hrun : TBG30Approximant_make_structure n_bottom s =
    ('(b0, b1, t0, t1) ← TBG30Approximant_pmg_sublatts_prim
        (3 * (a s / sqrt 3) * IZR n_bottom / IZR (n_top_of n_bottom));
     merge_sublatts (make_supercell b0 (supercell_bott_30 n_bottom))
       (make_supercell b1 (supercell_bott_30 n_bottom))
       (make_supercell t0 (supercell_top_30 (n_top_of n_bottom)))
       (make_supercell t1 (supercell_top_30 (n_top_of n_bottom)))) s).
  { unfold TBG30Approximant_make_structure.
    unfold mbind at 1, M_bind at 1, bind at 1, read at 1. cbv zeta.
    destruct (Z.eqb_spec (Z.gcd n_bottom (n_top_of n_bottom)) 1) as [Hg|Hg]; cbn [negb].
    - destruct (Z.eqb_spec (n_top_of n_bottom mod 3) 0) as [Hm|Hm].
      + exfalso; apply Hgood; right; exact Hm.
      + reflexivity.
    - exfalso; apply Hgood; left; exact Hg. }
  rewrite Hrun. clear Hrun. split; [|split].
  - intros e s' Hinl. apply bind_inl in Hinl as [Hp|([[[b0 b1] t0] t1] & s1 & Hp & Hm)].
    + eapply TBG30Approximant_prim_inl; exact Hp.
    + eapply merge_sublatts_inl; exact Hm.
  - intros s' Hinr. apply bind_inr in Hinr as ([[[b0 b1] t0] t1] & s1 & Hp & Hm).
    eapply merge_sublatts_counts_inv; exact Hm.
  - intros Ha Hrc.
    destruct (TBG30Approximant_prim_ok
                (3 * (a s / sqrt 3) * IZR n_bottom / IZR (n_top_of n_bottom))
                s Ha Hrc) as ([[[b0 b1] t0] t1] & s1 & Hp).
    rewrite (bind_run _ _ _ _ _ Hp).
    apply TBG30Approximant_prim_inr in Hp as [Hb Ht].
    apply merge_sublatts_ok; assumption.
Qed.

Lemma inadmissible_6 : inadmissible 6.
Proof. left. rewrite n_top_of_6. vm_compute. discriminate. Qed.

Lemma admissible_3 : ~ inadmissible 3.
Proof.
  unfold inadmissible. rewrite n_top_of_3. intros [Hg|Hm].
  - apply Hg. reflexivity.
  - vm_compute in Hm. discriminate.
Qed.

End ApproximantFacts.

Section GrapheneFacts.

Variable frac2cart : Mat -> Mat -> Mat.

Lemma Graphene_init_inr a0 h0 g :
  Graphene_init frac2cart a0 h0 = (inr tt, g) ->
  nsite g = Some 2%Z /\ layer_nsites g = Some [2%Z] /\ counts_inv g.
Proof.
  unfold Graphene_init, Graphene_init_body. unfold_m. cbn.
  unfold py_fdiv. destruct (Req_dec_T a0 0); cbn; [discriminate|].
  unfold np_append_cols.
  match goal with
  | |- context [Nat.eqb ?x ?y] => destruct (Nat.eqb_spec x y) as [Hlen|Hlen]
  end; cbn; [|discriminate].
  intros [= <-]. cbn. split; [reflexivity|]. split; [reflexivity|].
  eexists _, _, _, _.
  split; [reflexivity|]. split; [reflexivity|]. split; [reflexivity|].
  split; [reflexivity|]. split; [reflexivity|]. split.
  - rewrite length_zip_with, Hlen. reflexivity.
  - repeat constructor.
Qed.

Lemma Graphene_init_ok a0 h0 :
  a0 <> 0 ->
  (forall f L, length (frac2cart f L) = length f) ->
  exists g, Graphene_init frac2cart a0 h0 = (inr tt, g).
Proof.
  intros Ha Hlen.
  unfold Graphene_init, Graphene_init_body. unfold_m. cbn.
  unfold py_fdiv. destruct (Req_dec_T a0 0); [contradiction|]. cbn.
  unfold np_append_cols. rewrite Hlen. cbn. eauto.
Qed.

End GrapheneFacts.

(** * The claims about the lattice builders *)

Lemma inadmissible_dec n : {inadmissible n} + {~ inadmissible n}.
Proof.
  unfold inadmissible.
  destruct (Z.eq_dec (Z.gcd n (n_top_of n)) 1%Z) as [Hg|Hg];
    destruct (Z.eq_dec (n_top_of n mod 3) 0%Z) as [Hm|Hm]; tauto.
Qed.

Lemma frac2cart_ref_length f L : length (frac2cart_ref f L) = length f.
Proof. unfold frac2cart_ref, mat_mul. apply length_map. Qed.

(** C2, as stated, does not hold: the twist angles stored for [(2,1)] and
    [(1,2)] (coprime, distinct) do not add up to 60 degrees, since the
    formula is symmetric in its two arguments and the angle of [(2,1)],
    about 21.79 degrees, is below 30.  This is so whatever the doubles of
    the platform are. *)
Lemma C2_swap_not_complementary :
  ~ (exists FS : FloatService,
        forall m n : Z,
          (0 <= m)%Z -> (0 <= n)%Z -> Z.gcd m n = 1%Z -> m <> n ->
          0 <= twist_angle_mn m n <= 60 /\
          twist_angle_mn m n + twist_angle_mn n m = 60).
Proof.
  intros [FS Hall].
  destruct (Hall 2%Z 1%Z) as [_ Hsum]; [lia | lia | reflexivity | lia |].
  rewrite (twist_angle_mn_sym 2 1) in Hsum.
  pose proof (twist_angle_2_1 (FS := FS)). lra.
Qed.

(** C2 (amended): for non-negative integers [(m,n)], not both zero, the
    angle [arccos(0.5*(m²+4mn+n²)/(n²+mn+m²))] in degrees lies in [0, 60];
    the double that [CommensuStruct.make_structure] computes for it and
    stores is within [1e-5] degrees of that angle and lies in [0, 60] up
    to rounding, that is, between [0] and [60 + 1e-13] (for [(1,0)] the
    source stores [60.00000000000001]); and swapping the arguments gives
    the same stored angle. *)
Theorem C2_twist_angle_range_and_swap `{SS : StructureService} `{FS : FloatService}
    (m n : Z) :
  (0 <= m)%Z -> (0 <= n)%Z -> (m, n) <> (0%Z, 0%Z) ->
  0 <= twist_angle_exact m n <= 60 /\
  Rabs (twist_angle_mn m n - twist_angle_exact m n) <= 1e-5 /\
  0 <= twist_angle_mn m n <= 60 + 1e-13 /\
  twist_angle_mn n m = twist_angle_mn m n /\
  (forall s s', CommensuStruct_make_structure m n s = (inr tt, s') ->
                twist_angle s' = Some (twist_angle_mn m n)).
Proof.
  intros Hm Hn Hne. split; [|split; [|split; [|split]]].
  - apply twist_angle_exact_range; assumption.
  - apply twist_angle_mn_close; assumption.
  - apply twist_angle_mn_range; assumption.
  - apply twist_angle_mn_sym.
  - intros s s' Hrun.
    apply CommensuStruct_make_structure_inr in Hrun. tauto.
Qed.

Lemma C2_twist_angle_range_and_swap_witness :
  0 <= twist_angle_exact 2 1 <= 60 /\
  Rabs (twist_angle_mn (FS := RefFloat.service) 2 1 - twist_angle_exact 2 1)
  <= 1e-5 /\
  0 <= twist_angle_mn (FS := RefFloat.service) 2 1 <= 60 + 1e-13 /\
  twist_angle_mn (FS := RefFloat.service) 1 2
  = twist_angle_mn (FS := RefFloat.service) 2 1 /\
  (forall s s', CommensuStruct_make_structure (SS := RefService.service)
                 (FS := RefFloat.service) 2 1 s = (inr tt, s') ->
                twist_angle s' = Some (twist_angle_mn (FS := RefFloat.service) 2 1)).
Proof.
  apply (C2_twist_angle_range_and_swap (SS := RefService.service)
           (FS := RefFloat.service) 2 1);
    [lia | lia | discriminate].
Defined.



(** C4: for every [(m,n)] other than [(0,0)], the structure built by
    [CommensuStruct.make_structure] has [4·(m²+n²+mn)] sites: each of the
    four one-site sublattices is multiplied by the determinant of its
    supercell transform, [m²+n²+mn] for both transforms.  The statement is
    for any instance, so for both rotation centres. *)
Theorem C4_commensurate_site_count `{SS : StructureService}
    `{FS : FloatService} (s : Inst) (m n : Z) :
  det3 (supercell_bott_mn m n) = (m^2 + n^2 + m*n)%Z /\
  det3 (supercell_top_mn m n) = (m^2 + n^2 + m*n)%Z /\
  (forall s', CommensuStruct_make_structure m n s = (inr tt, s') ->
     nsite s' = Some (4 * (m^2 + n^2 + m*n))%Z /\
     exists cs, coords s' = Some cs /\
                Z.of_nat (length cs) = (4 * (m^2 + n^2 + m*n))%Z) /\
  ((m, n) <> (0%Z, 0%Z) -> a s <> 0 ->
   rotate_cent s = Some "atom"%string \/ rotate_cent s = Some "hole"%string ->
   exists s', CommensuStruct_make_structure m n s = (inr tt, s')).
Proof.
  split; [apply det3_supercell_bott_mn|].
  split; [apply det3_supercell_top_mn|]. split.
  - intros s' Hrun. apply CommensuStruct_make_structure_inr in Hrun. tauto.
  - apply CommensuStruct_make_structure_ok.
Qed.

Lemma C4_commensurate_site_count_witness :
  (exists s', CommensuStruct_make_structure (SS := RefService.service)
        (FS := RefFloat.service) 2 1
                commensu_default = (inr tt, s')) /\
  (exists s', CommensuStruct_make_structure (SS := RefService.service)
        (FS := RefFloat.service) 2 1
                (CommensuStruct_init 2.46 3.35 "hole") = (inr tt, s')).
Proof.
  split.
  - apply (C4_commensurate_site_count (SS := RefService.service)
        (FS := RefFloat.service) commensu_default 2 1).
    + discriminate.
    + cbn. lra.
    + left; reflexivity.
  - apply (C4_commensurate_site_count (SS := RefService.service)
        (FS := RefFloat.service)
             (CommensuStruct_init 2.46 3.35 "hole") 2 1).
    + discriminate.
    + cbn. lra.
    + right; reflexivity.
Defined.

(** C5, as stated, does not hold: for [(m,n) = (1,0)] the stored twist angle
    is not 0 degrees, whatever the doubles of the platform are. *)
Lemma C5_angle_not_zero :
  ~ (exists FS : FloatService,
        forall s', CommensuStruct_make_structure (SS := RefService.service)
                     (FS := FS) 1 0 commensu_default = (inr tt, s') ->
                   twist_angle s' = Some 0).
Proof.
  intros [FS Hall].
  destruct (CommensuStruct_make_structure_ok (SS := RefService.service) 1 0
              commensu_default) as [s' Hrun].
  - discriminate.
  - cbn. lra.
  - left; reflexivity.
  - pose proof (Hall s' Hrun) as H0.
    apply CommensuStruct_make_structure_inr in Hrun as (_ & _ & _ & Hang & _).
    rewrite Hang in H0. injection H0 as H0.
    pose proof (twist_angle_1_0 (FS := FS)). lra.
Qed.

(** C5 (amended): for [(m,n) = (1,0)], [CommensuStruct.make_structure]
    stores a twist angle of 60 degrees up to rounding (within [1e-13] of
    60; the double that the source stores is [60.00000000000001]) and
    builds a structure with twice as many sites as the 2-site monolayer
    [Graphene]. *)
Theorem C5_one_zero_bilayer `{SS : StructureService} `{FS : FloatService}
    (frac2cart : Mat -> Mat -> Mat) (s : Inst) (a0 h0 : R) (g : Inst) :
  a s <> 0 ->
  rotate_cent s = Some "atom"%string \/ rotate_cent s = Some "hole"%string ->
  Graphene_init frac2cart a0 h0 = (inr tt, g) ->
  exists s' t, CommensuStruct_make_structure 1 0 s = (inr tt, s') /\
               twist_angle s' = Some t /\ Rabs (t - 60) <= 1e-13 /\
               nsite g = Some 2%Z /\ nsite s' = Some (2 * 2)%Z.
Proof.
  intros Ha Hrc Hg.
  destruct (CommensuStruct_make_structure_ok 1 0 s) as [s' Hrun];
    [discriminate | assumption | assumption |].
  exists s', (twist_angle_mn 1 0). split; [exact Hrun|].
  apply CommensuStruct_make_structure_inr in Hrun as (_ & Hn & _ & Hang & _).
  apply Graphene_init_inr in Hg as (Hg & _).
  split; [exact Hang|]. split; [|auto].
  pose proof twist_angle_1_0 as H60. apply Rabs_le. lra.
Qed.

Lemma C5_one_zero_bilayer_witness :
  exists g s' t,
    Graphene_init frac2cart_ref 2.456 3.349 = (inr tt, g) /\
    CommensuStruct_make_structure (SS := RefService.service)
     (FS := RefFloat.service) 1 0 commensu_default = (inr tt, s') /\
    twist_angle s' = Some t /\ Rabs (t - 60) <= 1e-13 /\
    nsite g = Some 2%Z /\ nsite s' = Some (2 * 2)%Z.
Proof.
  destruct (Graphene_init_ok frac2cart_ref 2.456 3.349) as [g Hg].
  - lra.
  - apply frac2cart_ref_length.
  - destruct (C5_one_zero_bilayer (SS := RefService.service)
                (FS := RefFloat.service) frac2cart_ref
                commensu_default 2.456 3.349 g) as (s' & t & H1 & H2 & H3 & H4 & H5).
    + cbn. lra.
    + left; reflexivity.
    + exact Hg.
    + exists g, s', t.
      exact (conj Hg (conj H1 (conj H2 (conj H3 (conj H4 H5))))).
Defined.

(** C10: when [TBG30Approximant.make_structure] raises one of its two
    admissibility errors, the instance is what it was before the call: both
    checks come before any attribute is written. *)
Theorem C10_failed_validation_keeps_instance `{SS : StructureService}
    (s : Inst) (n_bottom : Z) :
  (forall e s',
     TBG30Approximant_make_structure n_bottom s = (inl e, s') ->
     e = common_divisor_error \/ e = times_of_3_error ->
     s' = s) /\
  (Z.gcd n_bottom (n_top_of n_bottom) <> 1%Z \/ (n_top_of n_bottom mod 3 = 0)%Z ->
   TBG30Approximant_make_structure n_bottom s = (inl common_divisor_error, s) \/
   TBG30Approximant_make_structure n_bottom s = (inl times_of_3_error, s)).
Proof.
  split.
  - intros e s' Hrun He.
    destruct (inadmissible_dec n_bottom) as [Hbad|Hgood].
    + destruct (TBG30Approximant_rejects n_bottom s Hbad) as [Hr|Hr];
        rewrite Hr in Hrun; injection Hrun as _ <-; reflexivity.
    + destruct (TBG30Approximant_accepts n_bottom s Hgood) as (Hnv & _).
      exfalso. apply (Hnv _ _ Hrun).
      destruct He as [-> | ->]; eexists; reflexivity.
  - apply TBG30Approximant_rejects.
Qed.

Lemma C10_failed_validation_keeps_instance_witness :
  TBG30Approximant_make_structure (SS := RefService.service) 6 tbg30_default
    = (inl common_divisor_error, tbg30_default) \/
  TBG30Approximant_make_structure (SS := RefService.service) 6 tbg30_default
    = (inl times_of_3_error, tbg30_default).
Proof.
  apply (C10_failed_validation_keeps_instance (SS := RefService.service)
           tbg30_default 6).
  left. rewrite n_top_of_6. vm_compute. discriminate.
Defined.

(** * Multilayer extension *)

Section PythonLists.

Lemma py_index_0 {A} (l : list A) : py_index l 0 = l !! 0%nat.
Proof. reflexivity. Qed.

Lemma py_index_1 {A} (l : list A) : py_index l 1 = l !! 1%nat.
Proof. reflexivity. Qed.

Lemma py_sum_app l1 l2 : py_sum (l1 ++ l2) = (py_sum l1 + py_sum l2)%Z.
Proof.
  unfold py_sum. induction l1 as [|x l1 IH]; cbn; [reflexivity|].
  rewrite IH. lia.
Qed.

Lemma py_sum_nonneg l : Forall (fun c => (0 <= c)%Z) l -> (0 <= py_sum l)%Z.
Proof. unfold py_sum. induction 1; cbn; lia. Qed.

Lemma slice_bound_nonneg len i :
  (0 <= i)%Z -> slice_bound len i = Nat.min (Z.to_nat i) len.
Proof.
  intros Hi. unfold slice_bound.
  destruct (Z.ltb_spec i 0); [lia | reflexivity].
Qed.

Lemma py_slice_length {A} (l : list A) (start stop : Z) :
  (0 <= start <= stop)%Z -> (stop <= Z.of_nat (length l))%Z ->
  Z.of_nat (length (py_slice l start stop)) = (stop - start)%Z.
Proof.
  intros Hs He. unfold py_slice.
  rewrite !slice_bound_nonneg by lia.
  rewrite length_drop, length_take. lia.
Qed.

End PythonLists.

Section AppendLayers.

Lemma shift_rows_length xy latt r :
  shift_rows xy latt = inr r -> length r = length xy.
Proof.
  unfold shift_rows.
  destruct (latt !! 0%nat); cbn; [|discriminate].
  destruct (latt !! 1%nat); cbn; [|discriminate].
  intros [= <-]. apply length_map.
Qed.

(** The rows that [_coords_xy] returns for a tag are as many as the two
    sublattice counts that [nsites_sublatt] returns for it. *)
Lemma coords_xy_length layer s xy p :
  counts_ok s ->
  coords_xy layer s = inr (Some xy) ->
  nsites_sublatt layer s = inr (Some p) ->
  (fst p + snd p)%Z = Z.of_nat (length xy).
Proof.
  intros (lns & subl & cs & Hl & Hs & Hc & Hsum & Hsub & Hpos).
  unfold coords_xy, nsites_sublatt. rewrite Hl, Hs, Hc.
  destruct (is_bott_tag layer).
  - unfold_e. rewrite !py_index_0.
    destruct lns as [|nb lns]; unfold_e; [discriminate|].
    destruct (latt_vec_bott s) as [lvb|]; unfold_e; [|discriminate].
    destruct subl as [|p0 subl]; unfold_e; [discriminate|].
    inversion Hsub as [|? ? ? ? Hp0 _]; subst.
    inversion Hpos as [|? ? Hnb Hrest]; subst.
    apply py_sum_nonneg in Hrest. unfold py_sum in *. cbn [foldr] in Hsum.
    assert (Hlen : Z.of_nat (length (py_slice cs 0 (fst p0 + snd p0)))
                   = (fst p0 + snd p0)%Z).
    { rewrite py_slice_length by lia. lia. }
    intros Hxy [= <-].
    destruct (String.eqb layer "A").
    + injection Hxy as <-. rewrite length_map. lia.
    + destruct (shift_rows _ _) as [e|r] eqn:Hsh; unfold_e; [discriminate|].
      injection Hxy as <-. apply shift_rows_length in Hsh.
      rewrite Hsh, length_map. lia.
  - destruct (is_top_tag layer); [|discriminate].
    unfold_e. rewrite !py_index_0.
    destruct lns as [|nb lns]; unfold_e; [discriminate|].
    rewrite !py_index_1.
    destruct lns as [|nt lns]; unfold_e; [discriminate|].
    destruct (latt_vec_top s) as [lvt|]; unfold_e; [|discriminate].
    destruct subl as [|p0 [|p1 subl]]; unfold_e; try discriminate.
    inversion Hsub as [|? ? ? ? Hp0 Hsub']; subst.
    inversion Hsub' as [|? ? ? ? Hp1 _]; subst.
    inversion Hpos as [|? ? Hnb Hpos']; subst.
    inversion Hpos' as [|? ? Hnt Hrest]; subst.
    apply py_sum_nonneg in Hrest. unfold py_sum in *. cbn [foldr] in Hsum.
    set (nb := (fst p0 + snd p0)%Z) in *.
    set (nt := (fst p1 + snd p1)%Z) in *.
    assert (Hlen : Z.of_nat (length (py_slice cs nb (nb + nt))) = nt).
    { rewrite py_slice_length by lia. lia. }
    intros Hxy [= <-].
    destruct (String.eqb layer "Atld").
    + injection Hxy as <-. rewrite length_map. lia.
    + destruct (shift_rows _ _) as [e|r] eqn:Hsh; unfold_e; [discriminate|].
      injection Hxy as <-. apply shift_rows_length in Hsh.
      rewrite Hsh, length_map. lia.
Qed.

End AppendLayers.

Lemma read_inr {A} (proj : Inst -> A) s x s' :
  read proj s = (inr x, s') -> x = proj s /\ s' = s.
Proof. unfold read. intros [= <- <-]; auto. Qed.

Lemma assign_inr upd s u s' : assign upd s = (inr u, s') -> s' = upd s.
Proof. unfold assign. intros [= <-]; auto. Qed.

Ltac minv_atom H :=
  first
    [ apply read_inr in H as [-> ->]
    | apply attr_inr in H as [H ->]
    | apply assign_inr in H as ->
    | apply lift_inr in H as [H ->]
    | apply orraise_inr in H as [H ->]
    | idtac ].

(** Inversion of a run that returned: one hypothesis per statement. *)
Ltac minv H :=
  repeat
    (let x := fresh "x" in
     let s1 := fresh "s" in
     let H1 := fresh "H" in
     apply bind_inr in H as (x & s1 & H1 & H); minv_atom H1);
  minv_atom H.

Lemma for_each_inv {A} (P : Inst -> Prop) (body : A -> M unit) (l : list A) :
  (forall x s s', P s -> body x s = (inr tt, s') -> P s') ->
  forall s s', P s -> for_each l body s = (inr tt, s') -> P s'.
Proof.
  intros Hbody. induction l as [|x l IH]; intros s s' HP Hrun.
  - injection Hrun as <-. exact HP.
  - cbn [for_each] in Hrun.
    apply bind_inr in Hrun as ([] & s1 & Hx & Hrun).
    eapply IH; [|exact Hrun]. eapply Hbody; eassumption.
Qed.

Section AppendLayersInvariant.

Lemma attr_inl {A} name (proj : Inst -> option A) s e s' :
  attr name proj s = (inl e, s') -> proj s = None /\ s' = s.
Proof. unfold attr. destruct (proj s); intros [= <- <-]; auto. Qed.

Lemma lift_inl {A} (f : Inst -> E A) s e s' :
  lift f s = (inl e, s') -> f s = inl e /\ s' = s.
Proof. unfold lift. intros [= -> <-]; auto. Qed.

Lemma orraise_inl {A} e0 (o : option A) s e s' :
  orraise e0 o s = (inl e, s') -> o = None /\ s' = s.
Proof. destruct o; intros [= <- <-]; auto. Qed.

(** One more step of a run that raised: either this statement raised, or it
    returned and a later one raised. *)
Ltac mstep H :=
  let x := fresh "x" in
  let s1 := fresh "s" in
  let H1 := fresh "H" in
  apply bind_inl in H as [H|(x & s1 & H1 & H)]; [|minv_atom H1].

Lemma nsites_sublatt_grow layer s s2 subl more p :
  layer_nsites_sublatt s = Some subl ->
  layer_nsites_sublatt s2 = Some (subl ++ more) ->
  nsites_sublatt layer s = inr (Some p) ->
  nsites_sublatt layer s2 = inr (Some p).
Proof.
  intros Hs Hs2. unfold nsites_sublatt. rewrite Hs, Hs2.
  destruct (is_bott_tag layer); [|destruct (is_top_tag layer)]; unfold_e;
    rewrite ?py_index_0, ?py_index_1; [| |auto].
  - destruct (subl !! 0%nat) as [q|] eqn:Hq; unfold_e; [|discriminate].
    rewrite (lookup_app_l_Some _ _ _ _ Hq). auto.
  - destruct (subl !! 1%nat) as [q|] eqn:Hq; unfold_e; [|discriminate].
    rewrite (lookup_app_l_Some _ _ _ _ Hq). auto.
Qed.

(** When [_coords_xy] returns rows for a tag, [nsites_sublatt] returns a
    pair for it. *)
Lemma coords_xy_sublatt layer s xy :
  counts_ok s ->
  coords_xy layer s = inr (Some xy) ->
  exists p, nsites_sublatt layer s = inr (Some p).
Proof.
  intros (lns & subl & cs & Hl & Hs & Hc & Hsum & Hsub & Hpos).
  unfold coords_xy, nsites_sublatt. rewrite Hl, Hs.
  destruct (is_bott_tag layer).
  - unfold_e. rewrite !py_index_0.
    destruct lns as [|nb lns]; unfold_e; [discriminate|].
    inversion Hsub; subst. unfold_e. eauto.
  - destruct (is_top_tag layer); [|discriminate].
    unfold_e. rewrite !py_index_0.
    destruct lns as [|nb lns]; unfold_e; [discriminate|].
    rewrite !py_index_1.
    destruct lns as [|nt lns]; unfold_e; [discriminate|].
    inversion Hsub as [|? ? ? ? _ Hsub']; subst.
    inversion Hsub'; subst. unfold_e. eauto.
Qed.

(** The instance after the first three appends of [append_one]. *)
Lemma appended_counts_ok s lns subl cs (xy coord : Mat) p :
  layer_nsites s = Some lns ->
  layer_nsites_sublatt s = Some subl ->
  coords s = Some cs ->
  py_sum lns = Z.of_nat (length cs) ->
  Forall2 (fun c p => (fst p + snd p)%Z = c) lns subl ->
  Forall (fun c => (0 <= c)%Z) lns ->
  length coord = length xy ->
  (fst p + snd p)%Z = Z.of_nat (length xy) ->
  counts_ok (set_layer_nsites_sublatt (subl ++ [p])
               (set_layer_nsites (lns ++ [Z.of_nat (length xy)])
                  (set_coords (cs ++ coord) s))).
Proof.
  intros Hl Hs Hc Hsum Hsub Hpos Hlen Hp.
  exists (lns ++ [Z.of_nat (length xy)]), (subl ++ [p]), (cs ++ coord).
  split; [reflexivity|]. split; [reflexivity|]. split; [reflexivity|].
  split; [|split].
  - rewrite py_sum_app, length_app, Hlen, Hsum.
    unfold py_sum. cbn [foldr]. lia.
  - apply Forall2_app; [exact Hsub|]. constructor; [exact Hp|constructor].
  - apply Forall_app. split; [exact Hpos|]. constructor; [lia|constructor].
Qed.

Lemma append_one_inv layer xy i s s' :
  inner_inv layer xy s ->
  append_one layer xy i s = (inr tt, s') ->
  inner_inv layer xy s'.
Proof.
  intros [(lns & subl & cs & Hl & Hs & Hc & Hsum & Hsub & Hpos) (p & Hp & Hpsum)] Hrun.
  unfold append_one in Hrun. minv Hrun.
  destruct (length xy =? 0)%nat; [discriminate|].
  unfold mret, M_ret, ret in H. injection H as _ <-.
  cbn in H0, H1, H4. rewrite Hc in H0. rewrite Hl in H1. rewrite Hs in H4.
  injection H0 as <-. injection H1 as <-. injection H4 as <-. subst x4.
  assert (Hsub0 : nsites_sublatt layer s = inr (Some x5)) by exact H2.
  rewrite Hp in Hsub0. injection Hsub0 as <-.
  split.
  - destruct (appended_counts_ok s lns subl cs xy
                (map (fun r => r ++ [h s * IZR i]) xy) p)
      as (lns' & subl' & cs' & I1 & I2 & I3 & I4 & I5 & I6);
      try assumption; [apply length_map|].
    exists lns', subl', cs'. cbn in *. auto 10.
  - exists p. split; [|exact Hpsum].
    eapply nsites_sublatt_grow; [exact Hs|reflexivity|exact Hp].
Qed.

(** When [append_one] raises, the counts it has already written agree. *)
Lemma append_one_inl layer xy i s e s' :
  inner_inv layer xy s ->
  append_one layer xy i s = (inl e, s') ->
  counts_ok s'.
Proof.
  intros [Hok (p & Hp & Hpsum)] Hrun.
  pose proof Hok as (lns & subl & cs & Hl & Hs & Hc & Hsum & Hsub & Hpos).
  unfold append_one in Hrun.
  (* z = self.h*i *)
  mstep Hrun; [discriminate|].
  (* the concatenation along axis 1 *)
  mstep Hrun.
  { destruct (length xy =? 0)%nat; [|discriminate].
    injection Hrun as _ <-. exact Hok. }
  match goal with
  | H : _ ?t = (inr _, ?u) |- _ =>
    assert (u = t) as -> by
      (destruct (length xy =? 0)%nat; [discriminate|];
       unfold mret, M_ret, ret in H; now injection H);
    clear H
  end.
  (* self.coords = ... *)
  mstep Hrun; [apply attr_inl in Hrun as [_ ->]; exact Hok|].
  match goal with
  | H : coords s = Some ?c |- _ =>
    tryif constr_eq c cs then fail else (rewrite Hc in H; injection H as <-)
  end.
  mstep Hrun; [discriminate|].
  (* self.layer_nsites.append(nsite) *)
  mstep Hrun; [apply attr_inl in Hrun as [Hn _]; cbn in Hn; congruence|].
  match goal with
  | H : layer_nsites (set_coords _ _) = Some _ |- _ =>
    cbn in H; rewrite Hl in H; injection H as <-
  end.
  mstep Hrun; [discriminate|].
  (* self.layer_nsites_sublatt.append(nsites_sublatt(layer)) *)
  mstep Hrun.
  { apply lift_inl in Hrun as [Hn _].
    change (nsites_sublatt layer s = inl e) in Hn. congruence. }
  match goal with
  | H : nsites_sublatt layer (set_layer_nsites _ _) = inr ?o |- _ =>
    assert (o = Some p) as ->
      by (change (nsites_sublatt layer s = inr o) in H; congruence);
    clear H
  end.
  mstep Hrun; [apply orraise_inl in Hrun as [Hn _]; discriminate|].
  match goal with
  | H : Some p = Some _ |- _ => injection H as <-
  end.
  mstep Hrun; [apply attr_inl in Hrun as [Hn _]; cbn in Hn; congruence|].
  match goal with
  | H : layer_nsites_sublatt (set_layer_nsites _ _) = Some _ |- _ =>
    cbn in H; rewrite Hs in H; injection H as <-
  end.
  mstep Hrun; [discriminate|].
  (* self.layer_latt_vecs = np.append(...) *)
  assert (Hthree : counts_ok
            (set_layer_nsites_sublatt (subl ++ [p])
               (set_layer_nsites (lns ++ [Z.of_nat (length xy)])
                  (set_coords (cs ++ map (fun r => r ++ [h s * IZR i]) xy) s)))).
  { eapply appended_counts_ok; try eassumption. apply length_map. }
  mstep Hrun; [apply lift_inl in Hrun as [_ ->]; exact Hthree|].
  mstep Hrun; [apply orraise_inl in Hrun as [_ ->]; exact Hthree|].
  mstep Hrun; [apply attr_inl in Hrun as [_ ->]; exact Hthree|].
  discriminate.
Qed.

Lemma for_each_inl {A} (P Q : Inst -> Prop) (body : A -> M unit) (l : list A) :
  (forall x s s', P s -> body x s = (inr tt, s') -> P s') ->
  (forall x s e s', P s -> body x s = (inl e, s') -> Q s') ->
  forall s e s', P s -> for_each l body s = (inl e, s') -> Q s'.
Proof.
  intros Hret Hraise. induction l as [|x l IH]; intros s e s' HP Hrun.
  - discriminate.
  - cbn [for_each] in Hrun.
    apply bind_inl in Hrun as [Hx|([] & s1 & Hx & Hrun)].
    + eapply Hraise; eassumption.
    + eapply IH; [|exact Hrun]. eapply Hret; eassumption.
Qed.

Lemma append_tag_inner layer s xy :
  counts_ok s -> coords_xy layer s = inr (Some xy) -> inner_inv layer xy s.
Proof.
  intros Hok Hxy. split; [exact Hok|].
  destruct (coords_xy_sublatt layer s xy Hok Hxy) as [p Hp].
  exists p. split; [exact Hp|]. eapply coords_xy_length; eassumption.
Qed.

Lemma append_tag_inv item s s' :
  counts_ok s -> append_tag item s = (inr tt, s') -> counts_ok s'.
Proof.
  destruct item as [layer heights]. intros Hok Hbody. unfold append_tag in Hbody.
  apply bind_inr in Hbody as (oxy & t1 & Hxy & Hbody).
  apply lift_inr in Hxy as [Hxy ->].
  apply bind_inr in Hbody as (xy & t2 & Hsome & Hbody).
  apply orraise_inr in Hsome as [-> ->].
  eapply (for_each_inv (inner_inv layer xy)) in Hbody;
    [apply Hbody| |exact (append_tag_inner layer s xy Hok Hxy)].
  intros i u u' Hu Hone. eapply append_one_inv; eassumption.
Qed.

Lemma append_tag_inl item s e s' :
  counts_ok s -> append_tag item s = (inl e, s') -> counts_ok s'.
Proof.
  destruct item as [layer heights]. intros Hok Hbody. unfold append_tag in Hbody.
  apply bind_inl in Hbody as [Hxy|(oxy & t1 & Hxy & Hbody)].
  { apply lift_inl in Hxy as [_ ->]. exact Hok. }
  apply lift_inr in Hxy as [Hxy ->].
  apply bind_inl in Hbody as [Hnone|(xy & t2 & Hsome & Hbody)].
  { apply orraise_inl in Hnone as [_ ->]. exact Hok. }
  apply orraise_inr in Hsome as [-> ->].
  eapply (for_each_inl (inner_inv layer xy) counts_ok) in Hbody;
    [exact Hbody| | |exact (append_tag_inner layer s xy Hok Hxy)].
  - intros i u u' Hu Hone. eapply append_one_inv; eassumption.
  - intros i u e' u' Hu Hone. eapply append_one_inl; eassumption.
Qed.

(** [append_layers] keeps the bookkeeping invariant when it returns. *)
Lemma append_layers_inv layers s s' :
  counts_ok s ->
  append_layers layers s = (inr tt, s') ->
  counts_ok s' /\ counts_inv s'.
Proof.
  intros Hok Hrun. unfold append_layers in Hrun.
  apply bind_inr in Hrun as ([] & s1 & Hloop & Hrun).
  assert (Hok1 : counts_ok s1).
  { revert Hloop. apply for_each_inv; [|exact Hok].
    intros item t t'. apply append_tag_inv. }
  minv Hrun.
  destruct Hok1 as (lns & subl & cs & Hl & Hs & Hc & Hsum & Hsub & Hpos).
  rewrite Hc in H. injection H as <-.
  split.
  - exists lns, subl, cs. cbn. auto 10.
  - exists lns, subl, cs, (Z.of_nat (length cs)). cbn. auto 10.
Qed.

Lemma keeps_bind {A B} (m : M A) (f : A -> M B) :
  keeps_nsite m -> (forall x, keeps_nsite (f x)) -> keeps_nsite (m ≫= f).
Proof.
  intros Hm Hf s r s'. unfold mbind, M_bind, bind.
  destruct (m s) as [[e|x] s1] eqn:Hms.
  - intros [= <- <-]. eapply Hm; exact Hms.
  - intros Hfx. rewrite (Hf _ _ _ _ Hfx). eapply Hm; exact Hms.
Qed.

Lemma keeps_pure {A} (f : Inst -> E A) : keeps_nsite (lift f).
Proof. intros s r s' [= _ <-]. reflexivity. Qed.

Lemma keeps_read {A} (proj : Inst -> A) : keeps_nsite (read proj).
Proof. intros s r s' [= _ <-]. reflexivity. Qed.

Lemma keeps_attr {A} name (proj : Inst -> option A) : keeps_nsite (attr name proj).
Proof. intros s r s'. unfold attr. destruct (proj s); intros [= _ <-]; reflexivity. Qed.

Lemma keeps_orraise {A} e (o : option A) : keeps_nsite (orraise e o).
Proof. intros s r s'. destruct o; intros [= _ <-]; reflexivity. Qed.

Lemma keeps_assign upd :
  (forall s, nsite (upd s) = nsite s) -> keeps_nsite (assign upd).
Proof. intros Hupd s r s' [= _ <-]. apply Hupd. Qed.

Lemma keeps_for_each {A} (body : A -> M unit) (l : list A) :
  (forall x, keeps_nsite (body x)) -> keeps_nsite (for_each l body).
Proof.
  intros Hbody. induction l as [|x l IH]; cbn [for_each].
  - intros s r s' [= _ <-]. reflexivity.
  - apply keeps_bind; [apply Hbody|]. intros _. exact IH.
Qed.

Lemma append_one_keeps_nsite layer xy i : keeps_nsite (append_one layer xy i).
Proof.
  unfold append_one.
  repeat first
    [ apply keeps_bind; [|intros ?]
    | apply keeps_read | apply keeps_attr | apply keeps_pure
    | apply keeps_orraise
    | apply keeps_assign; intros ?; reflexivity ].
  destruct (length xy =? 0)%nat; intros s r s' [= _ <-]; reflexivity.
Qed.

Lemma append_tag_keeps_nsite item : keeps_nsite (append_tag item).
Proof.
  destruct item as [layer heights]. unfold append_tag.
  apply keeps_bind; [apply keeps_pure|]. intros oxy.
  apply keeps_bind; [apply keeps_orraise|]. intros xy.
  apply keeps_for_each. intros i. apply append_one_keeps_nsite.
Qed.

(** When [append_layers] raises, the layers appended so far are counted
    consistently ([sum(layer_nsites) == len(coords)], sublattice pairs sum
    to their layer), and only [nsite] is left as it was before the call. *)
Lemma append_layers_inl layers s e s' :
  counts_ok s ->
  append_layers layers s = (inl e, s') ->
  counts_ok s' /\ nsite s' = nsite s.
Proof.
  intros Hok Hrun. unfold append_layers in Hrun.
  pose proof (keeps_for_each append_tag layers append_tag_keeps_nsite) as Hnsite.
  apply bind_inl in Hrun as [Hloop|([] & s1 & Hloop & Hrun)].
  - split; [|eapply Hnsite; exact Hloop].
    revert Hloop. apply (for_each_inl counts_ok counts_ok); [| |exact Hok].
    + intros item t t'. apply append_tag_inv.
    + intros item t e' t'. apply append_tag_inl.
  - assert (Hok1 : counts_ok s1).
    { revert Hloop. apply for_each_inv; [|exact Hok].
      intros item t t'. apply append_tag_inv. }
    mstep Hrun.
    + apply attr_inl in Hrun as [_ ->]. split; [exact Hok1|].
      eapply Hnsite; exact Hloop.
    + discriminate.
Qed.

End AppendLayersInvariant.

Section BuiltFacts.

Context `{SS : StructureService} `{FS : FloatService}.
Variable frac2cart : Mat -> Mat -> Mat.

Lemma merge_sublatts_counts_ok b0 b1 t0 t1 s s' :
  merge_sublatts b0 b1 t0 t1 s = (inr tt, s') -> counts_ok s'.
Proof.
  intros Hrun. apply merge_sublatts_inr in Hrun.
  cbn zeta in Hrun. destruct Hrun as (H1 & H2 & H3 & _).
  eexists _, _, _.
  split; [exact H1|]. split; [exact H2|]. split; [exact H3|].
  split; [|split].
  - unfold py_sum. cbn [foldr].
    rewrite !length_app, !length_cart_coords. lia.
  - repeat constructor.
  - repeat constructor; lia.
Qed.

Lemma CommensuStruct_make_structure_counts_ok m n s s' :
  CommensuStruct_make_structure m n s = (inr tt, s') -> counts_ok s'.
Proof.
  unfold CommensuStruct_make_structure. intros Hrun.
  apply bind_inr in Hrun as ([[[b0 b1] t0] t1] & s1 & _ & Hrun).
  apply bind_inr in Hrun as ([] & s2 & Hmerge & Hrun).
  injection Hrun as <-.
  apply merge_sublatts_counts_ok in Hmerge
    as (lns & subl & cs & I1 & I2 & I3 & I4 & I5 & I6).
  exists lns, subl, cs. cbn. auto 10.
Qed.

Lemma TBG30Approximant_make_structure_counts_ok n_bottom s s' :
  TBG30Approximant_make_structure n_bottom s = (inr tt, s') -> counts_ok s'.
Proof.
  unfold TBG30Approximant_make_structure. unfold mbind at 1, M_bind at 1, bind at 1.
  unfold read at 1. cbv zeta.
  destruct (negb _); [discriminate|].
  destruct (_ =? 0)%Z; [discriminate|].
  intros Hrun.
  apply bind_inr in Hrun as ([[[b0 b1] t0] t1] & s1 & _ & Hrun).
  eapply merge_sublatts_counts_ok; exact Hrun.
Qed.

Lemma Graphene_init_counts_ok a0 h0 g :
  Graphene_init frac2cart a0 h0 = (inr tt, g) -> counts_ok g.
Proof.
  intros Hg. apply Graphene_init_inr in Hg as (_ & Hl & Hinv).
  destruct Hinv as (lns & subl & cs & k & I1 & I2 & I3 & I4 & I5 & I6 & I7).
  exists lns, subl, cs. rewrite Hl in I1. injection I1 as <-.
  repeat split; try assumption; [lia|].
  repeat constructor. lia.
Qed.

Lemma built_counts s : built frac2cart s -> counts_ok s /\ counts_inv s.
Proof.
  induction 1 as [s m n s' Hrun|s nb s' Hrun|a0 h0 g Hrun|s layers s' _ [IH _] Hrun].
  - split; [eapply CommensuStruct_make_structure_counts_ok; exact Hrun|].
    apply CommensuStruct_make_structure_inr in Hrun. tauto.
  - split; [eapply TBG30Approximant_make_structure_counts_ok; exact Hrun|].
    destruct (inadmissible_dec nb) as [Hbad|Hgood].
    + destruct (TBG30Approximant_rejects nb s Hbad) as [Hr|Hr];
        rewrite Hr in Hrun; discriminate.
    + destruct (TBG30Approximant_accepts nb s Hgood) as (_ & Hinv & _).
      apply Hinv. exact Hrun.
  - split; [eapply Graphene_init_counts_ok; exact Hrun|].
    apply Graphene_init_inr in Hrun. tauto.
  - eapply append_layers_inv; eassumption.
Qed.

End BuiltFacts.

(** C9: for every structure produced by [CommensuStruct.make_structure],
    [TBG30Approximant.make_structure], the [Graphene] constructor or a later
    [append_layers] call, [sum(layer_nsites) == nsite == len(coords)], and
    the two sublattice counts of each layer sum to that layer's count. *)
Theorem C9_layer_counts_invariant `{SS : StructureService} `{FS : FloatService}
    (frac2cart : Mat -> Mat -> Mat) (s : Inst) :
  built frac2cart s ->
  exists lns subl cs n,
    layer_nsites s = Some lns /\
    layer_nsites_sublatt s = Some subl /\
    coords s = Some cs /\
    nsite s = Some n /\
    py_sum lns = n /\
    n = Z.of_nat (length cs) /\
    Forall2 (fun c p => (fst p + snd p)%Z = c) lns subl.
Proof. intros Hb. apply (built_counts frac2cart s Hb). Qed.

(** A monolayer with two more layers stacked below it: [Graphene()] followed
    by [append_layers({'A': [-1], 'B': [-2]})]. *)
Lemma graphene_trilayer_run :
  exists g s',
    Graphene_init frac2cart_ref 2.456 3.349 = (inr tt, g) /\
    append_layers [("A"%string, [(-1)%Z]); ("B"%string, [(-2)%Z])] g
      = (inr tt, s') /\
    layer_nsites g = Some [2%Z] /\
    layer_nsites s' = Some [2%Z; 2%Z; 2%Z] /\ nsite s' = Some 6%Z.
Proof.
  unfold Graphene_init, Graphene_init_body. unfold_m. cbn.
  unfold py_fdiv. destruct (Req_dec_T 2.456 0) as [H0|_]; [lra|]. cbn.
  eexists. eexists. split; [reflexivity|].
  split; [vm_compute; reflexivity|].
  split; [reflexivity|]. split; reflexivity.
Qed.

Lemma C9_layer_counts_invariant_witness :
  exists s lns subl cs n,
    built (SS := RefService.service) (FS := RefFloat.service) frac2cart_ref s /\
    layer_nsites s = Some lns /\
    layer_nsites_sublatt s = Some subl /\
    coords s = Some cs /\
    nsite s = Some n /\
    py_sum lns = n /\
    n = Z.of_nat (length cs) /\
    Forall2 (fun c p => (fst p + snd p)%Z = c) lns subl.
Proof.
  destruct graphene_trilayer_run as (g & s' & Hg & Happ & _).
  assert (Hb : built (SS := RefService.service)
        (FS := RefFloat.service) frac2cart_ref s').
  { eapply built_append; [|exact Happ]. eapply built_graphene. exact Hg. }
  destruct (C9_layer_counts_invariant (SS := RefService.service)
        (FS := RefFloat.service) frac2cart_ref s' Hb)
    as (lns & subl & cs & n & H).
  exists s', lns, subl, cs, n. split; [exact Hb | exact H].
Defined.

(** * The Wannier hopping model *)

Section Wannier.

Context `{SS : StructureService}.
Variable calc_hopping_wannier_PBC :
  pmg -> list (Z * Z) -> list Mat -> R -> R -> Z -> list R -> R ->
  E (list (gmap key3 C)).

Lemma add_hopping_wannier_check max_dist P ts s lns :
  layer_nsites s = Some lns ->
  ((2 < length lns)%nat ->
   add_hopping_wannier calc_hopping_wannier_PBC max_dist P ts s
   = (inl capability_error, s)) /\
  ((length lns <= 2)%nat ->
   add_hopping_wannier calc_hopping_wannier_PBC max_dist P ts s
   = wannier_assemble calc_hopping_wannier_PBC max_dist P ts s).
Proof.
  intros Hl. unfold add_hopping_wannier. unfold_m. rewrite Hl.
  split; intros Hlen.
  - destruct (Nat.ltb_spec 2 (length lns)); [reflexivity|lia].
  - destruct (Nat.ltb_spec 2 (length lns)); [lia|reflexivity].
Qed.

End Wannier.

(** C6, as stated, does not hold: a monolayer has one layer, not two, and
    [add_hopping_wannier] does not raise on it; it goes on to the hopping
    calculator and stores its table. *)
Lemma C6_one_layer_is_accepted :
  exists g,
    Graphene_init frac2cart_ref 2.456 3.349 = (inr tt, g) /\
    layer_nsites g = Some [2%Z] /\
    add_hopping_wannier (SS := RefService.service) calc_no_hopping 5 0 ts_default g
    = (inr tt, set_hoppings [∅; ∅] g).
Proof.
  unfold Graphene_init, Graphene_init_body. unfold_m. cbn.
  unfold py_fdiv. destruct (Req_dec_T 2.456 0) as [H0|_]; [lra|]. cbn.
  eexists. split; [reflexivity|]. split; [reflexivity|].
  vm_compute. reflexivity.
Qed.

(** C6 (amended): [add_hopping_wannier] raises its capability error, with
    the instance (so also the hoppings table) untouched, for every structure
    with more than two layers; with two layers or fewer the layer check
    passes and the method goes on to assemble the hoppings. *)
Theorem C6_wannier_layer_check `{SS : StructureService}
    (calc_hopping_wannier_PBC :
       pmg -> list (Z * Z) -> list Mat -> R -> R -> Z -> list R -> R ->
       E (list (gmap key3 C)))
    (max_dist : R) (P : Z) (ts : list R) (s : Inst) (lns : list Z) :
  layer_nsites s = Some lns ->
  ((2 < length lns)%nat ->
   add_hopping_wannier calc_hopping_wannier_PBC max_dist P ts s
   = (inl capability_error, s)) /\
  ((length lns <= 2)%nat ->
   add_hopping_wannier calc_hopping_wannier_PBC max_dist P ts s
   = wannier_assemble calc_hopping_wannier_PBC max_dist P ts s).
Proof. apply add_hopping_wannier_check. Qed.

Lemma C6_wannier_layer_check_witness :
  exists s',
    layer_nsites s' = Some [2%Z; 2%Z; 2%Z] /\
    add_hopping_wannier (SS := RefService.service) calc_no_hopping 5 0 ts_default s'
    = (inl capability_error, s').
Proof.
  destruct graphene_trilayer_run as (g & s' & _ & _ & _ & Hl & _).
  exists s'. split; [exact Hl|].
  apply (C6_wannier_layer_check (SS := RefService.service) calc_no_hopping 5 0
           ts_default s' _ Hl).
  cbn. lia.
Defined.

(** * Re-keying the hopping table *)

Section Rekey.

Lemma rekey_inj : Inj (=) (=) rekey.
Proof. intros [[m n] j] [[m' n'] j'] [= -> -> ->]. reflexivity. Qed.

#[local] Existing Instance rekey_inj.

Lemma rekey_lookup (hi : gmap key3 C) (m n j : Z) :
  (kmap rekey hi : gmap key4 C) !! (m, n, 0%Z, j) = hi !! (m, n, j).
Proof. apply (lookup_kmap rekey hi (m, n, j)). Qed.

Lemma rekey_lookup_other (hi : gmap key3 C) (m n l j : Z) :
  l <> 0%Z -> (kmap rekey hi : gmap key4 C) !! (m, n, l, j) = None.
Proof.
  intros Hl. apply lookup_kmap_None; [apply _|]. intros [[m' n'] j'] Heq.
  cbn in Heq. injection Heq as _ _ H0 _. contradiction.
Qed.

(** The loop of [hoppings_2to3], from any starting list. *)
Lemma hoppings_2to3_loop (hop : list (gmap key3 C)) :
  forall (l : list nat) (acc : list (gmap key4 C)),
    Forall (fun i => (i < length hop)%nat) l ->
    efold (fun acc i =>
             hop ← eattr "hoppings" (Some hop);
             hi ← eorraise IndexError (hop !! i);
             mret (acc ++ [kmap rekey hi]))
          acc l
    = inr (acc ++ map (fun i => kmap rekey (default ∅ (hop !! i)) : gmap key4 C) l).
Proof.
  induction l as [|i l IH]; intros acc Hl.
  - cbn. now rewrite app_nil_r.
  - inversion Hl as [|? ? Hi Hl']; subst.
    cbn [efold]. unfold_e.
    destruct (lookup_lt_is_Some_2 hop i Hi) as [hi Hhi].
    rewrite Hhi. unfold_e. rewrite IH by exact Hl'.
    cbn [map]. rewrite Hhi. cbn [default]. now rewrite <- app_assoc.
Qed.

End Rekey.

(** C8: for a structure whose hopping table has an entry for each of its
    [nsite] sites, [hoppings_2to3] returns a list of exactly [nsite] maps, in
    site order; the map of site [i] sends [(m, n, 0, j)] to the amplitude
    that the table of site [i] gives to [(m, n, j)] (and has it only when
    the table has that key), and has no key with a third component other
    than 0. *)
Theorem C8_hoppings_2to3 (s : Inst) (n : Z) (hop : list (gmap key3 C)) :
  nsite s = Some n ->
  hoppings s = Some hop ->
  (Z.to_nat n <= length hop)%nat ->
  exists tbl,
    hoppings_2to3 s = inr tbl /\
    length tbl = Z.to_nat n /\
    forall i, (i < Z.to_nat n)%nat ->
      exists hi ti,
        hop !! i = Some hi /\ tbl !! i = Some ti /\
        (forall m n' j, ti !! (m, n', 0%Z, j) = hi !! (m, n', j)) /\
        (forall m n' l j, l <> 0%Z -> ti !! (m, n', l, j) = None).
Proof.
  intros Hn Hh Hlen.
  exists (map (fun i => kmap rekey (default ∅ (hop !! i)) : gmap key4 C) (py_range n)).
  split; [|split].
  - unfold hoppings_2to3. rewrite Hn, Hh. unfold_e.
    rewrite (hoppings_2to3_loop hop); [reflexivity|].
    unfold py_range. apply Forall_forall. intros i Hi.
    apply list_elem_of_In, in_seq in Hi. lia.
  - unfold py_range. now rewrite length_map, length_seq.
  - intros i Hi.
    destruct (lookup_lt_is_Some_2 hop i ltac:(lia)) as [hi Hhi].
    exists hi, (kmap rekey hi : gmap key4 C). split; [exact Hhi|]. split; [|split].
    + rewrite list_lookup_fmap. unfold py_range.
      rewrite lookup_seq_lt by exact Hi. cbn. now rewrite Hhi.
    + intros m n' j. apply rekey_lookup.
    + intros m n' l j Hl. now apply rekey_lookup_other.
Qed.

Lemma C8_hoppings_2to3_witness :
  exists tbl,
    hoppings_2to3 two_site_inst = inr tbl /\
    length tbl = 2%nat /\
    forall i, (i < 2)%nat ->
      exists hi ti,
        two_site_table !! i = Some hi /\ tbl !! i = Some ti /\
        (forall m n' j, ti !! (m, n', 0%Z, j) = hi !! (m, n', j)) /\
        (forall m n' l j, l <> 0%Z -> ti !! (m, n', l, j) = None).
Proof.
  apply (C8_hoppings_2to3 two_site_inst 2 two_site_table);
    [reflexivity | reflexivity | cbn; lia].
Defined.

(** * The Bloch Hamiltonian *)

Section MatrixFacts.










End MatrixFacts.

Section Assembly.









End Assembly.

Section AssemblyReturns.






End AssemblyReturns.






(** * The diagonalisation loop *)

Lemma zheev_calls_app tr1 tr2 :
  zheev_calls (tr1 ++ tr2) = (zheev_calls tr1 + zheev_calls tr2)%nat.
Proof. unfold zheev_calls. now rewrite List.filter_app, length_app. Qed.

Section DiagLoop.

Variable zheev : CMat -> Z -> list R * CMat * Z.
Variable get_pk :
  list R -> list R -> list Z -> Z -> Z -> CMat -> Mat -> list Z -> list R.
Variables (s : Inst) (nk : nat) (vec pmk : bool) (elec_field : R).

Lemma diag_step_passes acc k :
  step_passes zheev s vec pmk elec_field k ->
  exists acc' Hk,
    diag_step zheev get_pk s nk vec pmk elec_field acc k = (inr tt, acc') /\
    counter acc' = (counter acc + 1)%Z /\
    trace acc' = trace acc ++
                 [Printed (progress_line (counter acc) nk);
                  ZheevCalled Hk (vec_calc_of vec pmk)].
Proof.
  intros (Hk & vals & vecs & Hham & Hz & Hpk).
  unfold diag_step. rewrite Hham, Hz. cbn [Z.eqb negb].
  destruct pmk.
  - destruct (Hpk eq_refl) as ([lns Hl] & [cs Hc] & [sp Hs]).
    rewrite Hl, Hc. unfold_e. rewrite Hs. unfold_e.
    eexists _, Hk. cbn. split; [reflexivity|]. split; [reflexivity|].
    now rewrite <- app_assoc.
  - unfold_e. eexists _, Hk. cbn. split; [reflexivity|]. split; [reflexivity|].
    now rewrite <- app_assoc.
Qed.

Lemma diag_step_zheev_fails acc k Hk :
  zheev_fails_on zheev s vec pmk elec_field k Hk ->
  exists acc',
    diag_step zheev get_pk s nk vec pmk elec_field acc k = (inl zheev_error, acc') /\
    trace acc' = trace acc ++
                 [Printed (progress_line (counter acc) nk);
                  ZheevCalled Hk (vec_calc_of vec pmk)].
Proof.
  intros [Hham Hz]. unfold diag_step. rewrite Hham.
  destruct (zheev Hk (vec_calc_of vec pmk)) as [[vals vecs] info]. cbn in Hz.
  destruct (Z.eqb_spec info 0) as [->|_]; [contradiction|]. cbn [negb].
  eexists. cbn. split; [reflexivity|]. now rewrite <- app_assoc.
Qed.

(** The loop over k-points that all go through. *)
Lemma diag_loop_passes pre rest acc :
  Forall (step_passes zheev s vec pmk elec_field) pre ->
  exists acc',
    diag_loop zheev get_pk s nk vec pmk elec_field acc (pre ++ rest)
    = diag_loop zheev get_pk s nk vec pmk elec_field acc' rest /\
    counter acc' = (counter acc + Z.of_nat (length pre))%Z /\
    exists tr, trace acc' = trace acc ++ tr /\ zheev_calls tr = length pre.
Proof.
  intros Hpre. revert acc. induction Hpre as [|k pre Hk _ IH]; intros acc.
  - exists acc. split; [reflexivity|]. split; [cbn; lia|].
    exists []. split; [now rewrite app_nil_r|reflexivity].
  - destruct (diag_step_passes acc k Hk) as (acc1 & Hk1 & Hstep & Hc1 & Ht1).
    destruct (IH acc1) as (acc' & Hloop & Hc & tr & Ht & Hn).
    exists acc'. split; [|split].
    + cbn [app diag_loop]. rewrite Hstep. exact Hloop.
    + rewrite Hc, Hc1. cbn [length]. lia.
    + eexists. split.
      * rewrite Ht, Ht1, <- app_assoc. reflexivity.
      * rewrite zheev_calls_app, Hn. reflexivity.
Qed.

End DiagLoop.

(** A failing k-point after [pre] passing ones: the fixed error, the
    eigensolver called once per k-point up to and including the failing
    one, and the progress line of the failing k-point printed last. *)
Lemma diag_kpts_fails_at zheev get_pk s pre k post vec pmk elec_field Hk :
  Forall (step_passes zheev s vec pmk elec_field) pre ->
  zheev_fails_on zheev s vec pmk elec_field k Hk ->
  exists tr,
    diag_kpts zheev get_pk s (pre ++ k :: post) vec pmk elec_field
    = (inl zheev_error,
       tr ++ [Printed (progress_line (Z.of_nat (length pre) + 1)
                         (length (pre ++ k :: post)));
              ZheevCalled Hk (vec_calc_of vec pmk)]) /\
    zheev_calls tr = length pre.
Proof.
  intros Hpre Hfail. unfold diag_kpts.
  destruct (diag_loop_passes zheev get_pk s (length (pre ++ k :: post)) vec pmk
              elec_field pre (k :: post) (mkAcc [] [] [] 1%Z []) Hpre)
    as (acc' & Hloop & Hc & tr & Ht & Hn).
  rewrite Hloop. cbn [diag_loop].
  destruct (diag_step_zheev_fails zheev get_pk s (length (pre ++ k :: post)) vec pmk
              elec_field acc' k Hk Hfail) as (acc2 & Hstep & Ht2).
  rewrite Hstep. exists tr. split; [|exact Hn].
  rewrite Ht2, Ht, Hc. cbn [trace counter app].
  replace (1 + Z.of_nat (length pre))%Z with (Z.of_nat (length pre) + 1)%Z by lia.
  reflexivity.
Qed.

Lemma one_site_hamilt k :
  hamilt_cell_diff one_site_inst k 0 = inr [[one_site_entry k]].
Proof.
  unfold hamilt_cell_diff, one_site_inst. cbn [nsite coords latt_vec hoppings].
  unfold_e. cbn [Z.ltb Z.compare]. unfold_e.
  destruct (Req_dec_T 0 0) as [_|Hne]; [|contradiction]. unfold_e.
  change (py_range 1) with [0%nat]. cbn [efold]. unfold_e.
  rewrite map_to_list_singleton. cbn [efold]. unfold_e.
  reflexivity.
Qed.

Lemma one_site_entry_re kx : Re (one_site_entry [kx; 0]) = 2 * cos kx.
Proof.
  unfold one_site_entry, bloch_phase, vec_dot. cbn.
  replace (kx * (1 * 1 + 0 * 0) + (0 * (1 * 0 + 0 * 1) + 0)) with kx by lra.
  lra.
Qed.

Lemma one_site_passes_at_0 :
  step_passes zheev_sign one_site_inst false false 0 [0; 0].
Proof.
  exists [[one_site_entry [0; 0]]], [], [].
  split; [apply one_site_hamilt|]. split; [|discriminate].
  unfold zheev_sign. rewrite one_site_entry_re, cos_0.
  destruct (Rlt_dec (2 * 1) 0); [lra|reflexivity].
Qed.

Lemma one_site_fails_at_PI :
  zheev_fails_on zheev_sign one_site_inst false false 0 [PI; 0]
    [[one_site_entry [PI; 0]]].
Proof.
  split; [apply one_site_hamilt|].
  unfold zheev_sign. cbn [snd]. rewrite one_site_entry_re, cos_PI.
  destruct (Rlt_dec (2 * -1) 0); [discriminate|lra].
Qed.

(** C7, as stated, does not hold: no function of the raised error gives the
    index of the failing k-point, since the error is the same value whether
    the first or the second k-point fails. *)
Lemma C7_error_does_not_tell_the_k_point :
  ~ (exists index_of : exn -> nat,
       forall zheev get_pk s pre k post vec pmk elec_field Hk e tr,
         Forall (step_passes zheev s vec pmk elec_field) pre ->
         zheev_fails_on zheev s vec pmk elec_field k Hk ->
         diag_kpts zheev get_pk s (pre ++ k :: post) vec pmk elec_field
         = (inl e, tr) ->
         index_of e = length pre).
Proof.
  intros [index_of Hidx].
  assert (Hnone : Forall (step_passes zheev_sign one_site_inst false false 0) [])
    by constructor.
  assert (Hone : Forall (step_passes zheev_sign one_site_inst false false 0) [[0; 0]])
    by (constructor; [exact one_site_passes_at_0|constructor]).
  destruct (diag_kpts_fails_at zheev_sign get_pk_none one_site_inst
              [] [PI; 0] [] false false 0 _ Hnone one_site_fails_at_PI)
    as (trA & HA & _).
  destruct (diag_kpts_fails_at zheev_sign get_pk_none one_site_inst
              [[0; 0]] [PI; 0] [] false false 0 _ Hone one_site_fails_at_PI)
    as (trB & HB & _).
  pose proof (Hidx _ _ _ _ _ _ _ _ _ _ _ _ Hnone one_site_fails_at_PI HA) as H0.
  pose proof (Hidx _ _ _ _ _ _ _ _ _ _ _ _ Hone one_site_fails_at_PI HB) as H1.
  cbn in H0, H1. congruence.
Qed.

(** C7 (amended): when the eigensolver reports a nonzero status for a
    k-point of [diag_kpts], all earlier ones having gone through, the call
    raises [ValueError('zheev failed')] there: the eigensolver has been
    called once per k-point up to and including the failing one (no retry),
    and later k-points are not visited.  The error carries that fixed
    message only; the failing k-point shows in the progress line
    ['i/len(kpts) k'] (counting from 1) printed just before its solve. *)
Theorem C7_zheev_failure_raises
    (zheev : CMat -> Z -> list R * CMat * Z)
    (get_pk : list R -> list R -> list Z -> Z -> Z -> CMat -> Mat -> list Z -> list R)
    (s : Inst) (pre : list (list R)) (k : list R) (post : list (list R))
    (vec pmk : bool) (elec_field : R) (Hk : CMat) :
  Forall (step_passes zheev s vec pmk elec_field) pre ->
  zheev_fails_on zheev s vec pmk elec_field k Hk ->
  exists tr,
    diag_kpts zheev get_pk s (pre ++ k :: post) vec pmk elec_field
    = (inl zheev_error,
       tr ++ [Printed (progress_line (Z.of_nat (length pre) + 1)
                         (length (pre ++ k :: post)));
              ZheevCalled Hk (vec_calc_of vec pmk)]) /\
    zheev_calls tr = length pre /\
    zheev_calls (tr ++ [Printed (progress_line (Z.of_nat (length pre) + 1)
                                   (length (pre ++ k :: post)));
                        ZheevCalled Hk (vec_calc_of vec pmk)])
    = S (length pre).
Proof.
  intros Hpre Hfail.
  destruct (diag_kpts_fails_at zheev get_pk s pre k post vec pmk elec_field Hk
              Hpre Hfail) as (tr & Hrun & Hn).
  exists tr. split; [exact Hrun|]. split; [exact Hn|].
  rewrite zheev_calls_app, Hn. cbn. lia.
Qed.

Lemma C7_zheev_failure_raises_witness :
  exists tr,
    diag_kpts zheev_sign get_pk_none one_site_inst [[0; 0]; [PI; 0]; [0; 0]]
      false false 0
    = (inl zheev_error,
       tr ++ [Printed (progress_line 2 3);
              ZheevCalled [[one_site_entry [PI; 0]]] 0%Z]) /\
    zheev_calls tr = 1%nat /\
    zheev_calls (tr ++ [Printed (progress_line 2 3);
                        ZheevCalled [[one_site_entry [PI; 0]]] 0%Z]) = 2%nat.
Proof.
  apply (C7_zheev_failure_raises zheev_sign get_pk_none one_site_inst
           [[0; 0]] [PI; 0] [[0; 0]] false false 0 [[one_site_entry [PI; 0]]]).
  - constructor; [exact one_site_passes_at_0|constructor].
  - exact one_site_fails_at_PI.
Defined.

(** * The rotation of the top layer *)

Section Rotation.





End Rotation.



(** * The two layers of a moiré structure share their supercell *)

Section Coincidence.

Context `{SS : StructureService} `{FS : FloatService}.

(** What [merge_sublatts] leaves alone, however it ends. *)
Lemma merge_sublatts_frame b0 b1 t0 t1 s r s' :
  merge_sublatts b0 b1 t0 t1 s = (r, s') ->
  latt_vec_bott s' = latt_vec_bott s /\ latt_vec_top s' = latt_vec_top s /\
  a s' = a s /\ h s' = h s /\ rotate_cent s' = rotate_cent s /\
  hoppings s' = hoppings s /\ twist_angle s' = twist_angle s.
Proof.
  unfold merge_sublatts. unfold_m. cbn.
  destruct (latt_vec_bott s) as [lvb|] eqn:Hb; cbn.
  2:{ intros [= _ <-]. cbn. rewrite Hb. auto 10. }
  destruct (latt_vec_top s) as [lvt|] eqn:Ht; cbn.
  2:{ intros [= _ <-]. cbn. rewrite Hb, Ht. auto 10. }
  intros [= _ <-]. cbn. rewrite Hb, Ht. auto 10.
Qed.




End Coincidence.



(** * The 30° approximant: strained top layer and site count *)

Section ApproximantGeometry.

Context `{SS : StructureService}.

Lemma det3_supercell_bott_30 n : det3 (supercell_bott_30 n) = (3 * n^2)%Z.
Proof. unfold det3, supercell_bott_30. ring. Qed.

Lemma det3_supercell_top_30 N : det3 (supercell_top_30 N) = (N^2)%Z.
Proof. unfold det3, supercell_top_30. ring. Qed.

Lemma n_top_of_0 : n_top_of 0 = 0%Z.
Proof. rewrite n_top_of_eq by lia. reflexivity. Qed.

(** An admissible [n_bottom] and its [n_top] are not zero. *)
Lemma admissible_nonzero n :
  ~ inadmissible n -> n <> 0%Z /\ n_top_of n <> 0%Z.
Proof.
  unfold inadmissible. intros Hgood. split.
  - intros ->. apply Hgood. left. rewrite n_top_of_0. discriminate.
  - intros H0. apply Hgood. right. rewrite H0. reflexivity.
Qed.

(** A returning [TBG30Approximant.make_structure], statement by statement. *)
Lemma TBG30Approximant_make_structure_inr n_bottom s s' :
  TBG30Approximant_make_structure n_bottom s = (inr tt, s') ->
  let N := n_top_of n_bottom in
  let a_top := 3 * (a s / sqrt 3) * IZR n_bottom / IZR N in
  ~ inadmissible n_bottom /\
  (exists lvb, hex_bott (a s) = inr lvb /\ latt_vec_bott s' = Some lvb) /\
  latt_vec_top s' =
    Some (mat_scale a_top [[1; 0; 0]; [1 / 2; sqrt 3 / 2; 0]; [0; 0; 100 / a_top]]) /\
  layer_nsites s' = Some [(6 * n_bottom^2)%Z; (2 * N^2)%Z] /\
  layer_nsites_sublatt s' =
    Some [((3 * n_bottom^2)%Z, (3 * n_bottom^2)%Z); ((N^2)%Z, (N^2)%Z)] /\
  nsite s' = Some (6 * n_bottom^2 + 2 * N^2)%Z /\
  (exists cs, coords s' = Some cs /\
              Z.of_nat (length cs) = (6 * n_bottom^2 + 2 * N^2)%Z) /\
  hoppings s' = hoppings s /\ a s' = a s /\ h s' = h s.
Proof.
  intros Hrun N a_top.
  destruct (inadmissible_dec n_bottom) as [Hbad|Hgood].
  { destruct (TBG30Approximant_rejects n_bottom s Hbad) as [Hr|Hr];
      rewrite Hr in Hrun; discriminate. }
  split; [exact Hgood|].
  destruct (admissible_nonzero n_bottom Hgood) as [Hn HN]. fold N in HN.
  revert Hrun. unfold TBG30Approximant_make_structure.
  unfold mbind at 1, M_bind at 1, bind at 1, read at 1. cbv zeta.
  destruct (negb _); [discriminate|].
  destruct (_ =? 0)%Z; [discriminate|].
  fold N. fold a_top. intros Hrun.
  apply bind_inr in Hrun as ([[[b0 b1] t0] t1] & s1 & Hprim & Hmerge).
  pose proof (merge_sublatts_frame _ _ _ _ _ _ _ Hmerge)
    as (Hb & Ht & Ha & Hh & _ & Hhop & _).
  apply merge_sublatts_inr in Hmerge. cbn zeta in Hmerge.
  destruct Hmerge as (H1 & H2 & H3 & H4 & _).
  rewrite Hb, Ht, Ha, Hh, Hhop. clear Hb Ht Ha Hh Hhop.
  revert Hprim H1 H2 H3 H4.
  unfold TBG30Approximant_pmg_sublatts_prim. unfold_m. cbn.
  destruct (hex_bott (a s)) as [e|lvb]; cbn; [discriminate|].
  destruct (rotate_cent s) as [rc|]; cbn; [|discriminate].
  destruct (sublatt_sites rc 0) as [sb|]; cbn; [|discriminate].
  destruct (sublatt_sites rc (h s / 100)) as [st|]; cbn; [|discriminate].
  intros [= <- <- <- <- <-]. cbn.
  rewrite !num_sites_make_supercell
    by (rewrite ?det3_supercell_bott_30, ?det3_supercell_top_30; nia).
  rewrite !det3_supercell_bott_30, !det3_supercell_top_30, !num_sites_pmg_struct.
  cbn [length].
  assert (Hcb : Z.of_nat (Z.abs_nat (3 * n_bottom^2) * 1) = (3 * n_bottom^2)%Z) by nia.
  assert (Hct : Z.of_nat (Z.abs_nat (N^2) * 1) = (N^2)%Z) by nia.
  rewrite Hcb, Hct.
  intros H1 H2 H3 H4.
  split; [eauto|]. split; [reflexivity|].
  split; [rewrite H1; do 2 f_equal; [lia | f_equal; lia]|].
  split; [exact H2|].
  split; [rewrite H4; f_equal; lia|].
  split; [|auto].
  eexists. split; [exact H3|].
  rewrite !length_app, !length_cart_coords.
  rewrite !num_sites_make_supercell
    by (rewrite ?det3_supercell_bott_30, ?det3_supercell_top_30; nia).
  rewrite !det3_supercell_bott_30, !det3_supercell_top_30, !num_sites_pmg_struct.
  cbn [length]. nia.
Qed.



End ApproximantGeometry.



(** X4: [TBG30Approximant.make_structure(n_bottom)] builds
    [6·n_bottom² + 2·n_top²] sites: the bottom transform has determinant
    [3·n_bottom²] and the top one [n_top²], and each multiplies two one-site
    sublattices; the bottom layer holds [6·n_bottom²] of the sites and the
    top layer [2·n_top²]. *)
Theorem TBG30Approximant_site_count `{SS : StructureService}
    (n_bottom : Z) (s s' : Inst) :
  TBG30Approximant_make_structure n_bottom s = (inr tt, s') ->
  det3 (supercell_bott_30 n_bottom) = (3 * n_bottom^2)%Z /\
  det3 (supercell_top_30 (n_top_of n_bottom)) = ((n_top_of n_bottom)^2)%Z /\
  layer_nsites s' = Some [(6 * n_bottom^2)%Z; (2 * (n_top_of n_bottom)^2)%Z] /\
  nsite s' = Some (6 * n_bottom^2 + 2 * (n_top_of n_bottom)^2)%Z /\
  exists cs, coords s' = Some cs /\
             Z.of_nat (length cs) = (6 * n_bottom^2 + 2 * (n_top_of n_bottom)^2)%Z.
Proof.
  intros Hrun.
  apply TBG30Approximant_make_structure_inr in Hrun. cbv zeta in Hrun.
  destruct Hrun as (_ & _ & _ & Hl & _ & Hn & Hc & _).
  split; [apply det3_supercell_bott_30|].
  split; [apply det3_supercell_top_30|]. auto.
Qed.

Lemma TBG30Approximant_site_count_witness :
  exists s',
    TBG30Approximant_make_structure (SS := RefService.service) 3 tbg30_default
    = (inr tt, s') /\
    nsite s' = Some (6 * 3^2 + 2 * (n_top_of 3)^2)%Z.
Proof.
  destruct (TBG30Approximant_accepts (SS := RefService.service) 3 tbg30_default
              admissible_3) as (_ & _ & Hok).
  destruct Hok as [s' Hrun]; [cbn; lra | left; reflexivity |].
  exists s'. split; [exact Hrun|].
  apply (TBG30Approximant_site_count (SS := RefService.service) 3 tbg30_default s' Hrun).
Defined.

(** * Inputs of [CommensuStruct.make_structure] *)

Section CommensuInputs.

Context `{SS : StructureService} `{FS : FloatService}.





End CommensuInputs.



(** * How the two moiré builders fail *)

Section BuilderFailures.

Context `{SS : StructureService} `{FS : FloatService}.

Lemma CommensuStruct_prim_inl m n s e s' :
  CommensuStruct_pmg_sublatts_prim m n s = (inl e, s') ->
  s' = s /\
  (e = ZeroDivisionError /\ (a s = 0 \/ (m, n) = (0%Z, 0%Z)) \/
   e = AttributeError "rotate_cent" /\ rotate_cent s = None \/
   e = UnboundLocalError "sites_bott" /\
   exists rc, rotate_cent s = Some rc /\ rc <> "atom"%string /\ rc <> "hole"%string).
Proof.
  unfold CommensuStruct_pmg_sublatts_prim. unfold_m. cbn.
  destruct (hex_bott (a s)) as [e0|lvb] eqn:Hb; cbn.
  { intros [= <- <-]. split; [reflexivity|]. left.
    unfold hex_bott, py_fdiv in Hb.
    destruct (Req_dec_T (a s) 0); [|discriminate].
    injection Hb as <-. auto. }
  unfold rotate_mat_mn.
  destruct (2 * (n^2 + m^2 + m*n) =? 0)%Z eqn:Hd; cbn.
  { intros [= <- <-]. split; [reflexivity|]. left.
    apply mn_form_zero in Hd. auto. }
  destruct (rotate_cent s) as [rc|]; cbn.
  2:{ intros [= <- <-]. auto. }
  destruct (sublatt_sites rc 0) as [sb|] eqn:Hsb; cbn.
  2:{ intros [= <- <-]. split; [reflexivity|]. right. right.
      split; [reflexivity|]. exists rc. split; [reflexivity|].
      split; intros ->; discriminate. }
  destruct (sublatt_sites rc (h s / 100)) as [st|] eqn:Hst; cbn.
  2:{ exfalso.
      assert (Hv : is_Some (sublatt_sites rc 0)) by eauto.
      apply sublatt_sites_Some in Hv.
      apply (sublatt_sites_Some rc (h s / 100)) in Hv.
      rewrite Hst in Hv. destruct Hv as [? [=]]. }
  discriminate.
Qed.

Lemma CommensuStruct_make_structure_inl m n s e s' :
  CommensuStruct_make_structure m n s = (inl e, s') ->
  s' = s /\
  (e = ZeroDivisionError /\ (a s = 0 \/ (m, n) = (0%Z, 0%Z)) \/
   e = AttributeError "rotate_cent" /\ rotate_cent s = None \/
   e = UnboundLocalError "sites_bott" /\
   exists rc, rotate_cent s = Some rc /\ rc <> "atom"%string /\ rc <> "hole"%string).
Proof.
  unfold CommensuStruct_make_structure. intros Hrun.
  apply bind_inl in Hrun as [Hprim|([[[b0 b1] t0] t1] & s1 & Hprim & Hrun)].
  { apply CommensuStruct_prim_inl. exact Hprim. }
  exfalso.
  apply CommensuStruct_prim_inr in Hprim as (_ & _ & _ & _ & _ & Hb & Ht).
  apply bind_inl in Hrun as [Hmerge|([] & s2 & _ & Hrun)]; [|discriminate].
  destruct (merge_sublatts_ok
              (make_supercell b0 (supercell_bott_mn m n))
              (make_supercell b1 (supercell_bott_mn m n))
              (make_supercell t0 (supercell_top_mn m n))
              (make_supercell t1 (supercell_top_mn m n)) s1 Hb Ht) as [s2 Hok].
  rewrite Hok in Hmerge. discriminate.
Qed.

Lemma CommensuStruct_make_structure_inputs m n s s' :
  CommensuStruct_make_structure m n s = (inr tt, s') ->
  a s <> 0 /\ (m, n) <> (0%Z, 0%Z) /\
  (rotate_cent s = Some "atom"%string \/ rotate_cent s = Some "hole"%string).
Proof.
  unfold CommensuStruct_make_structure. intros Hrun.
  apply bind_inr in Hrun as ([[[b0 b1] t0] t1] & s1 & Hprim & _).
  revert Hprim. unfold CommensuStruct_pmg_sublatts_prim. unfold_m. cbn.
  destruct (hex_bott (a s)) as [e|lvb] eqn:Hb; cbn; [discriminate|].
  unfold rotate_mat_mn.
  destruct (2 * (n^2 + m^2 + m*n) =? 0)%Z eqn:Hd; cbn; [discriminate|].
  destruct (rotate_cent s) as [rc|]; cbn; [|discriminate].
  destruct (sublatt_sites rc 0) as [sb|] eqn:Hsb; cbn; [|discriminate].
  intros _. split; [eapply hex_bott_inv; exact Hb|]. split.
  - intros Hmn. apply mn_form_zero in Hmn. congruence.
  - assert (Hv : is_Some (sublatt_sites rc 0)) by eauto.
    apply sublatt_sites_Some in Hv as [-> | ->]; auto.
Qed.

End BuilderFailures.

(** X6: [CommensuStruct.make_structure(m, n)] returns exactly when [a] is not
    zero, [(m, n)] is not [(0, 0)] and [rotate_cent] is ['atom'] or
    ['hole'].  Otherwise it raises a [ZeroDivisionError] (for [a = 0] or
    [m = n = 0]), an [AttributeError] (no [rotate_cent]) or an
    [UnboundLocalError] (another [rotate_cent]), and the instance is left
    exactly as it was: every attribute is written after the last statement
    that can fail. *)
Theorem CommensuStruct_make_structure_all_or_nothing `{SS : StructureService}
    `{FS : FloatService}
    (m n : Z) (s : Inst) :
  ((exists s', CommensuStruct_make_structure m n s = (inr tt, s')) <->
   a s <> 0 /\ (m, n) <> (0%Z, 0%Z) /\
   (rotate_cent s = Some "atom"%string \/ rotate_cent s = Some "hole"%string)) /\
  (forall e s', CommensuStruct_make_structure m n s = (inl e, s') ->
     s' = s /\
     (e = ZeroDivisionError /\ (a s = 0 \/ (m, n) = (0%Z, 0%Z)) \/
      e = AttributeError "rotate_cent" /\ rotate_cent s = None \/
      e = UnboundLocalError "sites_bott" /\
      exists rc, rotate_cent s = Some rc /\
                 rc <> "atom"%string /\ rc <> "hole"%string)).
Proof.
  split; [|apply CommensuStruct_make_structure_inl].
  split.
  - intros [s' Hrun]. eapply CommensuStruct_make_structure_inputs. exact Hrun.
  - intros (Ha & Hmn & Hrc). now apply CommensuStruct_make_structure_ok.
Qed.

(** X7: [TBG30Approximant.make_structure] is not all-or-nothing: with an
    admissible [n_bottom] and a [rotate_cent] that is neither ['hole'] nor
    ['atom'] it raises an [UnboundLocalError] after it has overwritten
    [latt_vec_bott] and [latt_vec_top], and nothing else. *)
Theorem TBG30Approximant_unknown_centre `{SS : StructureService}
    (n_bottom : Z) (s : Inst) (rc : string) :
  ~ inadmissible n_bottom -> a s <> 0 ->
  rotate_cent s = Some rc -> rc <> "hole"%string -> rc <> "atom"%string ->
  exists lvb lvt,
    TBG30Approximant_make_structure n_bottom s
    = (inl (UnboundLocalError "sites_bott"),
       set_latt_vec_top lvt (set_latt_vec_bott lvb s)) /\
    hex_bott (a s) = inr lvb.
Proof.
  intros Hgood Ha Hrc Hho Hat. unfold inadmissible in Hgood.
  destruct (hex_bott_inr _ Ha) as [lvb Hb].
  exists lvb. eexists. split; [|exact Hb].
  unfold TBG30Approximant_make_structure.
  unfold mbind at 1, M_bind at 1, bind at 1, read at 1. cbv zeta.
  destruct (Z.eqb_spec (Z.gcd n_bottom (n_top_of n_bottom)) 1) as [Hg|Hg];
    [|exfalso; apply Hgood; left; exact Hg].
  cbn [negb].
  destruct (Z.eqb_spec (n_top_of n_bottom mod 3) 0) as [Hm|Hm];
    [exfalso; apply Hgood; right; exact Hm|].
  unfold TBG30Approximant_pmg_sublatts_prim. unfold_m. cbn.
  rewrite Hb. cbn. rewrite Hrc. cbn. unfold sublatt_sites.
  destruct (String.eqb_spec rc "atom"); [contradiction|].
  destruct (String.eqb_spec rc "hole"); [contradiction|].
  cbn. reflexivity.
Qed.

Lemma TBG30Approximant_unknown_centre_witness :
  exists lvb lvt,
    TBG30Approximant_make_structure (SS := RefService.service) 3
      (TBG30Approximant_init 2.46 3.349 "bond")
    = (inl (UnboundLocalError "sites_bott"),
       set_latt_vec_top lvt
         (set_latt_vec_bott lvb (TBG30Approximant_init 2.46 3.349 "bond"))) /\
    hex_bott (a (TBG30Approximant_init 2.46 3.349 "bond")) = inr lvb.
Proof.
  apply (TBG30Approximant_unknown_centre (SS := RefService.service) 3
           (TBG30Approximant_init 2.46 3.349 "bond") "bond").
  - exact admissible_3.
  - cbn. lra.
  - reflexivity.
  - discriminate.
  - discriminate.
Defined.

(** * What every built structure provides *)

Section AppendEffects.

(** A returning pass of the inner loop of [append_layers]: what it read and
    what it wrote. *)
Lemma append_one_inr layer xy i s s' :
  append_one layer xy i s = (inr tt, s') ->
  exists cs lns subl llv p lv,
    coords s = Some cs /\ layer_nsites s = Some lns /\
    layer_nsites_sublatt s = Some subl /\ layer_latt_vecs s = Some llv /\
    nsites_sublatt layer s = inr (Some p) /\
    layer_latt_vec layer s = inr (Some lv) /\
    xy <> [] /\
    s' = set_layer_latt_vecs (llv ++ [lv])
           (set_layer_nsites_sublatt (subl ++ [p])
              (set_layer_nsites (lns ++ [Z.of_nat (length xy)])
                 (set_coords (cs ++ map (fun r => r ++ [h s * IZR i]) xy) s))).
Proof.
  intros Hrun. unfold append_one in Hrun. minv Hrun.
  match goal with
  | H : (if _ then _ else _) s = _ |- _ =>
    destruct (Nat.eqb_spec (length xy) 0) as [Hz|Hz]; [discriminate|];
    unfold mret, M_ret, ret in H; injection H as _ <-
  end.
  subst.
  eexists _, _, _, _, _, _.
  split; [eassumption|]. split; [eassumption|]. split; [eassumption|].
  split; [eassumption|]. split; [eassumption|]. split; [eassumption|].
  split; [|reflexivity].
  intros ->. apply Hz. reflexivity.
Qed.

Lemma append_one_run layer xy i s cs lns subl llv p lv :
  coords s = Some cs -> layer_nsites s = Some lns ->
  layer_nsites_sublatt s = Some subl -> layer_latt_vecs s = Some llv ->
  nsites_sublatt layer s = inr (Some p) ->
  layer_latt_vec layer s = inr (Some lv) ->
  xy <> [] ->
  append_one layer xy i s
  = (inr tt,
     set_layer_latt_vecs (llv ++ [lv])
       (set_layer_nsites_sublatt (subl ++ [p])
          (set_layer_nsites (lns ++ [Z.of_nat (length xy)])
             (set_coords (cs ++ map (fun r => r ++ [h s * IZR i]) xy) s)))).
Proof.
  intros Hc Hl Hs Hv Hp Hlv Hxy. unfold append_one. unfold_m.
  destruct xy as [|r xy]; [contradiction|]. cbn [length Nat.eqb].
  rewrite Hc. cbn [layer_nsites set_coords]. rewrite Hl.
  match goal with
  | |- context [nsites_sublatt layer ?t] =>
    change (nsites_sublatt layer t) with (nsites_sublatt layer s)
  end.
  rewrite Hp. cbn [ret layer_nsites_sublatt set_layer_nsites set_coords]. rewrite Hs.
  match goal with
  | |- context [layer_latt_vec layer ?t] =>
    change (layer_latt_vec layer t) with (layer_latt_vec layer s)
  end.
  rewrite Hlv.
  cbn [ret layer_latt_vecs set_layer_nsites_sublatt set_layer_nsites set_coords].
  rewrite Hv. reflexivity.
Qed.

Lemma nsites_sublatt_elem layer s subl p :
  layer_nsites_sublatt s = Some subl ->
  nsites_sublatt layer s = inr (Some p) -> p ∈ subl.
Proof.
  intros Hs. unfold nsites_sublatt. rewrite Hs.
  destruct (is_bott_tag layer); [|destruct (is_top_tag layer)]; unfold_e;
    rewrite ?py_index_0, ?py_index_1; [| |discriminate].
  - destruct (subl !! 0%nat) as [q|] eqn:Hq; unfold_e; [|discriminate].
    intros [= <-]. eapply list_elem_of_lookup_2; exact Hq.
  - destruct (subl !! 1%nat) as [q|] eqn:Hq; unfold_e; [|discriminate].
    intros [= <-]. eapply list_elem_of_lookup_2; exact Hq.
Qed.

Lemma append_one_layers_ok layer xy i s s' :
  layers_ok s -> append_one layer xy i s = (inr tt, s') -> layers_ok s'.
Proof.
  intros (lns & subl & llv & Hl & Hs & Hv & Hne & Hls & Hlv & Hpos & Hlat & Hbot) Hrun.
  apply append_one_inr in Hrun
    as (cs & lns' & subl' & llv' & p & lv & Hc & Hl' & Hs' & Hv' & Hp & _ & _ & ->).
  rewrite Hl in Hl'. rewrite Hs in Hs'. rewrite Hv in Hv'.
  injection Hl' as <-. injection Hs' as <-. injection Hv' as <-.
  exists (lns ++ [Z.of_nat (length xy)]), (subl ++ [p]), (llv ++ [lv]).
  split; [reflexivity|]. split; [reflexivity|]. split; [reflexivity|].
  split; [intros Happ; apply app_eq_nil in Happ as [_ [=]]|].
  split; [rewrite !length_app; cbn; lia|].
  split; [rewrite !length_app; cbn; lia|].
  split; [|split; assumption].
  apply Forall_app. split; [exact Hpos|].
  constructor; [|constructor].
  rewrite Forall_forall in Hpos. apply Hpos.
  eapply nsites_sublatt_elem; eassumption.
Qed.

Lemma append_tag_layers_ok item s s' :
  layers_ok s -> append_tag item s = (inr tt, s') -> layers_ok s'.
Proof.
  destruct item as [layer heights]. intros Hok Hbody. unfold append_tag in Hbody.
  apply bind_inr in Hbody as (oxy & t1 & Hxy & Hbody).
  apply lift_inr in Hxy as [Hxy ->].
  apply bind_inr in Hbody as (xy & t2 & Hsome & Hbody).
  apply orraise_inr in Hsome as [-> ->].
  revert Hbody. apply for_each_inv; [|exact Hok].
  intros i u u'. apply append_one_layers_ok.
Qed.

Lemma append_layers_layers_ok layers s s' :
  layers_ok s -> append_layers layers s = (inr tt, s') -> layers_ok s'.
Proof.
  intros Hok Hrun. unfold append_layers in Hrun.
  apply bind_inr in Hrun as ([] & s1 & Hloop & Hrun).
  assert (Hok1 : layers_ok s1).
  { revert Hloop. apply for_each_inv; [|exact Hok].
    intros item t t'. apply append_tag_layers_ok. }
  minv Hrun. exact Hok1.
Qed.

End AppendEffects.

Section BuiltLayers.

Context `{SS : StructureService} `{FS : FloatService}.
Variable frac2cart : Mat -> Mat -> Mat.

Lemma merge_sublatts_layers_ok b0 b1 t0 t1 s s' :
  merge_sublatts b0 b1 t0 t1 s = (inr tt, s') -> layers_ok s'.
Proof.
  unfold merge_sublatts. unfold_m. cbn.
  destruct (latt_vec_bott s) as [lvb|] eqn:Hb; cbn; [|discriminate].
  destruct (latt_vec_top s) as [lvt|] eqn:Ht; cbn; [|discriminate].
  intros [= <-]. eexists _, _, _. cbn.
  split; [reflexivity|]. split; [reflexivity|]. split; [reflexivity|].
  split; [discriminate|]. split; [reflexivity|]. split; [reflexivity|].
  split; [repeat constructor; cbn; lia|].
  rewrite Hb. eauto.
Qed.

Lemma Graphene_init_layers_ok a0 h0 g :
  Graphene_init frac2cart a0 h0 = (inr tt, g) -> layers_ok g.
Proof.
  unfold Graphene_init, Graphene_init_body. unfold_m. cbn.
  unfold py_fdiv. destruct (Req_dec_T a0 0); cbn; [discriminate|].
  destruct (np_append_cols _ _) as [e|cs]; cbn; [discriminate|].
  intros [= <-]. eexists _, _, _. cbn.
  split; [reflexivity|]. split; [reflexivity|]. split; [reflexivity|].
  split; [discriminate|]. split; [reflexivity|]. split; [reflexivity|].
  split; [repeat constructor; cbn; lia|]. eauto.
Qed.

Lemma built_layers_ok s : built frac2cart s -> layers_ok s.
Proof.
  induction 1 as [s m n s' Hrun|s nb s' Hrun|a0 h0 g Hrun|s layers s' _ IH Hrun].
  - unfold CommensuStruct_make_structure in Hrun.
    apply bind_inr in Hrun as ([[[b0 b1] t0] t1] & s1 & _ & Hrun).
    apply bind_inr in Hrun as ([] & s2 & Hmerge & Hrun).
    injection Hrun as <-.
    apply merge_sublatts_layers_ok in Hmerge
      as (lns & subl & llv & H1 & H2 & H3 & H4).
    exists lns, subl, llv. cbn. auto 10.
  - revert Hrun. unfold TBG30Approximant_make_structure.
    unfold mbind at 1, M_bind at 1, bind at 1, read at 1. cbv zeta.
    destruct (negb _); [discriminate|].
    destruct (_ =? 0)%Z; [discriminate|].
    intros Hrun.
    apply bind_inr in Hrun as ([[[b0 b1] t0] t1] & s1 & _ & Hrun).
    eapply merge_sublatts_layers_ok; exact Hrun.
  - eapply Graphene_init_layers_ok; exact Hrun.
  - eapply append_layers_layers_ok; eassumption.
Qed.

End BuiltLayers.

(** * Index ranges of layers and sublattices *)

Section PrefixSums.

Lemma py_sum_cons c l : py_sum (c :: l) = (c + py_sum l)%Z.
Proof. reflexivity. Qed.

Lemma py_sum_take_S lns i c :
  lns !! i = Some c -> py_sum (take (S i) lns) = (py_sum (take i lns) + c)%Z.
Proof.
  intros H. rewrite (take_S_r _ _ _ H), py_sum_app.
  change (py_sum [c]) with (c + 0)%Z. lia.
Qed.

Lemma py_sum_take_nonneg lns i :
  Forall (fun c => (0 <= c)%Z) lns -> (0 <= py_sum (take i lns))%Z.
Proof. intros Hpos. apply py_sum_nonneg. now apply Forall_take. Qed.

Lemma py_sum_take_mono lns i j :
  Forall (fun c => (0 <= c)%Z) lns -> (i <= j)%nat ->
  (py_sum (take i lns) <= py_sum (take j lns))%Z.
Proof.
  intros Hpos. revert i j.
  induction Hpos as [|c l Hc Hl IH]; intros i j Hij.
  - rewrite !take_nil. lia.
  - destruct i as [|i]; destruct j as [|j]; cbn [take]; try lia.
    + rewrite py_sum_cons. pose proof (py_sum_take_nonneg l j Hl).
      change (py_sum []) with 0%Z. lia.
    + rewrite !py_sum_cons. specialize (IH i j). lia.
Qed.

Lemma py_sum_take_all lns : py_sum (take (length lns) lns) = py_sum lns.
Proof. now rewrite firstn_all. Qed.

(** Every index below the total falls in the range of some layer. *)
Lemma prefix_cover lns k :
  Forall (fun c => (0 <= c)%Z) lns -> (0 <= k < py_sum lns)%Z ->
  exists i c, lns !! i = Some c /\
              (py_sum (take i lns) <= k < py_sum (take i lns) + c)%Z.
Proof.
  intros Hpos. revert k.
  induction Hpos as [|c0 l Hc Hl IH]; intros k Hk.
  - change (py_sum []) with 0%Z in Hk. lia.
  - rewrite py_sum_cons in Hk.
    destruct (Z_lt_ge_dec k c0) as [Hlt|Hge].
    + exists 0%nat, c0. split; [reflexivity|]. cbn [take].
      change (py_sum []) with 0%Z. lia.
    + destruct (IH (k - c0)%Z ltac:(lia)) as (i & c & Hi & Hr).
      exists (S i), c. split; [exact Hi|]. cbn [take].
      rewrite py_sum_cons. lia.
Qed.

(** The ranges of two different layers do not meet. *)
Lemma prefix_unique lns k i c i' c' :
  Forall (fun c => (0 <= c)%Z) lns ->
  lns !! i = Some c -> lns !! i' = Some c' ->
  (py_sum (take i lns) <= k < py_sum (take i lns) + c)%Z ->
  (py_sum (take i' lns) <= k < py_sum (take i' lns) + c')%Z ->
  i = i'.
Proof.
  intros Hpos Hi Hi' Hk Hk'.
  destruct (lt_eq_lt_dec i i') as [[Hlt|Heq]|Hgt]; [|exact Heq|].
  - pose proof (py_sum_take_mono lns (S i) i' Hpos ltac:(lia)) as Hm.
    rewrite (py_sum_take_S _ _ _ Hi) in Hm. lia.
  - pose proof (py_sum_take_mono lns (S i') i Hpos ltac:(lia)) as Hm.
    rewrite (py_sum_take_S _ _ _ Hi') in Hm. lia.
Qed.

Lemma layer_inds_inr s lns :
  layer_nsites s = Some lns ->
  exists linds,
    layer_inds s = inr linds /\ length linds = length lns /\
    forall i, linds !! i
              = (fun c => (py_sum (take i lns),
                           (py_sum (take i lns) + c - 1)%Z)) <$> lns !! i.
Proof.
  intros Hl. unfold layer_inds. rewrite Hl. unfold_e.
  eexists. split; [reflexivity|]. split; [apply length_imap|].
  intros i. apply list_lookup_imap.
Qed.

End PrefixSums.

(** X8: On every structure that the builders and [append_layers] produce,
    [_layer_inds] returns one closed index range per layer, holding as many
    indices as the layer has sites; the ranges lie in [0, nsite) and every
    site index belongs to the range of exactly one layer. *)
Theorem layer_inds_partition `{SS : StructureService} `{FS : FloatService}
    (frac2cart : Mat -> Mat -> Mat) (s : Inst) :
  built frac2cart s ->
  exists lns n linds,
    layer_nsites s = Some lns /\ nsite s = Some n /\
    layer_inds s = inr linds /\ length linds = length lns /\
    (forall i c, lns !! i = Some c ->
       exists lo, linds !! i = Some (lo, (lo + c - 1)%Z)) /\
    (forall i r k, linds !! i = Some r -> in_range r k -> (0 <= k < n)%Z) /\
    (forall k, (0 <= k < n)%Z ->
       exists i r, linds !! i = Some r /\ in_range r k /\
                   forall i' r', linds !! i' = Some r' -> in_range r' k -> i' = i).
Proof.
  intros Hb.
  destruct (built_counts frac2cart s Hb)
    as [(lns & subl & cs & Hl & Hs & Hc & Hsum & Hsub & Hpos)
        (lns' & subl' & cs' & n & Hl' & _ & _ & Hn & Hsum' & _)].
  rewrite Hl in Hl'. injection Hl' as <-.
  destruct (layer_inds_inr s lns Hl) as (linds & Hli & Hlen & Hlook).
  exists lns, n, linds.
  split; [exact Hl|]. split; [exact Hn|]. split; [exact Hli|].
  split; [exact Hlen|]. split; [|split].
  - intros i c Hi. eexists. rewrite Hlook, Hi. reflexivity.
  - intros i r k Hr Hin. rewrite Hlook in Hr.
    destruct (lns !! i) as [c|] eqn:Hi; [|discriminate].
    injection Hr as <-. unfold in_range in Hin. cbn [fst snd] in Hin.
    pose proof (py_sum_take_nonneg lns i Hpos).
    pose proof (py_sum_take_mono lns (S i) (length lns) Hpos
                  (lookup_lt_Some _ _ _ Hi)) as Hm.
    rewrite (py_sum_take_S _ _ _ Hi), py_sum_take_all in Hm. lia.
  - intros k Hk.
    destruct (prefix_cover lns k Hpos ltac:(lia)) as (i & c & Hi & Hr).
    exists i, (py_sum (take i lns), (py_sum (take i lns) + c - 1)%Z).
    split; [rewrite Hlook, Hi; reflexivity|].
    split; [unfold in_range; cbn [fst snd]; lia|].
    intros i' r' Hr' Hin'. rewrite Hlook in Hr'.
    destruct (lns !! i') as [c'|] eqn:Hi'; [|discriminate].
    injection Hr' as <-. unfold in_range in Hin'. cbn [fst snd] in Hin'.
    eapply (prefix_unique lns k i' c' i c); try eassumption; lia.
Qed.

Lemma layer_inds_partition_witness :
  exists s lns n linds,
    built (SS := RefService.service) (FS := RefFloat.service) frac2cart_ref s /\
    layer_nsites s = Some lns /\ nsite s = Some n /\
    layer_inds s = inr linds /\ length linds = length lns /\
    (forall i c, lns !! i = Some c ->
       exists lo, linds !! i = Some (lo, (lo + c - 1)%Z)) /\
    (forall i r k, linds !! i = Some r -> in_range r k -> (0 <= k < n)%Z) /\
    (forall k, (0 <= k < n)%Z ->
       exists i r, linds !! i = Some r /\ in_range r k /\
                   forall i' r', linds !! i' = Some r' -> in_range r' k -> i' = i).
Proof.
  destruct graphene_trilayer_run as (g & s' & Hg & Happ & _).
  assert (Hb : built (SS := RefService.service)
        (FS := RefFloat.service) frac2cart_ref s').
  { eapply built_append; [|exact Happ]. eapply built_graphene. exact Hg. }
  destruct (layer_inds_partition (SS := RefService.service)
        (FS := RefFloat.service) frac2cart_ref s' Hb)
    as (lns & n & linds & H).
  exists s', lns, n, linds. split; [exact Hb | exact H].
Defined.

Section Sublattices.

Lemma layer_inds_sublatt_inr s lns subl :
  layer_nsites s = Some lns -> layer_nsites_sublatt s = Some subl ->
  length subl = length lns ->
  exists out,
    layer_inds_sublatt s = inr out /\ length out = length lns /\
    forall i y, out !! i = Some y ->
      exists c p, lns !! i = Some c /\ subl !! i = Some p /\
        y = ((py_sum (take i lns), (py_sum (take i lns) + fst p - 1)%Z),
             ((py_sum (take i lns) + fst p)%Z, (py_sum (take i lns) + c - 1)%Z)).
Proof.
  intros Hl Hs Hlen.
  destruct (layer_inds_inr s lns Hl) as (linds & Hli & Hlinds & Hlook).
  unfold layer_inds_sublatt. rewrite Hli. unfold_e. rewrite Hs. unfold_e.
  match goal with
  | |- context [mapM ?f ?l] => destruct (mapM f l) as [out|] eqn:Hm
  end.
  - apply mapM_Some in Hm. exists out. split; [reflexivity|]. split.
    + apply Forall2_length in Hm. rewrite length_seq in Hm. lia.
    + intros i y Hy.
      destruct (Forall2_lookup_r _ _ _ _ _ Hm Hy) as (j & Hj & Hf).
      apply lookup_seq in Hj as [-> Hlt]. cbn in Hf.
      rewrite Hlook in Hf.
      destruct (lns !! i) as [c|] eqn:Hc; [|discriminate].
      destruct (subl !! i) as [p|] eqn:Hp; [|discriminate].
      cbn in Hf. injection Hf as <-. eauto.
  - exfalso.
    assert (Hsome : is_Some (mapM
              (fun i => li ← linds !! i; p ← subl !! i;
                        Some ((fst li, (fst li + fst p - 1)%Z),
                              ((fst li + fst p)%Z, snd li)))
              (seq 0 (length linds)))).
    { apply mapM_is_Some. apply Forall_forall. intros i Hi.
      apply list_elem_of_In, in_seq in Hi. cbn.
      destruct (lookup_lt_is_Some_2 linds i ltac:(lia)) as [li ->].
      destruct (lookup_lt_is_Some_2 subl i ltac:(lia)) as [p ->].
      cbn. eauto. }
    rewrite Hm in Hsome. destruct Hsome as [? [=]].
Qed.

Lemma species_prefix_length lns subl i :
  Forall2 (fun c p => (fst p + snd p)%Z = c) lns subl ->
  Forall (fun p => (0 <= fst p)%Z /\ (0 <= snd p)%Z) subl ->
  Z.of_nat (length (flat_map (fun '(n_s0, n_s1) =>
                                py_repeat 1%Z n_s0 ++ py_repeat 2%Z n_s1)
                             (take i subl)))
  = py_sum (take i lns).
Proof.
  intros H2. revert i.
  induction H2 as [|c p lns subl Hcp _ IH]; intros i Hpos.
  - rewrite !take_nil. reflexivity.
  - destruct i as [|i]; [reflexivity|]. cbn [take flat_map].
    inversion Hpos as [|? ? [Hp0 Hp1] Hpos']; subst.
    rewrite length_app, py_sum_cons, Nat2Z.inj_add, IH by assumption.
    destruct p as [n0 n1]. cbn [fst snd] in *. unfold py_repeat.
    rewrite length_app, !length_replicate. lia.
Qed.

Lemma species_lookup subl i n0 n1 lo :
  subl !! i = Some (n0, n1) -> (0 <= n0)%Z -> (0 <= n1)%Z ->
  Z.of_nat (length (flat_map (fun '(n_s0, n_s1) =>
                                py_repeat 1%Z n_s0 ++ py_repeat 2%Z n_s1)
                             (take i subl))) = lo ->
  forall k,
    ((lo <= k <= lo + n0 - 1)%Z ->
     flat_map (fun '(n_s0, n_s1) => py_repeat 1%Z n_s0 ++ py_repeat 2%Z n_s1) subl
       !! Z.to_nat k = Some 1%Z) /\
    ((lo + n0 <= k <= lo + n0 + n1 - 1)%Z ->
     flat_map (fun '(n_s0, n_s1) => py_repeat 1%Z n_s0 ++ py_repeat 2%Z n_s1) subl
       !! Z.to_nat k = Some 2%Z).
Proof.
  intros Hi Hn0 Hn1 Hlo k.
  rewrite <- (take_drop_middle subl i (n0, n1) Hi) at 1 2.
  rewrite !flat_map_app. cbn [flat_map].
  set (pre := flat_map _ (take i subl)) in *.
  set (post := flat_map _ (drop (S i) subl)).
  unfold py_repeat. split; intros Hk.
  - rewrite lookup_app_r by lia.
    rewrite lookup_app_l by (rewrite length_app, !length_replicate; lia).
    rewrite lookup_app_l by (rewrite length_replicate; lia).
    apply lookup_replicate_2. lia.
  - rewrite lookup_app_r by lia.
    rewrite lookup_app_l by (rewrite length_app, !length_replicate; lia).
    rewrite lookup_app_r by (rewrite length_replicate; lia).
    apply lookup_replicate_2. rewrite length_replicate. lia.
Qed.

End Sublattices.

(** X9: On every structure that the builders and [append_layers] produce,
    [_layer_inds_sublatt] and [species] return and agree: the two ranges of
    a layer tile the range that [_layer_inds] gives to the layer, [species]
    has one label per site, the label is 1 on the first range of every
    layer and 2 on the second, and every site index is in one of them. *)
Theorem species_follows_sublattice_ranges `{SS : StructureService} `{FS : FloatService}
    (frac2cart : Mat -> Mat -> Mat) (s : Inst) :
  built frac2cart s ->
  exists n linds out sp,
    nsite s = Some n /\ layer_inds s = inr linds /\
    layer_inds_sublatt s = inr out /\ species s = inr sp /\
    Z.of_nat (length sp) = n /\ length out = length linds /\
    (forall i r1 r2, out !! i = Some (r1, r2) ->
       exists lo hi, linds !! i = Some (lo, hi) /\
                     fst r1 = lo /\ fst r2 = (snd r1 + 1)%Z /\ snd r2 = hi) /\
    (forall i r1 r2 k, out !! i = Some (r1, r2) ->
       (in_range r1 k -> sp !! Z.to_nat k = Some 1%Z) /\
       (in_range r2 k -> sp !! Z.to_nat k = Some 2%Z)) /\
    (forall k, (0 <= k < n)%Z ->
       exists i r1 r2, out !! i = Some (r1, r2) /\
                       (in_range r1 k \/ in_range r2 k)).
Proof.
  intros Hb.
  destruct (built_counts frac2cart s Hb)
    as [(lns & subl & cs & Hl & Hs & Hc & Hsum & Hsub & Hpos)
        (lns' & subl' & cs' & n & Hl' & _ & Hc' & Hn & Hsum' & _)].
  rewrite Hl in Hl'. injection Hl' as <-.
  destruct (built_layers_ok frac2cart s Hb)
    as (lns2 & subl2 & llv & Hl2 & Hs2 & _ & Hne & Hlen & _ & Hpp & _).
  rewrite Hl in Hl2. injection Hl2 as <-.
  rewrite Hs in Hs2. injection Hs2 as <-.
  destruct (layer_inds_inr s lns Hl) as (linds & Hli & Hlinds & Hlook).
  destruct (layer_inds_sublatt_inr s lns subl Hl Hs Hlen)
    as (out & Hout & Hlout & Hshape).
  assert (Hsp : species s
                = inr (flat_map (fun '(n_s0, n_s1) =>
                                   py_repeat 1%Z n_s0 ++ py_repeat 2%Z n_s1) subl)).
  { unfold species. rewrite Hs. unfold_e.
    destruct subl as [|p0 subl0]; [|reflexivity].
    destruct lns; [contradiction|discriminate]. }
  exists n, linds, out. eexists.
  split; [exact Hn|]. split; [exact Hli|]. split; [exact Hout|].
  split; [exact Hsp|]. split; [|split; [lia|split; [|split]]].
  - pose proof (species_prefix_length lns subl (length subl) Hsub Hpp) as Hlen'.
    rewrite firstn_all, Hlen, py_sum_take_all in Hlen'. lia.
  - intros i r1 r2 Hi.
    destruct (Hshape i _ Hi) as (c & p & Hci & Hpi & [= -> ->]).
    eexists _, _. rewrite Hlook, Hci. cbn. split; [reflexivity|].
    split; [reflexivity|]. split; [lia|reflexivity].
  - intros i r1 r2 k Hi.
    destruct (Hshape i _ Hi) as (c & [n0 n1] & Hci & Hpi & [= -> ->]).
    pose proof (Forall2_lookup_lr _ _ _ _ _ _ Hsub Hci Hpi) as Hc01.
    rewrite Forall_forall in Hpp.
    destruct (Hpp _ (list_elem_of_lookup_2 _ _ _ Hpi)) as [Hn0 Hn1].
    cbn [fst snd] in *.
    destruct (species_lookup subl i n0 n1 _ Hpi Hn0 Hn1
                (species_prefix_length lns subl i Hsub
                   (proj2 (Forall_forall _ _) Hpp)) k) as [H1 H2].
    unfold in_range. cbn [fst snd]. split; intros Hk; [apply H1|apply H2]; lia.
  - intros k Hk.
    destruct (prefix_cover lns k Hpos ltac:(lia)) as (i & c & Hci & Hr).
    destruct (lookup_lt_is_Some_2 out i) as [[r1 r2] Hi].
    { rewrite Hlout. eapply lookup_lt_Some; exact Hci. }
    exists i, r1, r2. split; [exact Hi|].
    destruct (Hshape i _ Hi) as (c' & [n0 n1] & Hci' & Hpi & [= -> ->]).
    rewrite Hci in Hci'. injection Hci' as <-.
    unfold in_range. cbn [fst snd].
    destruct (Z_lt_ge_dec k (py_sum (take i lns) + n0)); [left|right]; lia.
Qed.

Lemma species_follows_sublattice_ranges_witness :
  exists s n linds out sp,
    built (SS := RefService.service) (FS := RefFloat.service) frac2cart_ref s /\
    nsite s = Some n /\ layer_inds s = inr linds /\
    layer_inds_sublatt s = inr out /\ species s = inr sp /\
    Z.of_nat (length sp) = n /\ length out = length linds /\
    (forall i r1 r2, out !! i = Some (r1, r2) ->
       exists lo hi, linds !! i = Some (lo, hi) /\
                     fst r1 = lo /\ fst r2 = (snd r1 + 1)%Z /\ snd r2 = hi) /\
    (forall i r1 r2 k, out !! i = Some (r1, r2) ->
       (in_range r1 k -> sp !! Z.to_nat k = Some 1%Z) /\
       (in_range r2 k -> sp !! Z.to_nat k = Some 2%Z)) /\
    (forall k, (0 <= k < n)%Z ->
       exists i r1 r2, out !! i = Some (r1, r2) /\
                       (in_range r1 k \/ in_range r2 k)).
Proof.
  destruct graphene_trilayer_run as (g & s' & Hg & Happ & _).
  assert (Hb : built (SS := RefService.service)
        (FS := RefFloat.service) frac2cart_ref s').
  { eapply built_append; [|exact Happ]. eapply built_graphene. exact Hg. }
  destruct (species_follows_sublattice_ranges (SS := RefService.service)
        (FS := RefFloat.service)
              frac2cart_ref s' Hb) as (n & linds & out & sp & H).
  exists s', n, linds, out, sp. split; [exact Hb | exact H].
Defined.

(** * The read-only methods on built structures *)

Section Queries.

Context `{SS : StructureService}.

Lemma get_vecs_to_NNs_inr s lns llv :
  layer_nsites s = Some lns -> layer_latt_vecs s = Some llv ->
  length llv = length lns ->
  exists vecs,
    get_vecs_to_NNs s = inr vecs /\ length vecs = length lns /\
    forall i pair, vecs !! i = Some pair ->
      exists lv, llv !! i = Some lv /\
                 pair = [vec_scale (/ 3) (sum_axis0 lv);
                         vec_scale (-1) (vec_scale (/ 3) (sum_axis0 lv))].
Proof.
  intros Hl Hv Hlen. unfold get_vecs_to_NNs. rewrite Hl, Hv. unfold_e.
  match goal with
  | |- context [mapM ?f ?l] => destruct (mapM f l) as [vs|] eqn:Hm
  end.
  - apply mapM_Some in Hm. eexists. split; [reflexivity|]. split.
    + rewrite length_map. apply Forall2_length in Hm.
      rewrite length_seq in Hm. lia.
    + intros i pair Hi. rewrite list_lookup_fmap in Hi.
      destruct (vs !! i) as [v|] eqn:Hvi; [|discriminate].
      injection Hi as <-.
      destruct (Forall2_lookup_r _ _ _ _ _ Hm Hvi) as (j & Hj & Hf).
      apply lookup_seq in Hj as [-> Hlt]. cbn in Hf.
      destruct (llv !! i) as [lv|]; [|discriminate].
      injection Hf as <-. eauto.
  - exfalso.
    assert (Hsome : is_Some (mapM
              (fun i => (fun lv => vec_scale (/ 3) (sum_axis0 lv)) <$> llv !! i)
              (seq 0 (length lns)))).
    { apply mapM_is_Some. apply Forall_forall. intros i Hi.
      apply list_elem_of_In, in_seq in Hi. cbn.
      destruct (lookup_lt_is_Some_2 llv i ltac:(lia)) as [lv ->].
      cbn. eauto. }
    rewrite Hm in Hsome. destruct Hsome as [? [=]].
Qed.

End Queries.

(** X10: On every structure that the builders and [append_layers] produce,
    [get_vecs_to_NNs] and [pymatgen_struct] return: the first gives one pair
    [[v, -v]] per layer, [v] being a third of the sum of the layer's lattice
    vectors, and the second a crystal structure with [nsite] sites. *)
Theorem built_structure_queries `{SS : StructureService} `{FS : FloatService}
    (frac2cart : Mat -> Mat -> Mat) (s : Inst) :
  built frac2cart s ->
  exists n lns llv vecs st,
    nsite s = Some n /\ layer_nsites s = Some lns /\
    layer_latt_vecs s = Some llv /\
    get_vecs_to_NNs s = inr vecs /\ length vecs = length lns /\
    (forall i pair, vecs !! i = Some pair ->
       exists lv, llv !! i = Some lv /\
                  pair = [vec_scale (/ 3) (sum_axis0 lv);
                          vec_scale (-1) (vec_scale (/ 3) (sum_axis0 lv))]) /\
    pymatgen_struct s = inr st /\ Z.of_nat (num_sites st) = n.
Proof.
  intros Hb.
  destruct (built_counts frac2cart s Hb)
    as [_ (lns & subl & cs & n & Hl & _ & Hc & Hn & _ & Hlen & _)].
  destruct (built_layers_ok frac2cart s Hb)
    as (lns2 & subl2 & llv & Hl2 & _ & Hv & _ & _ & Hllv & _ & [lv Hlv] & _).
  rewrite Hl in Hl2. injection Hl2 as <-.
  destruct (get_vecs_to_NNs_inr s lns llv Hl Hv Hllv) as (vecs & Hvecs & Hvl & Hshape).
  exists n, lns, llv, vecs. eexists.
  split; [exact Hn|]. split; [exact Hl|]. split; [exact Hv|].
  split; [exact Hvecs|]. split; [exact Hvl|]. split; [exact Hshape|].
  unfold pymatgen_struct. rewrite Hlv, Hc. unfold_e.
  split; [reflexivity|]. rewrite num_sites_pmg_struct. lia.
Qed.

Lemma built_structure_queries_witness :
  exists s n lns llv vecs st,
    built (SS := RefService.service) (FS := RefFloat.service) frac2cart_ref s /\
    nsite s = Some n /\ layer_nsites s = Some lns /\
    layer_latt_vecs s = Some llv /\
    get_vecs_to_NNs s = inr vecs /\ length vecs = length lns /\
    (forall i pair, vecs !! i = Some pair ->
       exists lv, llv !! i = Some lv /\
                  pair = [vec_scale (/ 3) (sum_axis0 lv);
                          vec_scale (-1) (vec_scale (/ 3) (sum_axis0 lv))]) /\
    pymatgen_struct (SS := RefService.service) s = inr st /\
    Z.of_nat (num_sites (StructureService := RefService.service) st) = n.
Proof.
  destruct graphene_trilayer_run as (g & s' & Hg & Happ & _).
  assert (Hb : built (SS := RefService.service)
        (FS := RefFloat.service) frac2cart_ref s').
  { eapply built_append; [|exact Happ]. eapply built_graphene. exact Hg. }
  destruct (built_structure_queries (SS := RefService.service)
        (FS := RefFloat.service) frac2cart_ref s' Hb)
    as (n & lns & llv & vecs & st & H).
  exists s', n, lns, llv, vecs, st. split; [exact Hb | exact H].
Defined.

Section NearestNeighbours.

Context `{SS : StructureService} `{FS : FloatService}.


End NearestNeighbours.



(** * [append_layers] only appends *)

Section Extension.

Lemma fmap_app_nil {A} (o : option (list A)) : (fun l => l ++ []) <$> o = o.
Proof. destruct o as [l|]; cbn; [now rewrite app_nil_r|reflexivity]. Qed.

Lemma fmap_app_app {A} (o : option (list A)) (l1 l2 : list A) :
  (fun l => l ++ l2) <$> ((fun l => l ++ l1) <$> o)
  = (fun l => l ++ (l1 ++ l2)) <$> o.
Proof. destruct o as [l|]; cbn; [now rewrite app_assoc|reflexivity]. Qed.

Lemma extends_by_refl s : extends_by s s [] [].
Proof.
  unfold extends_by. rewrite !fmap_app_nil.
  split; [reflexivity|]. split; [reflexivity|].
  split; [exists []; now rewrite fmap_app_nil|].
  split; [exists []; now rewrite fmap_app_nil|]. auto 10.
Qed.

Lemma extends_by_trans s s1 s2 new1 more1 new2 more2 :
  extends_by s s1 new1 more1 -> extends_by s1 s2 new2 more2 ->
  extends_by s s2 (new1 ++ new2) (more1 ++ more2).
Proof.
  intros (Hc & Hl & (ms & Hs & Hms) & (mv & Hv & Hmv) & Ha & Hh & Hrc & Hb & Ht
          & Hlv & Htw & Hhop)
         (Hc' & Hl' & (ms' & Hs' & Hms') & (mv' & Hv' & Hmv') & Ha' & Hh' & Hrc'
          & Hb' & Ht' & Hlv' & Htw' & Hhop').
  unfold extends_by.
  rewrite Hc', Hc, Hl', Hl, !fmap_app_app.
  split; [reflexivity|]. split; [reflexivity|].
  split.
  { exists (ms ++ ms'). rewrite Hs', Hs, fmap_app_app, !length_app. auto. }
  split.
  { exists (mv ++ mv'). rewrite Hv', Hv, fmap_app_app, !length_app. auto. }
  repeat split; congruence.
Qed.

Lemma extends_by_set_nsite s s' new more v :
  extends_by s s' new more -> extends_by s (set_nsite v s') new more.
Proof. intros H. exact H. Qed.

Lemma append_one_extends layer xy i s s' :
  append_one layer xy i s = (inr tt, s') ->
  extends_by s s' (map (fun r => r ++ [h s * IZR i]) xy) [Z.of_nat (length xy)].
Proof.
  intros Hrun.
  apply append_one_inr in Hrun
    as (cs & lns & subl & llv & p & lv & Hc & Hl & Hs & Hv & _ & _ & _ & ->).
  unfold extends_by. cbn. rewrite Hc, Hl, Hs, Hv. cbn.
  split; [reflexivity|]. split; [reflexivity|].
  split; [exists [p]; auto|]. split; [exists [lv]; auto|]. auto 10.
Qed.

Lemma for_each_append_one_extends layer xy heights s s' :
  for_each heights (append_one layer xy) s = (inr tt, s') ->
  extends_by s s' (stacked_rows (h s) xy heights)
    (map (fun _ => Z.of_nat (length xy)) heights).
Proof.
  revert s. induction heights as [|i heights IH]; intros s Hrun.
  - injection Hrun as <-. apply extends_by_refl.
  - cbn [for_each] in Hrun.
    apply bind_inr in Hrun as ([] & s1 & Hone & Hrun).
    apply (append_one_extends layer) in Hone.
    apply IH in Hrun.
    assert (Hh : h s1 = h s) by apply Hone. rewrite Hh in Hrun.
    exact (extends_by_trans _ _ _ _ _ _ _ Hone Hrun).
Qed.

Lemma append_tag_extends layer heights s s' :
  append_tag (layer, heights) s = (inr tt, s') ->
  exists xy,
    coords_xy layer s = inr (Some xy) /\
    extends_by s s' (stacked_rows (h s) xy heights)
      (map (fun _ => Z.of_nat (length xy)) heights).
Proof.
  intros Hbody. unfold append_tag in Hbody.
  apply bind_inr in Hbody as (oxy & t1 & Hxy & Hbody).
  apply lift_inr in Hxy as [Hxy ->].
  apply bind_inr in Hbody as (xy & t2 & Hsome & Hbody).
  apply orraise_inr in Hsome as [-> ->].
  exists xy. split; [exact Hxy|].
  now apply (for_each_append_one_extends layer).
Qed.

Lemma stacked_rows_length h0 xy heights :
  length (stacked_rows h0 xy heights) = (length heights * length xy)%nat.
Proof.
  unfold stacked_rows. induction heights as [|i heights IH]; cbn; [reflexivity|].
  rewrite length_app, IH, length_map. reflexivity.
Qed.

Lemma py_sum_const (c : Z) {A} (l : list A) :
  py_sum (map (fun _ => c) l) = (Z.of_nat (length l) * c)%Z.
Proof.
  induction l as [|x l IH]; [reflexivity|].
  cbn [map length]. rewrite py_sum_cons, IH. lia.
Qed.

(** The loop of [append_layers] over the tags. *)
Lemma for_each_append_tag_extends layers s s' :
  for_each layers append_tag s = (inr tt, s') ->
  exists new more,
    extends_by s s' new more /\
    length more = length (flat_map snd layers) /\
    py_sum more = Z.of_nat (length new).
Proof.
  revert s. induction layers as [|[layer heights] layers IH]; intros s Hrun.
  - injection Hrun as <-. exists [], []. split; [apply extends_by_refl|]. auto.
  - cbn [for_each] in Hrun.
    apply bind_inr in Hrun as ([] & s1 & Htag & Hrun).
    apply append_tag_extends in Htag as (xy & _ & Hext).
    apply IH in Hrun as (new & more & Hext' & Hlen & Hsum).
    eexists _, _. split; [exact (extends_by_trans _ _ _ _ _ _ _ Hext Hext')|].
    cbn [flat_map snd]. rewrite !length_app, length_map, py_sum_app, Hlen.
    split; [reflexivity|].
    rewrite py_sum_const, stacked_rows_length, Hsum. lia.
Qed.

End Extension.

(** X12: A returning [append_layers] only appends: the coordinate rows and the
    per-layer lists of the instance are kept as a prefix (so every existing
    site keeps its index and position), one layer is added per height given
    in the dict, the new layer counts add up to the number of new rows, and
    [nsite] is the new number of rows.  [a], [h], the lattice vectors, the
    twist angle and the hopping table are what they were: a table computed
    before the call is not refreshed. *)
Theorem append_layers_only_appends (layers : list (string * list Z)) (s s' : Inst) :
  append_layers layers s = (inr tt, s') ->
  exists cs new more,
    coords s = Some cs /\
    extends_by s s' new more /\
    coords s' = Some (cs ++ new) /\
    nsite s' = Some (Z.of_nat (length cs + length new)) /\
    hoppings s' = hoppings s /\
    length more = length (flat_map snd layers) /\
    py_sum more = Z.of_nat (length new).
Proof.
  intros Hrun. unfold append_layers in Hrun.
  apply bind_inr in Hrun as ([] & s1 & Hloop & Hrun).
  apply for_each_append_tag_extends in Hloop as (new & more & Hext & Hlen & Hsum).
  minv Hrun.
  pose proof Hext as (Hc & _ & _ & _ & _ & _ & _ & _ & _ & _ & _ & Hhop).
  destruct (coords s) as [cs|] eqn:Hcs.
  2:{ cbn in Hc. congruence. }
  cbn in Hc. exists cs, new, more.
  split; [reflexivity|]. split; [exact Hext|].
  split; [exact Hc|]. split.
  - cbn. match goal with H : coords s1 = Some _ |- _ => rewrite Hc in H; injection H as <- end.
    now rewrite length_app.
  - split; [exact Hhop|]. auto.
Qed.

Lemma append_layers_only_appends_witness :
  exists g s' cs new more,
    Graphene_init frac2cart_ref 2.456 3.349 = (inr tt, g) /\
    append_layers [("A"%string, [(-1)%Z]); ("B"%string, [(-2)%Z])] g = (inr tt, s') /\
    coords g = Some cs /\
    extends_by g s' new more /\
    coords s' = Some (cs ++ new) /\
    nsite s' = Some (Z.of_nat (length cs + length new)) /\
    hoppings s' = hoppings g /\
    length more = 2%nat /\
    py_sum more = Z.of_nat (length new).
Proof.
  destruct graphene_trilayer_run as (g & s' & Hg & Happ & _).
  destruct (append_layers_only_appends _ g s' Happ) as (cs & new & more & H).
  exists g, s', cs, new, more. split; [exact Hg|]. split; [exact Happ | exact H].
Defined.

Section StackedLayers.

Lemma coords_xy_A s xy :
  coords_xy "A" s = inr (Some xy) ->
  exists lns nb cs,
    layer_nsites s = Some lns /\ lns !! 0%nat = Some nb /\ coords s = Some cs /\
    xy = map (take 2) (py_slice cs 0 nb).
Proof.
  unfold coords_xy. cbn [is_bott_tag String.eqb Ascii.eqb Bool.eqb orb].
  destruct (layer_nsites s) as [lns|]; unfold_e; [|discriminate].
  rewrite py_index_0.
  destruct (lns !! 0%nat) as [nb|] eqn:Hnb; unfold_e; [|discriminate].
  destruct (latt_vec_bott s) as [lvb|]; unfold_e; [|discriminate].
  destruct (coords s) as [cs|]; unfold_e; [|discriminate].
  intros [= <-]. eauto 10.
Qed.

Lemma coords_xy_B s xy :
  coords_xy "B" s = inr (Some xy) ->
  exists lns nb cs lvb a1 a2,
    layer_nsites s = Some lns /\ lns !! 0%nat = Some nb /\ coords s = Some cs /\
    latt_vec_bott s = Some lvb /\ lvb !! 0%nat = Some a1 /\ lvb !! 1%nat = Some a2 /\
    xy = map (fun r => vec_add (take 2 r)
                         (vec_scale (1 / 3) (vec_add (take 2 a1) (take 2 a2))))
             (py_slice cs 0 nb).
Proof.
  unfold coords_xy. cbn [is_bott_tag String.eqb Ascii.eqb Bool.eqb orb].
  destruct (layer_nsites s) as [lns|]; unfold_e; [|discriminate].
  rewrite py_index_0.
  destruct (lns !! 0%nat) as [nb|] eqn:Hnb; unfold_e; [|discriminate].
  destruct (latt_vec_bott s) as [lvb|]; unfold_e; [|discriminate].
  destruct (coords s) as [cs|]; unfold_e; [|discriminate].
  unfold shift_rows, sub22. rewrite !list_lookup_fmap.
  destruct (lvb !! 0%nat) as [a1|] eqn:H1.
  2:{ rewrite (lookup_take_lt lvb 2 0) by lia. rewrite H1. discriminate. }
  rewrite (lookup_take_lt lvb 2 0) by lia. rewrite H1. unfold_e.
  rewrite (lookup_take_lt lvb 2 1) by lia.
  destruct (lvb !! 1%nat) as [a2|] eqn:H2; unfold_e; [|discriminate].
  intros [= <-]. exists lns, nb, cs, lvb, a1, a2.
  repeat split; try reflexivity; try assumption.
  now rewrite map_map.
Qed.

End StackedLayers.

Lemma append_layers_single layer heights s s' :
  append_layers [(layer, heights)] s = (inr tt, s') ->
  exists xy,
    coords_xy layer s = inr (Some xy) /\
    extends_by s s' (stacked_rows (h s) xy heights)
      (map (fun _ => Z.of_nat (length xy)) heights).
Proof.
  intros Hrun. unfold append_layers in Hrun.
  apply bind_inr in Hrun as ([] & s1 & Hloop & Hrun).
  cbn [for_each] in Hloop.
  apply bind_inr in Hloop as ([] & s2 & Htag & Hret).
  injection Hret as <-.
  apply append_tag_extends in Htag as (xy & Hxy & Hext).
  minv Hrun. exists xy. split; [exact Hxy | exact Hext].
Qed.

(** X13: [append_layers({'A': heights})] appends, for every height [i] in order,
    the in-plane positions of the sites of the bottom layer (the first
    [layer_nsites[0]] rows of [coords]) at [z = h·i];
    [append_layers({'B': heights})] does the same with the positions
    shifted by a third of the sum of the two vectors of [latt_vec_bott]. *)
Theorem append_layers_stacks_bottom_layer (heights : list Z) (s s' : Inst) :
  (append_layers [("A"%string, heights)] s = (inr tt, s') ->
   exists cs lns nb,
     coords s = Some cs /\ layer_nsites s = Some lns /\ lns !! 0%nat = Some nb /\
     coords s'
     = Some (cs ++ stacked_rows (h s) (map (take 2) (py_slice cs 0 nb)) heights)) /\
  (append_layers [("B"%string, heights)] s = (inr tt, s') ->
   exists cs lns nb lvb a1 a2,
     coords s = Some cs /\ layer_nsites s = Some lns /\ lns !! 0%nat = Some nb /\
     latt_vec_bott s = Some lvb /\ lvb !! 0%nat = Some a1 /\ lvb !! 1%nat = Some a2 /\
     coords s'
     = Some (cs ++ stacked_rows (h s)
                     (map (fun r => vec_add (take 2 r)
                                      (vec_scale (1 / 3)
                                         (vec_add (take 2 a1) (take 2 a2))))
                          (py_slice cs 0 nb))
                     heights)).
Proof.
  split; intros Hrun; apply append_layers_single in Hrun as (xy & Hxy & Hext);
    destruct Hext as (Hc & _).
  - apply coords_xy_A in Hxy as (lns & nb & cs & Hl & Hnb & Hcs & ->).
    exists cs, lns, nb. rewrite Hc, Hcs. auto.
  - apply coords_xy_B in Hxy
      as (lns & nb & cs & lvb & a1 & a2 & Hl & Hnb & Hcs & Hb & H1 & H2 & ->).
    exists cs, lns, nb, lvb, a1, a2. rewrite Hc, Hcs. auto 10.
Qed.

Lemma append_layers_stacks_bottom_layer_witness :
  exists g s' cs lns nb,
    Graphene_init frac2cart_ref 2.456 3.349 = (inr tt, g) /\
    append_layers [("A"%string, [(-1)%Z; (-3)%Z])] g = (inr tt, s') /\
    coords g = Some cs /\ layer_nsites g = Some lns /\ lns !! 0%nat = Some nb /\
    coords s'
    = Some (cs ++ stacked_rows (h g) (map (take 2) (py_slice cs 0 nb))
                    [(-1)%Z; (-3)%Z]).
Proof.
  assert (Hrun : exists g s',
             Graphene_init frac2cart_ref 2.456 3.349 = (inr tt, g) /\
             append_layers [("A"%string, [(-1)%Z; (-3)%Z])] g = (inr tt, s')).
  { unfold Graphene_init, Graphene_init_body. unfold_m. cbn.
    unfold py_fdiv. destruct (Req_dec_T 2.456 0) as [H0|_]; [lra|]. cbn.
    eexists. eexists. split; [reflexivity|]. vm_compute. reflexivity. }
  destruct Hrun as (g & s' & Hg & Happ).
  destruct (proj1 (append_layers_stacks_bottom_layer [(-1)%Z; (-3)%Z] g s') Happ)
    as (cs & lns & nb & H).
  exists g, s', cs, lns, nb. split; [exact Hg|]. split; [exact Happ | exact H].
Defined.

(** X14: The tags that [append_layers] cannot serve.  A key other than ['A'],
    ['B'], ['Atld'], ['Btld'] raises a [TypeError]; ['Atld'] and ['Btld']
    raise an [IndexError] on a structure with one layer (a monolayer
    [Graphene]) and an [AttributeError] on one without [latt_vec_top].  In
    each case the first key of the dict is enough, whatever its heights,
    and the instance is left as it was. *)
Theorem append_layers_rejects (tag : string) (heights : list Z)
    (rest : list (string * list Z)) (s : Inst) :
  (tag <> "A"%string -> tag <> "B"%string ->
   tag <> "Atld"%string -> tag <> "Btld"%string ->
   append_layers ((tag, heights) :: rest) s = (inl TypeError, s)) /\
  (tag = "Atld"%string \/ tag = "Btld"%string ->
   forall lns, layer_nsites s = Some lns ->
     (length lns = 1%nat ->
      append_layers ((tag, heights) :: rest) s = (inl IndexError, s)) /\
     ((2 <= length lns)%nat -> latt_vec_top s = None ->
      append_layers ((tag, heights) :: rest) s
      = (inl (AttributeError "latt_vec_top"), s))).
Proof.
  split.
  - intros HA HB HAt HBt.
    unfold append_layers. cbn [for_each]. unfold append_tag. unfold_m.
    unfold coords_xy, is_bott_tag, is_top_tag.
    destruct (String.eqb_spec tag "A"); [contradiction|].
    destruct (String.eqb_spec tag "B"); [contradiction|].
    destruct (String.eqb_spec tag "Atld"); [contradiction|].
    destruct (String.eqb_spec tag "Btld"); [contradiction|].
    reflexivity.
  - intros Htag lns Hl.
    assert (Hb : is_bott_tag tag = false) by (destruct Htag as [-> | ->]; reflexivity).
    assert (Ht : is_top_tag tag = true) by (destruct Htag as [-> | ->]; reflexivity).
    split.
    + intros Hlen.
      destruct lns as [|nb [|nt lns]]; try discriminate.
      unfold append_layers. cbn [for_each]. unfold append_tag. unfold_m.
      unfold coords_xy. rewrite Hb, Ht, Hl. reflexivity.
    + intros Hlen Htop.
      destruct lns as [|nb [|nt lns]]; cbn in Hlen; try lia.
      unfold append_layers. cbn [for_each]. unfold append_tag. unfold_m.
      unfold coords_xy. rewrite Hb, Ht, Hl, Htop. reflexivity.
Qed.

Lemma append_layers_rejects_witness :
  exists g,
    Graphene_init frac2cart_ref 2.456 3.349 = (inr tt, g) /\
    append_layers [("Atld"%string, [2%Z])] g = (inl IndexError, g) /\
    append_layers [("C"%string, [2%Z])] g = (inl TypeError, g).
Proof.
  destruct (Graphene_init_ok frac2cart_ref 2.456 3.349) as [g Hg];
    [lra | apply frac2cart_ref_length |].
  exists g. split; [exact Hg|].
  destruct (Graphene_init_inr frac2cart_ref 2.456 3.349 g Hg) as (_ & Hl & _).
  split.
  - apply (proj2 (append_layers_rejects "Atld" [2%Z] [] g)
             (or_introl eq_refl) [2%Z] Hl).
    reflexivity.
  - apply (append_layers_rejects "C" [2%Z] [] g); discriminate.
Defined.

(** * Two calls of [append_layers] and one *)

Section Composition.

Lemma blind_bind {A B} (m : M A) (f : A -> M B) :
  nsite_blind m -> (forall x, nsite_blind (f x)) -> nsite_blind (m ≫= f).
Proof.
  intros Hm Hf v s. unfold mbind, M_bind, bind. rewrite (Hm v s).
  destruct (m s) as [[e|x] s1]; cbn [fst snd]; [reflexivity|]. apply Hf.
Qed.

Lemma blind_ret {A} (x : A) : nsite_blind (mret x).
Proof. intros v s. reflexivity. Qed.

Lemma blind_raise {A} e : nsite_blind (raise e : M A).
Proof. intros v s. reflexivity. Qed.

Lemma blind_read {A} (proj : Inst -> A) :
  (forall v s, proj (set_nsite v s) = proj s) -> nsite_blind (read proj).
Proof. intros H v s. unfold read. now rewrite H. Qed.

Lemma blind_attr {A} name (proj : Inst -> option A) :
  (forall v s, proj (set_nsite v s) = proj s) -> nsite_blind (attr name proj).
Proof. intros H v s. unfold attr. rewrite H. now destruct (proj s). Qed.

Lemma blind_lift {A} (f : Inst -> E A) :
  (forall v s, f (set_nsite v s) = f s) -> nsite_blind (lift f).
Proof. intros H v s. unfold lift. now rewrite H. Qed.

Lemma blind_orraise {A} e (o : option A) : nsite_blind (orraise e o).
Proof. intros v s. now destruct o. Qed.

Lemma blind_assign upd :
  (forall v s, upd (set_nsite v s) = set_nsite v (upd s)) ->
  nsite_blind (assign upd).
Proof. intros H v s. unfold assign. now rewrite H. Qed.

Lemma blind_for_each {A} (body : A -> M unit) (l : list A) :
  (forall x, nsite_blind (body x)) -> nsite_blind (for_each l body).
Proof.
  intros Hbody. induction l as [|x l IH]; cbn [for_each].
  - apply blind_ret.
  - apply blind_bind; [apply Hbody|]. intros _. exact IH.
Qed.

Lemma append_one_blind layer xy i : nsite_blind (append_one layer xy i).
Proof.
  unfold append_one.
  repeat first
    [ apply blind_bind; [|intros ?]
    | apply blind_read; intros ? ?; reflexivity
    | apply blind_attr; intros ? ?; reflexivity
    | apply blind_lift; intros ? ?; reflexivity
    | apply blind_orraise
    | apply blind_assign; intros ? ?; reflexivity ].
  destruct (length xy =? 0)%nat; [apply blind_raise|apply blind_ret].
Qed.

Lemma append_tag_blind item : nsite_blind (append_tag item).
Proof.
  destruct item as [layer heights]. unfold append_tag.
  apply blind_bind; [apply blind_lift; intros ? ?; reflexivity|]. intros oxy.
  apply blind_bind; [apply blind_orraise|]. intros xy.
  apply blind_for_each. intros i. apply append_one_blind.
Qed.

Lemma for_each_app {A} (body : A -> M unit) (l1 l2 : list A) s :
  for_each (l1 ++ l2) body s
  = (for_each l1 body ≫= fun _ => for_each l2 body) s.
Proof.
  revert s. induction l1 as [|x l1 IH]; intros s; cbn [app for_each].
  - reflexivity.
  - unfold mbind, M_bind, bind in *.
    destruct (body x s) as [[e|[]] s1]; [reflexivity|]. apply IH.
Qed.

Lemma append_layers_after l1 l2 s t1 :
  for_each l1 append_tag s = (inr tt, t1) ->
  append_layers (l1 ++ l2) s = append_layers l2 t1.
Proof.
  intros H1. unfold append_layers.
  unfold mbind, M_bind, bind. rewrite for_each_app.
  unfold mbind, M_bind, bind. rewrite H1. reflexivity.
Qed.

Lemma append_layers_set_nsite l v t :
  fst (append_layers l (set_nsite v t)) = fst (append_layers l t) /\
  forall s2, append_layers l (set_nsite v t) = (inr tt, s2) ->
             append_layers l t = (inr tt, s2).
Proof.
  unfold append_layers. unfold mbind, M_bind, bind.
  rewrite (blind_for_each append_tag l append_tag_blind v t).
  destruct (for_each l append_tag t) as [[e|[]] u]; cbn [fst snd].
  - split; [reflexivity|discriminate].
  - unfold attr, assign. cbn [coords set_nsite].
    destruct (coords u) as [cs|]; cbn [fst]; split; try reflexivity;
      try discriminate.
    intros s2 [= <-]. reflexivity.
Qed.

End Composition.

(** X15: Appending in two calls or in one: after a returning
    [append_layers(d1)], the call [append_layers(d2)] ends as
    [append_layers] ends on the instance before the first call with the
    items of [d1] followed by those of [d2]: with the same exception if it
    raises, and in the same instance if it returns. *)
Theorem append_layers_in_two_calls (l1 l2 : list (string * list Z)) (s s1 : Inst) :
  append_layers l1 s = (inr tt, s1) ->
  fst (append_layers l2 s1) = fst (append_layers (l1 ++ l2) s) /\
  forall s2, append_layers l2 s1 = (inr tt, s2) ->
             append_layers (l1 ++ l2) s = (inr tt, s2).
Proof.
  intros H1. unfold append_layers in H1.
  apply bind_inr in H1 as ([] & t1 & Hloop & Hfin). minv Hfin.
  rewrite (append_layers_after l1 l2 s t1 Hloop).
  apply append_layers_set_nsite.
Qed.

Lemma append_layers_in_two_calls_witness :
  exists g s1 s2,
    Graphene_init frac2cart_ref 2.456 3.349 = (inr tt, g) /\
    append_layers [("A"%string, [(-1)%Z])] g = (inr tt, s1) /\
    append_layers [("B"%string, [(-2)%Z])] s1 = (inr tt, s2) /\
    append_layers ([("A"%string, [(-1)%Z])] ++ [("B"%string, [(-2)%Z])]) g
    = (inr tt, s2).
Proof.
  assert (Hrun : exists g s1 s2,
             Graphene_init frac2cart_ref 2.456 3.349 = (inr tt, g) /\
             append_layers [("A"%string, [(-1)%Z])] g = (inr tt, s1) /\
             append_layers [("B"%string, [(-2)%Z])] s1 = (inr tt, s2)).
  { unfold Graphene_init, Graphene_init_body. unfold_m. cbn.
    unfold py_fdiv. destruct (Req_dec_T 2.456 0) as [H0|_]; [lra|]. cbn.
    eexists. eexists. eexists. split; [reflexivity|].
    split; vm_compute; reflexivity. }
  destruct Hrun as (g & s1 & s2 & Hg & H1 & H2).
  exists g, s1, s2. split; [exact Hg|]. split; [exact H1|]. split; [exact H2|].
  apply (proj2 (append_layers_in_two_calls _ _ g s1 H1) s2 H2).
Defined.

(** * The hopping table: edge cases *)

Section HoppingEdges.

Lemma efold_app {A B} (f : B -> A -> E B) (acc : B) (l1 l2 : list A) :
  efold f acc (l1 ++ l2) = efold f acc l1 ≫= fun acc' => efold f acc' l2.
Proof.
  revert acc. induction l1 as [|x l1 IH]; intros acc; cbn [app efold].
  - reflexivity.
  - destruct (f acc x) as [e|acc']; unfold_e; [reflexivity|]. apply IH.
Qed.

Lemma py_range_split (n : Z) (k : nat) :
  (k < Z.to_nat n)%nat ->
  py_range n = seq 0 k ++ k :: seq (S k) (Z.to_nat n - S k).
Proof.
  intros Hk. unfold py_range.
  replace (Z.to_nat n) with (k + S (Z.to_nat n - S k))%nat at 1 by lia.
  rewrite seq_app. reflexivity.
Qed.

End HoppingEdges.

(** X16: [hoppings_2to3] outside the case of a full table: without [nsite] it
    raises an [AttributeError]; with [nsite <= 0] it returns the empty list
    and never looks at [hoppings]; with sites and no table it raises an
    [AttributeError]; and with a table shorter than [nsite] it raises an
    [IndexError]. *)
Theorem hoppings_2to3_edges (s : Inst) :
  (nsite s = None -> hoppings_2to3 s = inl (AttributeError "nsite")) /\
  (forall n, nsite s = Some n -> (n <= 0)%Z -> hoppings_2to3 s = inr []) /\
  (forall n, nsite s = Some n -> (0 < n)%Z -> hoppings s = None ->
     hoppings_2to3 s = inl (AttributeError "hoppings")) /\
  (forall n hop, nsite s = Some n -> hoppings s = Some hop ->
     (length hop < Z.to_nat n)%nat -> hoppings_2to3 s = inl IndexError).
Proof.
  unfold hoppings_2to3. split; [|split; [|split]].
  - intros ->. reflexivity.
  - intros n -> Hn. unfold_e. unfold py_range.
    replace (Z.to_nat n) with 0%nat by lia. reflexivity.
  - intros n -> Hn Hh. unfold_e. rewrite Hh.
    rewrite (py_range_split n 0) by lia. reflexivity.
  - intros n hop -> Hh Hlen. unfold_e. rewrite Hh.
    rewrite (py_range_split n (length hop)) by exact Hlen.
    rewrite efold_app.
    rewrite (hoppings_2to3_loop hop).
    2:{ apply Forall_forall. intros i Hi.
        apply list_elem_of_In, in_seq in Hi. lia. }
    unfold_e. cbn [efold]. unfold_e.
    rewrite (lookup_ge_None_2 hop (length hop)) by lia. reflexivity.
Qed.

(** * The two hopping models on built structures *)

(** X17: [add_hopping_pz] has no limit on the number of layers: on every
    structure that the builders and [append_layers] produce it reaches the
    hopping calculator, with the crystal structure of the instance, the
    bond length [a0 = a/√3], [h0 = h] and the index ranges of
    [_layer_inds]; what the calculator returns becomes [hoppings], nothing
    else changes, and an exception of the calculator leaves the instance
    as it was. *)
Theorem add_hopping_pz_any_number_of_layers `{SS : StructureService}
    `{FS : FloatService}
    (frac2cart : Mat -> Mat -> Mat)
    (calc : pmg -> R -> R -> R -> R -> R -> R -> R -> R -> R -> list (Z * Z) ->
            E (list (gmap key3 C)))
    (Rcut_intra Rcut_inter g0 g1 rc lc q_dist_scale : R) (s : Inst) :
  built frac2cart s ->
  exists st linds,
    pymatgen_struct s = inr st /\ layer_inds s = inr linds /\
    a s / sqrt 3 * sqrt 3 = a s /\
    (forall hop,
       calc st Rcut_intra Rcut_inter g0 (a s / sqrt 3) g1 (h s) rc lc
         q_dist_scale linds = inr hop ->
       add_hopping_pz calc Rcut_intra Rcut_inter g0 g1 rc lc q_dist_scale s
       = (inr tt, set_hoppings hop s)) /\
    (forall e,
       calc st Rcut_intra Rcut_inter g0 (a s / sqrt 3) g1 (h s) rc lc
         q_dist_scale linds = inl e ->
       add_hopping_pz calc Rcut_intra Rcut_inter g0 g1 rc lc q_dist_scale s
       = (inl e, s)).
Proof.
  intros Hb.
  destruct (built_counts frac2cart s Hb)
    as [_ (lns & subl & cs & n & Hl & _ & Hc & _)].
  destruct (built_layers_ok frac2cart s Hb)
    as (_ & _ & _ & _ & _ & _ & _ & _ & _ & _ & [lv Hlv] & _).
  destruct (layer_inds_inr s lns Hl) as (linds & Hli & _).
  assert (Hst : pymatgen_struct s
                = inr (pmg_struct lv (replicate (length cs) "C"%string) cs true)).
  { unfold pymatgen_struct. rewrite Hlv, Hc. reflexivity. }
  eexists _, linds. split; [exact Hst|]. split; [exact Hli|]. split.
  { pose proof sqrt3_pos. field. lra. }
  split; intros r Hcalc; unfold add_hopping_pz; unfold_m;
    rewrite Hst, Hli, Hcalc; reflexivity.
Qed.

Lemma add_hopping_pz_any_number_of_layers_witness :
  exists s',
    built (SS := RefService.service) (FS := RefFloat.service) frac2cart_ref s' /\
    layer_nsites s' = Some [2%Z; 2%Z; 2%Z] /\
    add_hopping_pz (SS := RefService.service) calc_pz_no_hopping
      5 5 3.12 0.48 6.14 0.265 2.218 s'
    = (inr tt, set_hoppings (replicate 6 ∅) s').
Proof.
  destruct graphene_trilayer_run as (g & s' & Hg & Happ & _ & Hl & _).
  assert (Hb : built (SS := RefService.service)
        (FS := RefFloat.service) frac2cart_ref s').
  { eapply built_append; [|exact Happ]. eapply built_graphene. exact Hg. }
  exists s'. split; [exact Hb|]. split; [exact Hl|].
  destruct (add_hopping_pz_any_number_of_layers (SS := RefService.service)
        (FS := RefFloat.service)
              frac2cart_ref calc_pz_no_hopping 5 5 3.12 0.48 6.14 0.265 2.218 s' Hb)
    as (st & linds & _ & _ & _ & Hok & _).
  apply Hok. reflexivity.
Defined.

Section WannierOnCommensurate.



End WannierOnCommensurate.



(** * A hopping table and later changes of the structure *)

Section StaleTable.



End StaleTable.



(** * The Bloch Hamiltonian is periodic in the reciprocal lattice *)

Section Periodicity.






End Periodicity.



(** * The diagonalisation loop when every k-point goes through *)

Section DiagSuccess.

Variable zheev : CMat -> Z -> list R * CMat * Z.
Variable get_pk :
  list R -> list R -> list Z -> Z -> Z -> CMat -> Mat -> list Z -> list R.
Variables (s : Inst) (nk : nat) (vec pmk : bool) (elec_field : R).

Lemma diag_step_solved acc k :
  step_passes zheev s vec pmk elec_field k ->
  exists out Hk,
    solved_at zheev get_pk s vec pmk elec_field k out /\
    diag_step zheev get_pk s nk vec pmk elec_field acc k
    = (inr tt,
       mkAcc (val_out acc ++ [fst (fst out)])
         (if vec then vec_out acc ++ [snd (fst out)] else vec_out acc)
         (if pmk then pmk_out acc ++ [snd out] else pmk_out acc)
         (counter acc + 1)%Z
         (trace acc ++ [Printed (progress_line (counter acc) nk);
                        ZheevCalled Hk (vec_calc_of vec pmk)])).
Proof.
  intros (Hk & vals & vecs & Hham & Hz & Hpk).
  unfold diag_step. rewrite Hham, Hz. cbn [Z.eqb negb].
  destruct pmk eqn:Hpmk.
  - destruct (Hpk eq_refl) as ([lns Hl] & [cs Hc] & [sp Hs]).
    rewrite Hl, Hc. unfold_e. rewrite Hs. unfold_e.
    exists (vals, vecs,
            get_pk k (map (fun n => IZR n / 2) lns) [1%Z; 1%Z] 2%Z 2%Z vecs cs sp), Hk.
    split.
    + exists Hk, vals, vecs. repeat split; try assumption.
      intros _. exists lns, cs, sp. auto.
    + cbn. now rewrite <- app_assoc.
  - unfold_e. exists (vals, vecs, []), Hk. split.
    + exists Hk, vals, vecs. repeat split; try assumption. discriminate.
    + cbn. now rewrite <- app_assoc.
Qed.

Lemma diag_loop_solved kpts :
  Forall (step_passes zheev s vec pmk elec_field) kpts ->
  forall acc,
  exists outs tr,
    Forall2 (solved_at zheev get_pk s vec pmk elec_field) kpts outs /\
    diag_loop zheev get_pk s nk vec pmk elec_field acc kpts
    = (inr tt,
       mkAcc (val_out acc ++ map (fun o => fst (fst o)) outs)
         (if vec then vec_out acc ++ map (fun o => snd (fst o)) outs
          else vec_out acc)
         (if pmk then pmk_out acc ++ map snd outs else pmk_out acc)
         (counter acc + Z.of_nat (length kpts))%Z
         (trace acc ++ tr)) /\
    zheev_calls tr = length kpts /\ length tr = (2 * length kpts)%nat.
Proof.
  induction 1 as [|k kpts Hk _ IH]; intros acc.
  - exists [], []. split; [constructor|]. split; [|auto].
    cbn [diag_loop map length]. rewrite !app_nil_r, Z.add_0_r.
    destruct acc, vec, pmk; reflexivity.
  - destruct (diag_step_solved acc k Hk) as (out & Hk0 & Hout & Hstep).
    destruct (IH (mkAcc (val_out acc ++ [fst (fst out)])
         (if vec then vec_out acc ++ [snd (fst out)] else vec_out acc)
         (if pmk then pmk_out acc ++ [snd out] else pmk_out acc)
         (counter acc + 1)%Z
         (trace acc ++ [Printed (progress_line (counter acc) nk);
                        ZheevCalled Hk0 (vec_calc_of vec pmk)])))
      as (outs & tr & Houts & Hloop & Hcalls & Hlen).
    exists (out :: outs),
           ([Printed (progress_line (counter acc) nk);
             ZheevCalled Hk0 (vec_calc_of vec pmk)] ++ tr).
    split; [constructor; assumption|]. split; [|split].
    + cbn [diag_loop]. rewrite Hstep, Hloop.
      cbn [val_out vec_out pmk_out counter trace map length].
      f_equal. f_equal.
      * now rewrite <- app_assoc.
      * destruct vec; [now rewrite <- app_assoc|reflexivity].
      * destruct pmk; [now rewrite <- app_assoc|reflexivity].
      * lia.
      * now rewrite <- app_assoc.
    + rewrite zheev_calls_app, Hcalls. reflexivity.
    + rewrite length_app, Hlen. cbn [length]. lia.
Qed.

End DiagSuccess.

(** X21: When every k-point goes through, [diag_kpts] returns the eigenvalues in
    the order of [kpts], one entry per k-point; the eigenvectors likewise
    when [vec] is set and no entry otherwise; the spectral weights likewise
    when [pmk] is set and no entry otherwise.  The eigensolver has been
    called once per k-point, each call preceded by one progress line. *)
Theorem diag_kpts_all_pass
    (zheev : CMat -> Z -> list R * CMat * Z)
    (get_pk : list R -> list R -> list Z -> Z -> Z -> CMat -> Mat -> list Z -> list R)
    (s : Inst) (kpts : list (list R)) (vec pmk : bool) (elec_field : R) :
  Forall (step_passes zheev s vec pmk elec_field) kpts ->
  exists outs tr,
    Forall2 (solved_at zheev get_pk s vec pmk elec_field) kpts outs /\
    diag_kpts zheev get_pk s kpts vec pmk elec_field
    = (inr (map (fun o => fst (fst o)) outs,
            (if vec then map (fun o => snd (fst o)) outs else []),
            (if pmk then map snd outs else [])),
       tr) /\
    zheev_calls tr = length kpts /\ length tr = (2 * length kpts)%nat.
Proof.
  intros Hall.
  destruct (diag_loop_solved zheev get_pk s (length kpts) vec pmk elec_field kpts
              Hall (mkAcc [] [] [] 1%Z [])) as (outs & tr & Houts & Hloop & Hc & Hl).
  exists outs, tr. split; [exact Houts|]. split; [|auto].
  unfold diag_kpts. rewrite Hloop. cbn [val_out vec_out pmk_out trace app].
  destruct vec, pmk; reflexivity.
Qed.

Lemma diag_kpts_all_pass_witness :
  exists outs tr,
    Forall2 (solved_at zheev_sign get_pk_none one_site_inst false false 0)
      [[0; 0]; [0; 0]] outs /\
    diag_kpts zheev_sign get_pk_none one_site_inst [[0; 0]; [0; 0]] false false 0
    = (inr (map (fun o => fst (fst o)) outs, [], []), tr) /\
    zheev_calls tr = 2%nat /\ length tr = 4%nat.
Proof.
  apply (diag_kpts_all_pass zheev_sign get_pk_none one_site_inst
           [[0; 0]; [0; 0]] false false 0).
  constructor; [exact one_site_passes_at_0|].
  constructor; [exact one_site_passes_at_0|constructor].
Defined.

(** X22: When the matrix of a k-point cannot be assembled, all earlier k-points
    having gone through, [diag_kpts] raises the exception of
    [hamilt_cell_diff] right after the progress line of that k-point: the
    eigensolver is not called for it, and later k-points are not visited.
    So on a structure with sites and no hopping table the first k-point
    raises an [AttributeError]. *)
Theorem diag_kpts_assembly_error
    (zheev : CMat -> Z -> list R * CMat * Z)
    (get_pk : list R -> list R -> list Z -> Z -> Z -> CMat -> Mat -> list Z -> list R)
    (s : Inst) (pre : list (list R)) (k : list R) (post : list (list R))
    (vec pmk : bool) (elec_field : R) (e : exn) :
  Forall (step_passes zheev s vec pmk elec_field) pre ->
  hamilt_cell_diff s k elec_field = inl e ->
  exists tr,
    diag_kpts zheev get_pk s (pre ++ k :: post) vec pmk elec_field
    = (inl e,
       tr ++ [Printed (progress_line (Z.of_nat (length pre) + 1)
                         (length (pre ++ k :: post)))]) /\
    zheev_calls tr = length pre /\
    zheev_calls (tr ++ [Printed (progress_line (Z.of_nat (length pre) + 1)
                                   (length (pre ++ k :: post)))]) = length pre.
Proof.
  intros Hpre Hfail. unfold diag_kpts.
  destruct (diag_loop_passes zheev get_pk s (length (pre ++ k :: post)) vec pmk
              elec_field pre (k :: post) (mkAcc [] [] [] 1%Z []) Hpre)
    as (acc' & Hloop & Hc & tr & Ht & Hn).
  rewrite Hloop. cbn [diag_loop]. unfold diag_step. rewrite Hfail.
  exists tr. cbn [trace]. rewrite Ht, Hc. cbn [trace counter app].
  replace (1 + Z.of_nat (length pre))%Z with (Z.of_nat (length pre) + 1)%Z by lia.
  split; [reflexivity|]. split; [exact Hn|].
  rewrite zheev_calls_app, Hn. cbn. lia.
Qed.

Lemma one_site_no_table_fails k :
  hamilt_cell_diff one_site_no_table k 0 = inl (AttributeError "hoppings").
Proof.
  unfold hamilt_cell_diff, one_site_no_table. cbn [nsite coords latt_vec hoppings].
  unfold_e. cbn [Z.ltb Z.compare]. unfold_e.
  destruct (Req_dec_T 0 0) as [_|Hne]; [|contradiction]. unfold_e.
  reflexivity.
Qed.

Lemma diag_kpts_assembly_error_witness :
  exists tr,
    diag_kpts zheev_sign get_pk_none one_site_no_table ([] ++ [0; 0] :: [[PI; 0]])
      false false 0
    = (inl (AttributeError "hoppings"),
       tr ++ [Printed (progress_line (Z.of_nat (length (@nil (list R))) + 1)
                         (length ([] ++ [0; 0] :: [[PI; 0]])))]) /\
    zheev_calls tr = length (@nil (list R)) /\
    zheev_calls (tr ++ [Printed (progress_line (Z.of_nat (length (@nil (list R))) + 1)
                                   (length ([] ++ [0; 0] :: [[PI; 0]])))])
    = length (@nil (list R)).
Proof.
  apply (diag_kpts_assembly_error zheev_sign get_pk_none one_site_no_table
           [] [0; 0] [[PI; 0]] false false 0 (AttributeError "hoppings")).
  - constructor.
  - apply one_site_no_table_fails.
Defined.

(** * The tipsi sample: sites, positions and the periodic boundary *)

Section SiteSet.

Lemma efold_append {A B} (f : list B -> A -> E (list B)) (h : A -> list B)
    (l : list A) :
  (forall acc x, f acc x = inr (acc ++ h x)) ->
  forall acc, efold f acc l = inr (acc ++ flat_map h l).
Proof.
  intros Hf. induction l as [|x l IH]; intros acc; cbn [efold flat_map].
  - now rewrite app_nil_r.
  - rewrite Hf. unfold_e. rewrite IH. now rewrite app_assoc.
Qed.

(** The [add_site] calls of [siteset], as nested comprehensions. *)
Lemma siteset_eq (nsite sx sy : Z) :
  siteset nsite [sx; sy]
  = inr (flat_map (fun k =>
           flat_map (fun i =>
             flat_map (fun j => [((Z.of_nat i, Z.of_nat j, 0%Z), Z.of_nat k)])
                      (py_range sy))
           (py_range sx))
         (py_range nsite)).
Proof.
  unfold siteset.
  rewrite (efold_append _
             (fun k => flat_map (fun i =>
                flat_map (fun j => [((Z.of_nat i, Z.of_nat j, 0%Z), Z.of_nat k)])
                         (py_range sy)) (py_range sx)));
    [reflexivity|].
  intros acc k. rewrite py_index_0. unfold_e.
  apply efold_append. intros acc1 i. rewrite py_index_1. unfold_e.
  apply efold_append. intros acc2 j. reflexivity.
Qed.

Lemma elem_of_py_range (n : Z) (i : nat) :
  In i (py_range n) <-> (0 <= Z.of_nat i < n)%Z.
Proof. unfold py_range. rewrite in_seq. lia. Qed.

Lemma siteset_elem (nsite sx sy : Z) (st : site) :
  In st (flat_map (fun k =>
           flat_map (fun i =>
             flat_map (fun j => [((Z.of_nat i, Z.of_nat j, 0%Z), Z.of_nat k)])
                      (py_range sy))
           (py_range sx))
         (py_range nsite))
  <-> exists i j k, st = ((i, j, 0%Z), k) /\
        (0 <= i < sx)%Z /\ (0 <= j < sy)%Z /\ (0 <= k < nsite)%Z.
Proof.
  rewrite in_flat_map. split.
  - intros (k & Hk & Hin). apply in_flat_map in Hin as (i & Hi & Hin).
    apply in_flat_map in Hin as (j & Hj & Hin).
    destruct Hin as [<-|[]].
    apply elem_of_py_range in Hk, Hi, Hj. eauto 10.
  - intros (i & j & k & -> & Hi & Hj & Hk).
    exists (Z.to_nat k). split; [apply elem_of_py_range; lia|].
    apply in_flat_map. exists (Z.to_nat i). split; [apply elem_of_py_range; lia|].
    apply in_flat_map. exists (Z.to_nat j). split; [apply elem_of_py_range; lia|].
    left. rewrite !Z2Nat.id by lia. reflexivity.
Qed.

Lemma flat_map_const_length {A B} (f : A -> list B) (l : list A) (c : nat) :
  (forall x, length (f x) = c) -> length (flat_map f l) = (length l * c)%nat.
Proof.
  intros Hf. induction l as [|x l IH]; cbn; [reflexivity|].
  rewrite length_app, Hf, IH. reflexivity.
Qed.

Lemma NoDup_flat_map {A B} (f : A -> list B) (l : list A) :
  NoDup l -> (forall x, NoDup (f x)) ->
  (forall x1 x2 y, In y (f x1) -> In y (f x2) -> x1 = x2) ->
  NoDup (flat_map f l).
Proof.
  intros Hl Hf Hdisj. induction Hl as [|x l Hx Hl IH]; cbn; [constructor|].
  apply NoDup_app. split; [apply Hf|]. split; [|exact IH].
  intros y Hy Hy'. apply list_elem_of_In in Hy, Hy'.
  apply in_flat_map in Hy' as (x' & Hx' & Hy').
  apply Hx. rewrite (Hdisj x x' y Hy Hy'). now apply list_elem_of_In.
Qed.

End SiteSet.

Lemma siteset_spec (nsite sx sy : Z) :
  exists sites,
    siteset nsite [sx; sy] = inr sites /\
    length sites = (Z.to_nat nsite * (Z.to_nat sx * Z.to_nat sy))%nat /\
    NoDup sites /\
    forall i j z k,
      ((i, j, z), k) ∈ sites <->
      (0 <= i < sx)%Z /\ (0 <= j < sy)%Z /\ z = 0%Z /\ (0 <= k < nsite)%Z.
Proof.
  eexists. split; [apply siteset_eq|]. split; [|split].
  - rewrite (flat_map_const_length _ _ (Z.to_nat sx * Z.to_nat sy)).
    { unfold py_range. now rewrite length_seq. }
    intros k. rewrite (flat_map_const_length _ _ (Z.to_nat sy)).
    { unfold py_range. now rewrite length_seq. }
    intros i. rewrite (flat_map_const_length _ _ 1).
    { unfold py_range. rewrite length_seq. lia. }
    reflexivity.
  - apply NoDup_flat_map; [apply NoDup_seq| |].
    + intros k. apply NoDup_flat_map; [apply NoDup_seq| |].
      * intros i. apply NoDup_flat_map; [apply NoDup_seq| |].
        -- intros j. apply NoDup_singleton.
        -- intros j1 j2 y [<-|[]] [[=]|[]]. lia.
      * intros i1 i2 y H1 H2.
        apply in_flat_map in H1 as (j1 & _ & [<-|[]]).
        apply in_flat_map in H2 as (j2 & _ & [[=]|[]]). lia.
    + intros k1 k2 y H1 H2.
      apply in_flat_map in H1 as (i1 & _ & H1).
      apply in_flat_map in H1 as (j1 & _ & [<-|[]]).
      apply in_flat_map in H2 as (i2 & _ & H2).
      apply in_flat_map in H2 as (j2 & _ & [[=]|[]]). lia.
  - intros i j z k. rewrite list_elem_of_In, siteset_elem. split.
    + intros (i' & j' & k' & [= -> -> -> ->] & Hi & Hj & Hk). auto.
    + intros (Hi & Hj & -> & Hk). eauto 10.
Qed.

(** X23: [siteset(nsite, size)] adds every orbital [k] of every unit cell
    [(i, j, 0)] of the [size[0]] by [size[1]] sample exactly once:
    [nsite·size[0]·size[1]] sites, none repeated, and a site is added
    exactly when its cell is in the sample at [z = 0] and its orbital index
    is below [nsite]. *)
Theorem siteset_enumerates (nsite sx sy : Z) :
  exists sites,
    siteset nsite [sx; sy] = inr sites /\
    length sites = (Z.to_nat nsite * (Z.to_nat sx * Z.to_nat sy))%nat /\
    NoDup sites /\
    forall i j z k,
      ((i, j, z), k) ∈ sites <->
      (0 <= i < sx)%Z /\ (0 <= j < sy)%Z /\ z = 0%Z /\ (0 <= k < nsite)%Z.
Proof. apply siteset_spec. Qed.

(** X24: The [pbc_func] of [sample], for a sample of positive size: the cell is
    brought into the sample by whole sample lengths, [z] and the orbital
    are kept; cells that differ by whole sample lengths have the same
    image; a cell of the sample is its own image; and the image of a cell
    at [z = 0] with an orbital index below [nsite] is one of the sites of
    [siteset(nsite, size)]. *)
Theorem pbc_func_wraps (nsite sx sy x y z orb : Z) :
  (0 < sx)%Z -> (0 < sy)%Z ->
  exists x' y',
    pbc_func [sx; sy] (x, y, z) orb = inr ((x', y', z), orb) /\
    (0 <= x' < sx)%Z /\ (0 <= y' < sy)%Z /\
    (exists p q, x = (x' + p * sx)%Z /\ y = (y' + q * sy)%Z) /\
    (forall p q, pbc_func [sx; sy] ((x + p * sx)%Z, (y + q * sy)%Z, z) orb
                 = inr ((x', y', z), orb)) /\
    pbc_func [sx; sy] (x', y', z) orb = inr ((x', y', z), orb) /\
    (z = 0%Z -> (0 <= orb < nsite)%Z ->
     exists sites, siteset nsite [sx; sy] = inr sites /\
                   ((x', y', z), orb) ∈ sites).
Proof.
  intros Hsx Hsy.
  assert (Hrun : forall u v,
             pbc_func [sx; sy] (u, v, z) orb
             = inr (((u mod sx)%Z, (v mod sy)%Z, z), orb)).
  { intros u v. unfold pbc_func, py_mod. rewrite py_index_0, py_index_1. unfold_e.
    destruct (Z.eqb_spec sx 0) as [H0|_]; [lia|]. unfold_e.
    destruct (Z.eqb_spec sy 0) as [H0|_]; [lia|]. reflexivity. }
  exists (x mod sx)%Z, (y mod sy)%Z.
  pose proof (Z.mod_pos_bound x sx Hsx) as Hx.
  pose proof (Z.mod_pos_bound y sy Hsy) as Hy.
  split; [apply Hrun|]. split; [exact Hx|]. split; [exact Hy|].
  split; [|split; [|split]].
  - exists (x / sx)%Z, (y / sy)%Z.
    pose proof (Z.div_mod x sx ltac:(lia)). pose proof (Z.div_mod y sy ltac:(lia)).
    lia.
  - intros p q. rewrite Hrun, !Z_mod_plus_full. reflexivity.
  - rewrite Hrun, !Z.mod_mod by lia. reflexivity.
  - intros -> Horb.
    destruct (siteset_spec nsite sx sy) as (sites & Hs & _ & _ & Hin).
    exists sites. split; [exact Hs|]. apply Hin. auto.
Qed.

Lemma pbc_func_wraps_witness :
  exists x' y',
    pbc_func [3%Z; 2%Z] ((-1)%Z, 5%Z, 0%Z) 1%Z = inr ((x', y', 0%Z), 1%Z) /\
    (0 <= x' < 3)%Z /\ (0 <= y' < 2)%Z /\
    (exists p q, (-1)%Z = (x' + p * 3)%Z /\ 5%Z = (y' + q * 2)%Z) /\
    (forall p q, pbc_func [3%Z; 2%Z] ((-1 + p * 3)%Z, (5 + q * 2)%Z, 0%Z) 1%Z
                 = inr ((x', y', 0%Z), 1%Z)) /\
    pbc_func [3%Z; 2%Z] (x', y', 0%Z) 1%Z = inr ((x', y', 0%Z), 1%Z) /\
    (0%Z = 0%Z -> (0 <= 1 < 2)%Z ->
     exists sites, siteset 2 [3%Z; 2%Z] = inr sites /\
                   ((x', y', 0%Z), 1%Z) ∈ sites).
Proof. apply (pbc_func_wraps 2 3 2 (-1) 5 0 1); lia. Defined.

(** X25: What [sample] hands to tipsi fits together on every structure that the
    builders and [append_layers] produce: [lattice(struct)] has one
    position per site (the coordinates in nanometres), so every orbital
    index that [siteset(struct.nsite, size)] uses has a position. *)
Theorem sample_sites_have_positions `{SS : StructureService} `{FS : FloatService}
    (frac2cart : Mat -> Mat -> Mat) (s : Inst) (sx sy : Z) :
  built frac2cart s ->
  exists n cs lat_vecs positions sites,
    nsite s = Some n /\ coords s = Some cs /\
    lattice s = inr (lat_vecs, positions) /\
    siteset n [sx; sy] = inr sites /\
    Z.of_nat (length positions) = n /\
    positions = map (map (fun x => x * 0.1)) cs /\
    forall cell k, (cell, k) ∈ sites -> is_Some (positions !! Z.to_nat k).
Proof.
  intros Hb.
  destruct (built_counts frac2cart s Hb)
    as [_ (lns & subl & cs & n & _ & _ & Hc & Hn & _ & Hlen & _)].
  destruct (built_layers_ok frac2cart s Hb)
    as (_ & _ & _ & _ & _ & _ & _ & _ & _ & _ & [lv Hlv] & _).
  destruct (siteset_spec n sx sy) as (sites & Hs & _ & _ & Hin).
  exists n, cs. eexists _, _, sites.
  split; [exact Hn|]. split; [exact Hc|].
  split; [unfold lattice; rewrite Hc, Hlv; reflexivity|].
  split; [exact Hs|]. split; [rewrite length_map; lia|].
  split; [reflexivity|].
  intros [[i j] z] k Hk. apply Hin in Hk as (_ & _ & _ & Hk).
  apply lookup_lt_is_Some_2. rewrite length_map. lia.
Qed.

Lemma sample_sites_have_positions_witness :
  exists s n cs lat_vecs positions sites,
    built (SS := RefService.service) (FS := RefFloat.service) frac2cart_ref s /\
    nsite s = Some n /\ coords s = Some cs /\
    lattice s = inr (lat_vecs, positions) /\
    siteset n [3%Z; 2%Z] = inr sites /\
    Z.of_nat (length positions) = n /\
    positions = map (map (fun x => x * 0.1)) cs /\
    forall cell k, (cell, k) ∈ sites -> is_Some (positions !! Z.to_nat k).
Proof.
  destruct graphene_trilayer_run as (g & s' & Hg & Happ & _).
  assert (Hb : built (SS := RefService.service)
        (FS := RefFloat.service) frac2cart_ref s').
  { eapply built_append; [|exact Happ]. eapply built_graphene. exact Hg. }
  destruct (sample_sites_have_positions (SS := RefService.service)
        (FS := RefFloat.service)
              frac2cart_ref s' 3 2 Hb)
    as (n & cs & lat_vecs & positions & sites & H).
  exists s', n, cs, lat_vecs, positions, sites. split; [exact Hb | exact H].
Defined.

(** * The electric field is an on-site potential *)

Section FieldShift.







End FieldShift.

Section FieldTheorem.


End FieldTheorem.




(** * Reversing the momentum *)

Section MomentumReversal.






End MomentumReversal.



(** * The monolayer *)


